(** * MonitorMELI: listing-row extraction, SKU input, CSV and report summaries

    A shallow embedding of the TypeScript sources of the marketplace monitor:
    the plain-HTML row parsers, the item-identifier extractors and the text
    helpers of the DOM readers, the SKU file reader, the CSV writer, the
    report helpers and the report builders.

    JavaScript strings are sequences of UTF-16 code units; they are modelled
    as lists of numbers.  The regular expressions of the sources are kept as
    syntax trees and run by a backtracking matcher that follows the
    continuation-passing matchers of the ECMAScript specification (priority
    of alternatives, greedy and lazy repetition, the empty-iteration check,
    capture groups, word boundaries, the ignore-case flag).

    Source text is quoted in comments between square brackets, with two
    apostrophes standing for every double quote of the source. *)

From Stdlib Require Import List NArith ZArith Bool Arith Lia.
From Stdlib Require Import Sorting.Sorted Sorting.Permutation.
From Stdlib Require String Ascii.
Import ListNotations.
Import String.StringSyntax.
Delimit Scope string_scope with string.

Set Implicit Arguments.

(** ** Strings *)

Definition jschar := N.
Definition jsstring := list jschar.

(** A literal of the source text as a JavaScript string. *)
Definition str (s : String.string) : jsstring :=
  map Ascii.N_of_ascii (String.list_ascii_of_string s).

(** The same, reading every apostrophe of the literal as a double quote
    (for the double quotes of patterns, templates and sample pages). *)
Definition strq (s : String.string) : jsstring :=
  map (fun c => if (c =? 39)%N then 34%N else c) (str s).

Arguments str s%_string.
Arguments strq s%_string.

Definition jsstring_eqb (a b : jsstring) : bool :=
  if list_eq_dec N.eq_dec a b then true else false.

(** Truthiness of a string: the empty string is falsy. *)
Definition truthy (s : jsstring) : bool :=
  match s with [] => false | _ => true end.

(** [a || b] on strings. *)
Definition or_str (a b : jsstring) : jsstring :=
  if truthy a then a else b.

Section CharClasses.
Local Open Scope N_scope.

Definition is_digit (c : jschar) : bool := (48 <=? c) && (c <=? 57).
Definition is_upper (c : jschar) : bool := (65 <=? c) && (c <=? 90).
Definition is_lower (c : jschar) : bool := (97 <=? c) && (c <=? 122).
(** The letters A to Z and a to z. *)
Definition is_letter (c : jschar) : bool := is_upper c || is_lower c.

(** [\w] : the basic word characters. *)
Definition is_word (c : jschar) : bool :=
  is_digit c || is_letter c || (c =? 95).

(** [\s] and [trim]: WhiteSpace and LineTerminator code points. *)
Definition is_space (c : jschar) : bool :=
  (c =? 9) || (c =? 10) || (c =? 11) || (c =? 12) || (c =? 13) ||
  (c =? 32) || (c =? 160) || (c =? 5760) ||
  ((8192 <=? c) && (c <=? 8202)) ||
  (c =? 8232) || (c =? 8233) || (c =? 8239) || (c =? 8287) ||
  (c =? 12288) || (c =? 65279).

(** Canonicalize of the ignore-case flag (no unicode flag).  A code unit
    outside ASCII never canonicalizes to an ASCII one, and every pattern
    character of the sources is ASCII, so only the ASCII letters fold. *)
Definition upcase (c : jschar) : jschar := if is_lower c then c - 32 else c.
Definition downcase (c : jschar) : jschar := if is_upper c then c + 32 else c.

Definition chr_eq (ci : bool) (p x : jschar) : bool :=
  if ci then upcase p =? upcase x else p =? x.
End CharClasses.

(** [String.prototype.trim]. *)
Fixpoint trim_start (s : jsstring) : jsstring :=
  match s with
  | c :: s' => if is_space c then trim_start s' else s
  | [] => []
  end.

Definition trim (s : jsstring) : jsstring :=
  rev (trim_start (rev (trim_start s))).

(** [Array.prototype.join]. *)
Fixpoint join (sep : jsstring) (l : list jsstring) : jsstring :=
  match l with
  | [] => []
  | [x] => x
  | x :: l' => x ++ sep ++ join sep l'
  end.

(** [String.prototype.startsWith] and [String.prototype.includes]. *)
Fixpoint starts_with (w s : jsstring) : bool :=
  match w, s with
  | [], _ => true
  | c :: w', x :: s' => (c =? x)%N && starts_with w' s'
  | _ :: _, [] => false
  end.

Fixpoint includes (s w : jsstring) : bool :=
  starts_with w s ||
  match s with
  | [] => false
  | _ :: s' => includes s' w
  end.

(** [s.split(sep)] for a separator of one code unit.  [cur] holds, reversed,
    the units read since the last separator. *)
Fixpoint split_on (sep : jschar) (cur : jsstring) (s : jsstring) : list jsstring :=
  match s with
  | [] => [rev cur]
  | c :: s' =>
      if (c =? sep)%N then rev cur :: split_on sep [] s'
      else split_on sep (c :: cur) s'
  end.

(** ** Regular expressions *)

Module Regex.

Inductive citem : Type :=
| CChar (c : jschar)
| CRange (lo hi : jschar)
| CSpace                      (* \s *)
| CNonSpace                   (* \S *)
| CDigit.                     (* \d *)

Inductive regex : Type :=
| Eps
| Chr (c : jschar)
| Cls (neg : bool) (items : list citem)      (* [...] and [^...] *)
| Seq (a b : regex)
| Alt (a b : regex)
| Rep (min : nat) (greedy : bool) (a : regex) (* a{min,}: * is 0, + is 1 *)
| Opt (a : regex)                             (* a? *)
| Grp (i : nat) (a : regex)                   (* capture group i *)
| WordB                                       (* \b *)
| Bol                                         (* ^ *)
| Eol.                                        (* $ *)

Fixpoint lit (w : jsstring) : regex :=
  match w with
  | [] => Eps
  | c :: w' => Seq (Chr c) (lit w')
  end.

Definition seqs (l : list regex) : regex := fold_right Seq Eps l.

Definition ws : regex := Cls false [CSpace].
Definition digit : regex := Cls false [CDigit].
Definition anychar : regex := Cls false [CSpace; CNonSpace].   (* [\s\S] *)
Definition notc (c : jschar) : regex := Cls true [CChar c].    (* [^c] *)

(** Matcher state: the code unit before the current position (for [\b]
    and [^]), the input still to read, and the captures so far. *)
Record mstate : Type := MS {
  ms_prev : option jschar;
  ms_rest : jsstring;
  ms_caps : list (nat * jsstring)
}.

Definition cont := mstate -> option mstate.

Definition orelse (x y : option mstate) : option mstate :=
  match x with Some _ => x | None => y end.

Definition citem_mem (ci : bool) (it : citem) (x : jschar) : bool :=
  match it with
  | CChar c => chr_eq ci c x
  | CRange lo hi =>
      let inr y := ((lo <=? y) && (y <=? hi))%N in
      if ci then inr x || inr (upcase x) || inr (downcase x) else inr x
  | CSpace => is_space x
  | CNonSpace => negb (is_space x)
  | CDigit => is_digit x
  end.

Definition cls_mem (ci : bool) (neg : bool) (items : list citem) (x : jschar) : bool :=
  xorb neg (existsb (fun it => citem_mem ci it x) items).

Definition is_word_opt (o : option jschar) : bool :=
  match o with Some c => is_word c | None => false end.

Definition at_boundary (s : mstate) : bool :=
  xorb (is_word_opt (ms_prev s)) (is_word_opt (hd_error (ms_rest s))).

Definition advance (s : mstate) (x : jschar) (xs : jsstring) : mstate :=
  MS (Some x) xs (ms_caps s).

Definition set_cap (i : nat) (v : jsstring) (caps : list (nat * jsstring)) :=
  (i, v) :: filter (fun p => negb (Nat.eqb (fst p) i)) caps.

Fixpoint get_cap (i : nat) (caps : list (nat * jsstring)) : option jsstring :=
  match caps with
  | [] => None
  | (j, v) :: caps' => if Nat.eqb j i then Some v else get_cap i caps'
  end.

(** Only states that moved forward pass (the empty-iteration check of
    RepeatMatcher). *)
Definition progress (s : mstate) (k : cont) : cont :=
  fun s' => if length (ms_rest s') <? length (ms_rest s) then k s' else None.

(** The [min = 0] phase of RepeatMatcher. *)
Fixpoint star_loop (ma : cont -> cont) (greedy : bool) (k : cont)
         (fuel : nat) (s : mstate) : option mstate :=
  match fuel with
  | O => None
  | S f =>
      let iter := ma (progress s (star_loop ma greedy k f)) s in
      if greedy then orelse iter (k s) else orelse (k s) iter
  end.

Definition star (ma : cont -> cont) (greedy : bool) (k : cont) : cont :=
  fun s => star_loop ma greedy k (S (length (ms_rest s))) s.

(** The mandatory iterations of RepeatMatcher. *)
Fixpoint rep_need (ma : cont -> cont) (body : cont) (m : nat) : cont :=
  match m with
  | O => body
  | S m' => ma (rep_need ma body m')
  end.

Fixpoint rmatch (ci : bool) (r : regex) (k : cont) (s : mstate) {struct r}
  : option mstate :=
  match r with
  | Eps => k s
  | Chr c =>
      match ms_rest s with
      | x :: xs => if chr_eq ci c x then k (advance s x xs) else None
      | [] => None
      end
  | Cls neg items =>
      match ms_rest s with
      | x :: xs => if cls_mem ci neg items x then k (advance s x xs) else None
      | [] => None
      end
  | Seq a b => rmatch ci a (rmatch ci b k) s
  | Alt a b => orelse (rmatch ci a k s) (rmatch ci b k s)
  | Rep min greedy a =>
      rep_need (rmatch ci a) (star (rmatch ci a) greedy k) min s
  | Opt a => orelse (rmatch ci a (progress s k) s) (k s)
  | Grp i a =>
      rmatch ci a
        (fun s' =>
           let n := length (ms_rest s) - length (ms_rest s') in
           k (MS (ms_prev s') (ms_rest s')
                 (set_cap i (firstn n (ms_rest s)) (ms_caps s'))))
        s
  | WordB => if at_boundary s then k s else None
  | Bol => match ms_prev s with None => k s | Some _ => None end
  | Eol => match ms_rest s with [] => k s | _ :: _ => None end
  end.

(** A match attempt at one position. *)
Definition match_here (ci : bool) (r : regex) (prev : option jschar)
           (s : jsstring) : option mstate :=
  rmatch ci r (fun m => Some m) (MS prev s []).

(** RegExpBuiltinExec without the sticky flag: the first position, from
    the current one on, at which a match attempt succeeds.  The result is
    the text skipped, the text from the start of the match, and the final
    matcher state. *)
Fixpoint search (ci : bool) (r : regex) (prev : option jschar) (s : jsstring)
  : option (jsstring * jsstring * mstate) :=
  match match_here ci r prev s with
  | Some m => Some ([], s, m)
  | None =>
      match s with
      | [] => None
      | c :: s' =>
          match search ci r (Some c) s' with
          | Some (sk, st, m) => Some (c :: sk, st, m)
          | None => None
          end
      end
  end.

Definition matched_len (st : jsstring) (m : mstate) : nat :=
  length st - length (ms_rest m).

Definition matched_text (st : jsstring) (m : mstate) : jsstring :=
  firstn (matched_len st m) st.

(** [re.test(s)] for a pattern without the global flag. *)
Definition test (ci : bool) (r : regex) (s : jsstring) : bool :=
  match search ci r None s with Some _ => true | None => false end.

(** [s.match(re)] for a pattern without the global flag: the whole match
    and the captures, or nothing. *)
Definition exec (ci : bool) (r : regex) (s : jsstring)
  : option (jsstring * list (nat * jsstring)) :=
  match search ci r None s with
  | Some (_, st, m) => Some (matched_text st m, ms_caps m)
  | None => None
  end.

(** [m[i]] of a match object; a group that did not take part is
    undefined. *)
Definition group (i : nat) (m : jsstring * list (nat * jsstring)) : option jsstring :=
  get_cap i (snd m).

(** [s.match(re)] with the global flag: every match, left to right, the
    search resuming after each one (one unit further after an empty one). *)
Fixpoint match_all_go (fuel : nat) (ci : bool) (r : regex)
         (prev : option jschar) (s : jsstring) : list jsstring :=
  match fuel with
  | O => []
  | S f =>
      match search ci r prev s with
      | None => []
      | Some (_, st, m) =>
          matched_text st m ::
          (if Nat.eqb (matched_len st m) 0
           then match st with
                | [] => []
                | c :: st' => match_all_go f ci r (Some c) st'
                end
           else match_all_go f ci r (ms_prev m) (ms_rest m))
      end
  end.

Definition match_all (ci : bool) (r : regex) (s : jsstring) : list jsstring :=
  match_all_go (S (length s)) ci r None s.

(** [s.replace(re, repl)] with the global flag, for a replacement text
    without [$] patterns. *)
Fixpoint replace_go (fuel : nat) (ci : bool) (r : regex) (repl : jsstring)
         (prev : option jschar) (s : jsstring) : jsstring :=
  match fuel with
  | O => s
  | S f =>
      match search ci r prev s with
      | None => s
      | Some (sk, st, m) =>
          sk ++ repl ++
          (if Nat.eqb (matched_len st m) 0
           then match st with
                | [] => []
                | c :: st' => c :: replace_go f ci r repl (Some c) st'
                end
           else replace_go f ci r repl (ms_prev m) (ms_rest m))
      end
  end.

Definition replace_all (ci : bool) (r : regex) (repl : jsstring) (s : jsstring)
  : jsstring :=
  replace_go (S (length s)) ci r repl None s.

(** [s.split(re)] for a pattern without capture groups and no limit.
    [cur] holds, reversed, the units read since the last separator. *)
Fixpoint split_go (fuel : nat) (ci : bool) (r : regex) (prev : option jschar)
         (cur : jsstring) (s : jsstring) : list jsstring :=
  match fuel with
  | O => [rev cur ++ s]
  | S f =>
      match s with
      | [] => [rev cur]
      | c :: s' =>
          match match_here ci r prev s with
          | None => split_go f ci r (Some c) (c :: cur) s'
          | Some m =>
              if Nat.eqb (matched_len s m) 0
              then match cur with
                   | [] => split_go f ci r (Some c) [c] s'
                   | _ :: _ => rev cur :: split_go f ci r prev [] s
                   end
              else rev cur :: split_go f ci r (ms_prev m) [] (ms_rest m)
          end
      end
  end.

Definition split (ci : bool) (r : regex) (s : jsstring) : list jsstring :=
  match s with
  | [] => match match_here ci r None [] with Some _ => [] | None => [[]] end
  | _ :: _ => split_go (2 * length s + 2) ci r None [] s
  end.

End Regex.

Import Regex.

(** ** Shared pieces of the extractors *)

Definition ws_run : regex := Rep 1 true ws.                  (* /\s+/g *)

(** [clean]: every copy in the sources has the same body,
    [(s || '''').replace(/\s+/g, '' '').trim()].  [None] is null or undefined. *)
Definition clean (s : option jsstring) : jsstring :=
  let s0 := match s with Some t => t | None => [] end in
  trim (replace_all false ws_run (str " ") s0).

(** The parsed record.  The fields hold the string literals the parsers
    assign. *)
Record ParsedRecord : Type := mkParsed {
  sku : jsstring;
  itemId : jsstring;
  estado_competencia : jsstring;
  estado_operativo : jsstring;
  titulo : jsstring
}.

(** [m[1]] read off an optional match: the empty string stands where the
    sources keep their initial value. *)
Definition cap1 (m : jsstring * list (nat * jsstring)) : jsstring :=
  match group 1 m with Some g => g | None => [] end.

(** [a || b] on optional match objects (a match object is truthy). *)
Definition or_match {A : Type} (a b : option A) : option A :=
  match a with Some _ => a | None => b end.

Definition dq : jschar := 34%N.
Definition sq : jschar := 39%N.

(** [/(?:\?|&)itemId=(MLU\d{6,})\b/i] *)
Definition item_re : regex :=
  seqs [Alt (Chr 63%N) (Chr 38%N); lit (str "itemId=");
        Grp 1 (Seq (lit (str "MLU")) (Rep 6 true digit)); WordB].

(** [/<div class=''sc-list-item-row sc-list-item-row--catalog[\s\S]*?<\/div>\s*<\/div>\s*<\/div>/g] *)
Definition row_re : regex :=
  seqs [lit (strq "<div class='sc-list-item-row sc-list-item-row--catalog");
        Rep 0 false anychar;
        lit (str "</div>"); Rep 0 true ws;
        lit (str "</div>"); Rep 0 true ws;
        lit (str "</div>")].

(** [new RegExp(`\\bSKU\\s*${sku}\\b`, ''i'')].  The SKU is spliced into the
    pattern source; for a SKU without pattern syntax characters (the SKUs of
    the program are digit strings) it is a run of literal characters.  The
    embedding stands for the code on such SKUs only ([plain_sku] below): on
    another SKU the code reads the SKU as pattern syntax, or throws a
    SyntaxError.  The theorems that speak of the code through [needle] and
    the functions that use it ([sliceRowForSku], both [parseHtmlForSku])
    take a SKU that [plain_sku] accepts. *)
Definition needle (sku : jsstring) : regex :=
  seqs [WordB; lit (str "SKU"); Rep 0 true ws; lit sku; WordB].

(** The characters with a meaning in pattern syntax. *)
Definition syntax_char (c : jschar) : bool :=
  existsb (N.eqb c) (str "\^$.*+?()[]{}|/").

(** A SKU that the template of [needle] reads as literal text: ASCII, no
    pattern syntax character. *)
Definition plain_sku (sku : jsstring) : bool :=
  forallb (fun c => (c <? 128)%N && negb (syntax_char c)) sku.

(** [sliceRowForSku]: identical in both plain-HTML parsers.  For a SKU that
    [plain_sku] accepts (see [needle]). *)
Definition sliceRowForSku (html sku : jsstring) : option jsstring :=
  let rows := match_all false row_re html in
  match find (fun r => test true (needle sku) r) rows with
  | Some row => if truthy row then Some row else None
  | None => None
  end.

(** [/\bSKU\s+(\d{1,})\b/i] *)
Definition sku_re : regex :=
  seqs [WordB; lit (str "SKU"); Rep 1 true ws; Grp 1 (Rep 1 true digit); WordB].

(** [/>\s*<word>\s*<\//] for a status word. *)
Definition badge_re (w : jsstring) : regex :=
  seqs [Chr 62%N; Rep 0 true ws; lit w; Rep 0 true ws; lit (str "</")].

(** [/>\s*Compartiendo\s+primer\s+lugar\s*<\//] *)
Definition compartiendo_re : regex :=
  seqs [Chr 62%N; Rep 0 true ws; lit (str "Compartiendo"); Rep 1 true ws;
        lit (str "primer"); Rep 1 true ws; lit (str "lugar");
        Rep 0 true ws; lit (str "</")].

(** [/sc-list-item-status-switch__label[^>]*>\s*<word>\s*</] *)
Definition label_re (w : jsstring) : regex :=
  seqs [lit (str "sc-list-item-status-switch__label"); Rep 0 true (notc 62%N);
        Chr 62%N; Rep 0 true ws; lit w; Rep 0 true ws; Chr 60%N].

(** ** The plain-HTML parser (src/unnamed/part_000) *)

Module ExtractHtml.

(** [/<a[^>]*class=''[^'']*\bsc-list-item-row-description__title\b[^'']*''[^>]*>([\s\S]*?)<\/a>/i] *)
Definition title_re1 : regex :=
  seqs [lit (str "<a"); Rep 0 true (notc 62%N); lit (strq "class='");
        Rep 0 true (notc dq); WordB;
        lit (str "sc-list-item-row-description__title"); WordB;
        Rep 0 true (notc dq); Chr dq; Rep 0 true (notc 62%N); Chr 62%N;
        Grp 1 (Rep 0 false anychar); lit (str "</a>")].

(** [/class=''sc-list-item-row-description__title''[^>]*>([\s\S]*?)<\/a>/i] *)
Definition title_re2 : regex :=
  seqs [lit (strq "class='sc-list-item-row-description__title'");
        Rep 0 true (notc 62%N); Chr 62%N;
        Grp 1 (Rep 0 false anychar); lit (str "</a>")].

(** [/<[^>]+>/g] *)
Definition tag_re : regex :=
  seqs [Chr 60%N; Rep 1 true (notc 62%N); Chr 62%N].

(** [/sc-list-item-row[^'']*--<modifier>/i] *)
Definition rowclass_re (modifier : jsstring) : regex :=
  seqs [lit (str "sc-list-item-row"); Rep 0 true (notc dq);
        lit (str "--"); lit modifier].

(** [/<label[^>]*class=''[^'']*sc-list-item-status-switch__switch[^'']*''[^>]*>[\s\S]*?<\/label>/i] *)
Definition switch_label_re : regex :=
  seqs [lit (str "<label"); Rep 0 true (notc 62%N); lit (strq "class='");
        Rep 0 true (notc dq);
        lit (str "sc-list-item-status-switch__switch");
        Rep 0 true (notc dq); Chr dq; Rep 0 true (notc 62%N); Chr 62%N;
        Rep 0 false anychar; lit (str "</label>")].

(** [/<div[^>]*class=''[^'']*sc-list-item-status-switch[^'']*''[^>]*>[\s\S]*?<\/div>/i] *)
Definition switch_div_re : regex :=
  seqs [lit (str "<div"); Rep 0 true (notc 62%N); lit (strq "class='");
        Rep 0 true (notc dq);
        lit (str "sc-list-item-status-switch");
        Rep 0 true (notc dq); Chr dq; Rep 0 true (notc 62%N); Chr 62%N;
        Rep 0 false anychar; lit (str "</div>")].

Definition quote : regex := Cls false [CChar dq; CChar sq].     (* ['''] *)

(** [/role=[''']switch['''][^>]*\bchecked\b/i] *)
Definition checked_re : regex :=
  seqs [lit (str "role="); quote; lit (str "switch"); quote;
        Rep 0 true (notc 62%N); WordB; lit (str "checked"); WordB].

(** [/role=[''']switch['''][^>]*aria-checked=[''']<value>[''']/i] *)
Definition aria_re (value : jsstring) : regex :=
  seqs [lit (str "role="); quote; lit (str "switch"); quote;
        Rep 0 true (notc 62%N); lit (str "aria-checked="); quote;
        lit value; quote].

(** The four-way chain on the competitive status. *)
Definition competencia_of (row : jsstring) : jsstring :=
  let hay ci pat := test ci pat row in
  if hay true (badge_re (str "Ganando")) then str "Ganando"
  else if hay true (badge_re (str "Perdiendo")) then str "Perdiendo"
  else if hay true compartiendo_re then str "Compartiendo primer lugar"
  else if hay false (badge_re (str "COMPITIENDO")) then str "Compartiendo primer lugar"
  else str "SIN_ESTADO".

(** The switch block and what it says ([''''] when there is none). *)
Definition switchBlock (row : jsstring) : jsstring :=
  let whole (m : option (jsstring * list (nat * jsstring))) : jsstring :=
    match m with Some x => fst x | None => [] end in
  or_str (whole (exec true switch_label_re row))
         (or_str (whole (exec true switch_div_re row)) []).

(** The chain on the operational status: label, row classes, switch. *)
Definition operativo_of (row : jsstring) : jsstring :=
  let hay ci pat := test ci pat row in
  if hay true (label_re (str "Activa")) then str "Activa"
  else if hay true (label_re (str "Pausada")) then str "Pausada"
  else if hay true (label_re (str "Inactiva")) then str "Inactiva"
  else
    if hay true (rowclass_re (str "active")) then str "Activa"
    else if hay true (rowclass_re (str "paused")) then str "Pausada"
    else if hay true (rowclass_re (str "inactive")) then str "Inactiva"
    else
      let sb := switchBlock row in
      if truthy sb then
        if test true checked_re sb then str "Activa"
        else if test true (aria_re (str "true")) sb then str "Activa"
        else if test true (aria_re (str "false")) sb then str "Pausada"
        else str "UNKNOWN"
      else str "UNKNOWN".

Definition titulo_of (row : jsstring) : jsstring :=
  match or_match (exec true title_re1 row) (exec true title_re2 row) with
  | Some m =>
      let inner := or_str (cap1 m) [] in
      let textOnly := replace_all false tag_re (str " ") inner in
      clean (Some textOnly)
  | None => []
  end.

Definition parseHtmlForSku (html fallbackSku : jsstring) : option ParsedRecord :=
  match sliceRowForSku html fallbackSku with
  | None => None
  | Some row =>
      let itemId := match exec true item_re row with
                    | Some m => cap1 m
                    | None => []
                    end in
      let estado_competencia := competencia_of row in
      let titulo := titulo_of row in
      let sku := match exec true sku_re row with
                 | Some m => cap1 m
                 | None => fallbackSku
                 end in
      let estado_operativo := operativo_of row in
      let hasData := truthy itemId || truthy titulo
                     || negb (jsstring_eqb sku fallbackSku) in
      if hasData
      then Some (mkParsed sku itemId estado_competencia estado_operativo titulo)
      else None
  end.

End ExtractHtml.

(** ** The earlier plain-HTML parser (src/unnamed/part_001, lines 296-386) *)

Module ExtractHtmlOld.

Record ParsedRecord : Type := mkParsed {
  sku : jsstring;
  itemId : jsstring;
  estado_competencia : jsstring;
  estado_operativo : jsstring;
  titulo : jsstring;
  url_item : jsstring
}.

(** [/(?:\?|&)itemId=(MLU\d{6,})/i] *)
Definition item_re0 : regex :=
  seqs [Alt (Chr 63%N) (Chr 38%N); lit (str "itemId=");
        Grp 1 (Seq (lit (str "MLU")) (Rep 6 true digit))].

(** [/''<key>''\s*:\s*''(MLU\d+)''/i] *)
Definition json_re (key : jsstring) : regex :=
  seqs [Chr dq; lit key; Chr dq; Rep 0 true ws; Chr 58%N; Rep 0 true ws;
        Chr dq; Grp 1 (Seq (lit (str "MLU")) (Rep 1 true digit)); Chr dq].

(** [/<a[^>]*class=''sc-list-item-row-description__title''[^>]*>([^<]+)<\/a>/i] *)
Definition title_re1 : regex :=
  seqs [lit (str "<a"); Rep 0 true (notc 62%N);
        lit (strq "class='sc-list-item-row-description__title'");
        Rep 0 true (notc 62%N); Chr 62%N;
        Grp 1 (Rep 1 true (notc 60%N)); lit (str "</a>")].

(** [/<a[^>]*class=''[^'']*sc-list-item-row-description__title[^'']*''[^>]*>([^<]+)<\/a>/i] *)
Definition title_re2 : regex :=
  seqs [lit (str "<a"); Rep 0 true (notc 62%N); lit (strq "class='");
        Rep 0 true (notc dq);
        lit (str "sc-list-item-row-description__title");
        Rep 0 true (notc dq); Chr dq; Rep 0 true (notc 62%N); Chr 62%N;
        Grp 1 (Rep 1 true (notc 60%N)); lit (str "</a>")].

(** [/<a[^>]*class=''sc-list-item-row-description__title''[^>]*href=''([^'']+)''/i] *)
Definition href_re1 : regex :=
  seqs [lit (str "<a"); Rep 0 true (notc 62%N);
        lit (strq "class='sc-list-item-row-description__title'");
        Rep 0 true (notc 62%N); lit (strq "href='");
        Grp 1 (Rep 1 true (notc dq)); Chr dq].

(** [/<a[^>]*class=''[^'']*sc-list-item-row-description__title[^'']*''[^>]*href=''([^'']+)''/i] *)
Definition href_re2 : regex :=
  seqs [lit (str "<a"); Rep 0 true (notc 62%N); lit (strq "class='");
        Rep 0 true (notc dq);
        lit (str "sc-list-item-row-description__title");
        Rep 0 true (notc dq); Chr dq; Rep 0 true (notc 62%N);
        lit (strq "href='"); Grp 1 (Rep 1 true (notc dq)); Chr dq].

Definition operativo_of (row : jsstring) : jsstring :=
  let hay ci pat := test ci pat row in
  if hay true (label_re (str "Activa")) then str "Activa"
  else if hay true (label_re (str "Inactiva")) then str "Inactiva"
  else if hay true (label_re (str "Pausada")) then str "Pausada"
  else str "UNKNOWN".

Definition competencia_of (row : jsstring) : jsstring :=
  let hay ci pat := test ci pat row in
  if hay true (badge_re (str "Ganando")) || hay false (badge_re (str "GANANDO"))
  then str "Ganando"
  else if hay true (badge_re (str "Perdiendo")) || hay false (badge_re (str "PERDIENDO"))
  then str "Perdiendo"
  else if hay true compartiendo_re || hay false (badge_re (str "COMPITIENDO"))
  then str "Compartiendo primer lugar"
  else str "SIN_ESTADO".

Definition parseHtmlForSku (html fallbackSku : jsstring) : ParsedRecord :=
  let row := match sliceRowForSku html fallbackSku with
             | Some r => r
             | None => html
             end in
  let mItem :=
    match exec true item_re0 row with
    | Some m => Some m
    | None => or_match (exec true (json_re (str "itemId")) html)
                       (exec true (json_re (str "item_id")) html)
    end in
  let itemId := match mItem with Some m => cap1 m | None => [] end in
  let mTitle := or_match (exec true title_re1 row) (exec true title_re2 row) in
  let titulo := match mTitle with Some m => clean (Some (cap1 m)) | None => [] end in
  let mHref := or_match (exec true href_re1 row) (exec true href_re2 row) in
  let url_item := match mHref with Some m => cap1 m | None => [] end in
  let estado_operativo := operativo_of row in
  let estado_competencia := competencia_of row in
  let sku := match exec true sku_re row with
             | Some m => cap1 m
             | None => fallbackSku
             end in
  mkParsed sku itemId estado_competencia estado_operativo titulo url_item.

End ExtractHtmlOld.

(** ** The item-identifier extractors of the DOM readers *)

(** src/src/extract.ts.  [None] in the list is a null or undefined href. *)
Module ExtractDom.

Fixpoint pickItemId (hrefs : list (option jsstring)) : jsstring :=
  match hrefs with
  | [] => []
  | href :: rest =>
      match href with
      | None => pickItemId rest
      | Some h =>
          if truthy h then
            match exec true item_re h with
            | Some m => cap1 m
            | None => pickItemId rest
            end
          else pickItemId rest
      end
  end.

(** [/compartiendo\s+primer\s+lugar/i] *)
Definition compartiendo_text_re : regex :=
  seqs [lit (str "compartiendo"); Rep 1 true ws; lit (str "primer");
        Rep 1 true ws; lit (str "lugar")].

Definition inferCompetencia (txt : jsstring) : jsstring :=
  if test true (lit (str "ganando")) txt then str "Ganando"
  else if test true (lit (str "perdiendo")) txt then str "Perdiendo"
  else if test true compartiendo_text_re txt || test true (lit (str "compitiendo")) txt
  then str "Compartiendo primer lugar"
  else str "SIN_ESTADO".

(** [ariaChecked] is [None] when null or undefined. *)
Definition inferOperativo (txt : jsstring) (ariaChecked : option jsstring) : jsstring :=
  if test true (lit (str "activa")) txt then str "Activa"
  else if test true (lit (str "pausada")) txt then str "Pausada"
  else if test true (lit (str "inactiva")) txt then str "Inactiva"
  else
    match ariaChecked with
    | Some v =>
        if jsstring_eqb v (str "true") then str "Activa"
        else if jsstring_eqb v (str "false") then str "Pausada"
        else str "UNKNOWN"
    | None => str "UNKNOWN"
    end.

End ExtractDom.

(** src/unnamed/part_001, lines 1-125.  The pattern literal of this copy
    doubles every backslash: [\\?] is an optional backslash, [\\d{6,}] a
    backslash and six or more letters d, [\\b] a backslash and a letter b. *)
Module ExtractDomRoles.

Definition backslash : jschar := 92%N.

(** [/(?:\\?|&)itemId=(MLU\\d{6,})\\b/i] *)
Definition item_re_escaped : regex :=
  seqs [Alt (Opt (Chr backslash)) (Chr 38%N); lit (str "itemId=");
        Grp 1 (seqs [lit (str "MLU"); Chr backslash; Rep 6 true (Chr 100%N)]);
        Chr backslash; Chr 98%N].

Definition pickItemIdFromHref (href : option jsstring) : jsstring :=
  match href with
  | None => []
  | Some h =>
      if truthy h then
        match exec true item_re_escaped h with
        | Some m => cap1 m
        | None => []
        end
      else []
  end.

End ExtractDomRoles.

(** src/unnamed/part_001, lines 127-294. *)
Module ExtractDomCard.

Definition pickItemIdFromHref (href : option jsstring) : jsstring :=
  match href with
  | None => []
  | Some h =>
      if truthy h then
        match exec true item_re h with
        | Some m => cap1 m
        | None => []
        end
      else []
  end.

End ExtractDomCard.

(** ** Library functions of the platform *)

Fixpoint map_opt {A B : Type} (f : A -> option B) (l : list A) : option (list B) :=
  match l with
  | [] => Some []
  | x :: l' =>
      match f x with
      | None => None
      | Some y => option_map (cons y) (map_opt f l')
      end
  end.

Section Uri.
Local Open Scope N_scope.

Definition uri_unreserved (c : jschar) : bool :=
  is_letter c || is_digit c || existsb (N.eqb c) (str "-_.!~*'()").

Definition hex_digit (n : N) : jschar := if n <? 10 then 48 + n else 55 + n.

Definition pct (b : N) : jsstring := [37; hex_digit (b / 16); hex_digit (b mod 16)].

Definition utf8 (cp : N) : list N :=
  if cp <? 128 then [cp]
  else if cp <? 2048 then [192 + cp / 64; 128 + cp mod 64]
  else if cp <? 65536 then
    [224 + cp / 4096; 128 + (cp / 64) mod 64; 128 + cp mod 64]
  else
    [240 + cp / 262144; 128 + (cp / 4096) mod 64;
     128 + (cp / 64) mod 64; 128 + cp mod 64].

Definition high_surrogate (c : jschar) : bool := (55296 <=? c) && (c <=? 56319).
Definition low_surrogate (c : jschar) : bool := (56320 <=? c) && (c <=? 57343).

(** [encodeURIComponent]; [None] is the URIError thrown on a lone
    surrogate. *)
Fixpoint encodeURIComponent (s : jsstring) : option jsstring :=
  match s with
  | [] => Some []
  | c :: s' =>
      if uri_unreserved c then option_map (cons c) (encodeURIComponent s')
      else if low_surrogate c then None
      else if high_surrogate c then
        match s' with
        | d :: s'' =>
            if low_surrogate d then
              let cp := (c - 55296) * 1024 + (d - 56320) + 65536 in
              option_map (app (flat_map pct (utf8 cp))) (encodeURIComponent s'')
            else None
        | [] => None
        end
      else option_map (app (flat_map pct (utf8 c))) (encodeURIComponent s')
  end.
End Uri.

(** [Array.prototype.sort] with a comparator.  The sort is stable, and for
    a consistent comparator its result is determined: the stable sorted
    arrangement, which insertion from the right computes. *)
Section Sorting.
Variable A : Type.
Variable cmp : A -> A -> Z.

Fixpoint insert_by (x : A) (l : list A) : list A :=
  match l with
  | [] => [x]
  | y :: l' => if (cmp x y <=? 0)%Z then x :: l else y :: insert_by x l'
  end.

Definition sort_by (l : list A) : list A := fold_right insert_by [] l.
End Sorting.

(** Arrays are objects: a store of arrays by address, and a state monad over
    it for the code that copies and sorts them. *)
Section Arrays.
Variable A : Type.

Definition store : Type := list (list A).
Definition addr : Type := nat.
Definition St (B : Type) : Type := store -> B * store.

Definition ret {B : Type} (b : B) : St B := fun h => (b, h).
Definition bind {B C : Type} (m : St B) (f : B -> St C) : St C :=
  fun h => let (b, h') := m h in f b h'.

Definition read_array (a : addr) : St (list A) := fun h => (nth a h [], h).

Definition new_array (l : list A) : St addr := fun h => (length h, h ++ [l]).

Fixpoint set_nth (a : addr) (l : list A) (h : store) : store :=
  match h, a with
  | [], _ => []
  | _ :: h', O => l :: h'
  | x :: h', S a' => x :: set_nth a' l h'
  end.

Definition write_array (a : addr) (l : list A) : St unit :=
  fun h => (tt, set_nth a l h).

(** [[...rows]]: a fresh array with the same elements. *)
Definition spread (a : addr) : St addr := bind (read_array a) new_array.

(** [arr.sort(cmp)]: sorts the array in place and returns it. *)
Definition sort_in_place (cmp : A -> A -> Z) (a : addr) : St addr :=
  bind (read_array a) (fun l =>
  bind (write_array a (sort_by cmp l)) (fun _ => ret a)).
End Arrays.

Arguments ret {A B} b.
Arguments bind {A B C} m f.
Arguments read_array {A} a.
Arguments spread {A} a.
Arguments sort_in_place {A} cmp a.

Notation "x <- m ;; k" := (bind m (fun x => k))
  (at level 61, m at next level, right associativity).

(** [(s).replace(/</g,''&lt;'').replace(/>/g,''&gt;'')] of the table cells. *)
Definition escape_angle (s : jsstring) : jsstring :=
  replace_all false (Chr 62%N) (str "&gt;")
    (replace_all false (Chr 60%N) (str "&lt;") s).

(** [String(n)] for a natural number: its decimal digits. *)
Fixpoint digits_go (fuel n : nat) (acc : jsstring) : jsstring :=
  match fuel with
  | O => acc
  | S f =>
      let acc' := N.of_nat (48 + n mod 10) :: acc in
      if n <? 10 then acc' else digits_go f (n / 10) acc'
  end.

Definition number_text (n : nat) : jsstring := digits_go (S n) n [].

(** ** The text helpers of the DOM readers

    The text helpers of both DOM readers of src/unnamed/part_001 (lines
    15-31 and 39-46, again at lines 141-157 and 165-172): the two copies are
    the same text. *)
Module DomText.

Section LowerCase.
(** [String.prototype.toLowerCase] belongs to the platform (the Unicode
    case tables). *)
Variable toLowerCase : jsstring -> jsstring.

Definition inferCompetencia (txt : jsstring) : jsstring :=
  let lc := toLowerCase txt in
  if includes lc (str "ganando") then str "Ganando"
  else if includes lc (str "perdiendo") then str "Perdiendo"
  else if includes lc (str "compartiendo primer lugar") || includes lc (str "compitiendo")
  then str "Compartiendo primer lugar"
  else str "SIN_ESTADO".

Definition inferOperativo (txt : jsstring) (ariaChecked : option jsstring) : jsstring :=
  let lc := toLowerCase txt in
  if includes lc (str "activa") then str "Activa"
  else if includes lc (str "pausada") then str "Pausada"
  else if includes lc (str "inactiva") then str "Inactiva"
  else
    match ariaChecked with
    | Some v =>
        if jsstring_eqb v (str "true") then str "Activa"
        else if jsstring_eqb v (str "false") then str "Pausada"
        else str "UNKNOWN"
    | None => str "UNKNOWN"
    end.
End LowerCase.

(** [/^(modificar|ir a promociones)/i] *)
Definition action_re : regex :=
  Seq Bol (Grp 1 (Alt (lit (str "modificar")) (lit (str "ir a promociones")))).

(** [(a, b) => b.length - a.length] *)
Definition longer_first (a b : jsstring) : Z :=
  (Z.of_nat (length b) - Z.of_nat (length a))%Z.

Definition pickTitle (candidates : list jsstring) : jsstring :=
  let filtered :=
    filter (fun t => negb (test true action_re t))
           (filter truthy (map (fun c => clean (Some c)) candidates)) in
  let sorted := sort_by longer_first filtered in
  or_str (hd [] sorted) [].

End DomText.

(** The title taken from the text of the card: step 2 of the title search
    of [extractFromPage] (src/unnamed/part_001, lines 200-235), run when the
    card has no heading text.  [text] is the cleaned inner text of the
    card. *)
Module CardTitle.

Definition blacklist : list jsstring :=
  [str "experiencia de compra"; str "modificar"; str "promociones"; str "ver";
   str "ganando"; str "perdiendo"; str "compartiendo primer lugar";
   str "compitiendo"; str "activa"; str "pausada"; str "inactiva";
   str "unidades vendidas"; str "flex"; str "unidades"; str "cuotas";
   str "env" ++ [237%N] ++ str "o"].

Definition line_re : regex := Seq (Opt (Chr 13%N)) (Chr 10%N).       (* /
?
/ *)

Section LowerCase.
Variable toLowerCase : jsstring -> jsstring.

(** [blacklist.some((b) => ln.toLowerCase().includes(b))] *)
Definition blacklisted (ln : jsstring) : bool :=
  existsb (fun b => includes (toLowerCase ln) b) blacklist.

Definition titleFromLines (text : jsstring) : jsstring :=
  let lines :=
    filter (fun ln => 5 <? length ln)
      (filter (fun ln => negb (blacklisted ln))
         (filter truthy
            (map (fun l => clean (Some l)) (split false line_re text)))) in
  let sorted := sort_by DomText.longer_first lines in
  or_str (hd [] sorted) [].
End LowerCase.

End CardTitle.

(** ** The main script (src/unnamed/part_001, lines 388-866) *)

Module Main.

Definition BASE : jsstring := str "https://www.mercadolibre.com.uy".

(** [itemUrl]: the editor address of an item, empty without an id. *)
Definition itemUrl (itemId : jsstring) : option jsstring :=
  if truthy itemId
  then option_map (fun e => BASE ++ str "/syi/core/modify?itemId=" ++ e)
                  (encodeURIComponent itemId)
  else Some [].

(** *** readSkusCsv *)

Definition newline_re : regex := Seq (Opt (Chr 13%N)) (Chr 10%N).   (* /\r?\n/ *)
Definition header_re : regex :=
  Seq Bol (Cls false [CRange 65%N 90%N; CRange 97%N 122%N]).          (* /^[A-Za-z]/ *)
Definition field_sep_re : regex := Alt (Chr 44%N) (Chr 9%N).          (* /,|\t/ *)
Definition nondigit_re : regex := Cls true [CDigit].                  (* /[^\d]/g *)
Definition digits_re : regex := seqs [Bol; Rep 1 true digit; Eol].    (* /^\d+$/ *)

(** The trimmed, non-empty lines of the file. *)
Definition file_lines (raw : jsstring) : list jsstring :=
  filter truthy (map trim (split false newline_re raw)).

(** [lines.slice(startIdx)] for a start index of 0 or 1. *)
Definition slice_from (startIdx : nat) (lines : list jsstring) : list jsstring :=
  skipn startIdx lines.

(** The first field of a line: [(line.split(/,|\t/)[0] || '''').trim()]. *)
Definition first_field (line : jsstring) : jsstring :=
  trim (or_str (hd [] (split false field_sep_re line)) []).

Definition only_digits (t : jsstring) : jsstring :=
  replace_all false nondigit_re [] t.

(** [file] is the content of skus.csv, [None] when the file does not
    exist. *)
Definition readSkusCsv (file : option jsstring) : list jsstring :=
  match file with
  | None => []
  | Some raw =>
      let lines := file_lines raw in
      let startIdx := if test false header_re (or_str (hd [] lines) [])
                      then 1 else 0 in
      filter (fun t => test false digits_re t)
             (map only_digits (map first_field (slice_from startIdx lines)))
  end.

(** *** recordsToCsv *)

Record RowWithTs : Type := mkRow {
  rec : ParsedRecord;
  timestamp : jsstring
}.

Definition csvHeader : jsstring :=
  str "SKU,ITEM_ID,ESTADO_COMPETENCIA,ESTADO_OPERATIVO,TITULO,URL,TIMESTAMP" ++ [10%N].

(** [esc]: the text between double quotes, every double quote doubled. *)
Definition esc (s : jsstring) : jsstring :=
  [dq] ++ replace_all false (Chr dq) [dq; dq] (or_str s []) ++ [dq].

Definition csvLine (r : RowWithTs) : option jsstring :=
  match itemUrl (itemId (rec r)) with
  | None => None
  | Some url =>
      Some (join (str ",")
              [sku (rec r); itemId (rec r); estado_competencia (rec r);
               estado_operativo (rec r); esc (or_str (titulo (rec r)) []);
               url; timestamp r])
  end.

(** [None] when [encodeURIComponent] throws on an item id. *)
Definition recordsToCsv (rows : list RowWithTs) : option jsstring :=
  match map_opt csvLine rows with
  | None => None
  | Some lines => Some (csvHeader ++ join [10%N] lines ++ [10%N])
  end.

(** *** summarize *)

(** [Map<string, number>]: the entries in insertion order. *)
Definition CountMap : Type := list (jsstring * nat).

Fixpoint map_get (m : CountMap) (k : jsstring) : option nat :=
  match m with
  | [] => None
  | (k', v) :: m' => if jsstring_eqb k' k then Some v else map_get m' k
  end.

Fixpoint map_set (m : CountMap) (k : jsstring) (v : nat) : CountMap :=
  match m with
  | [] => [(k, v)]
  | (k', v') :: m' =>
      if jsstring_eqb k' k then (k', v) :: m' else (k', v') :: map_set m' k v
  end.

(** [x || 0] on the result of a lookup. *)
Definition or_zero (o : option nat) : nat :=
  match o with Some n => n | None => 0 end.

Record Summary : Type := mkSummary {
  byComp : CountMap;
  byOp : CountMap;
  total : nat
}.

Definition count_row (acc : CountMap * CountMap) (r : RowWithTs) : CountMap * CountMap :=
  let (byComp, byOp) := acc in
  let byComp := map_set byComp (estado_competencia (rec r))
                        (or_zero (map_get byComp (estado_competencia (rec r))) + 1) in
  let byOp := map_set byOp (estado_operativo (rec r))
                      (or_zero (map_get byOp (estado_operativo (rec r))) + 1) in
  (byComp, byOp).

Definition summarize (rows : list RowWithTs) : Summary :=
  let (byComp, byOp) := fold_left count_row rows ([], []) in
  mkSummary byComp byOp (length rows).

(** *** tableFor *)

Section Table.
(** [localeCompare(_, ''es'')] and the date formatter [localFmt] belong to
    the platform's internationalisation library.  [localFmt] throws a
    RangeError on a time stamp that is no date: [None]. *)
Variable localeCompare : jsstring -> jsstring -> Z.
Variable localFmt : jsstring -> option jsstring.

Definition opRank (s : jsstring) : Z :=
  if jsstring_eqb s (str "Activa") then 0
  else if jsstring_eqb s (str "Pausada") then 1
  else if jsstring_eqb s (str "Inactiva") then 2
  else 3.

Definition rowCmp (a b : RowWithTs) : Z :=
  let d := (opRank (estado_operativo (rec a)) - opRank (estado_operativo (rec b)))%Z in
  if negb (d =? 0)%Z then d
  else localeCompare (or_str (titulo (rec a)) []) (or_str (titulo (rec b)) []).

(** One row of the table; [None] when [encodeURIComponent] or [localFmt]
    throws. *)
Definition rowHtml (r : RowWithTs) : option jsstring :=
  match (if truthy (itemId (rec r))
         then option_map
                (fun u => strq "<a href='" ++ u ++
                          strq "' target='_blank' rel='noopener'>Abrir</a>")
                (itemUrl (itemId (rec r)))
         else Some []) with
  | None => None
  | Some link =>
      match localFmt (timestamp r) with
      | None => None
      | Some hora =>
          Some (str "
    <tr>
      <td>" ++ sku (rec r) ++ str "</td>
      <td>" ++ or_str (itemId (rec r)) (str "-") ++ str "</td>
      <td>" ++ estado_operativo (rec r) ++ str "</td>
      <td>" ++ escape_angle (or_str (titulo (rec r)) []) ++ str "</td>
      <td>" ++ link ++ str "</td>
      <td>" ++ hora ++ str "</td>
    </tr>
  ")
      end
  end.

Definition table_open : jsstring :=
  strq "
    <table role='grid' style='width:100%;border-collapse:collapse;font-size:13px'>
      <thead>
        <tr style='background:#f6f6f6'>
          <th style='text-align:left;padding:8px;border:1px solid #eee'>SKU</th>
          <th style='text-align:left;padding:8px;border:1px solid #eee'>Item ID</th>
          <th style='text-align:left;padding:8px;border:1px solid #eee'>Operativo</th>
          <th style='text-align:left;padding:8px;border:1px solid #eee'>T" ++ [237%N] ++ strq "tulo</th>
          <th style='text-align:left;padding:8px;border:1px solid #eee'>URL</th>
          <th style='text-align:left;padding:8px;border:1px solid #eee'>Hora</th>
        </tr>
      </thead>
      <tbody>".

Definition table_close : jsstring :=
  str "</tbody>
    </table>
  ".

(** [rows] is the address of the array passed in. *)
Definition tableFor (rows : addr) : St RowWithTs (option jsstring) :=
  copy <- spread rows ;;
  ordered <- sort_in_place rowCmp copy ;;
  l <- read_array ordered ;;
  ret (option_map (fun cells => table_open ++ join [] cells ++ table_close)
                  (map_opt rowHtml l)).
End Table.

(** *** htmlReport *)

Definition STATUS_ORDER : list jsstring :=
  [str "Ganando"; str "Compartiendo primer lugar"; str "Perdiendo"; str "SIN_ESTADO"].

(** The operational statuses listed in [htmlReport]. *)
Definition OP_NAMES : list jsstring :=
  [str "Activa"; str "Pausada"; str "Inactiva"; str "UNKNOWN"].

Definition style : jsstring :=
  str "
  <style>
    body { font-family: system-ui, -apple-system, Segoe UI, Roboto, Ubuntu, Helvetica, Arial; color:#222; line-height:1.35; }
    h1 { font-size:18px; margin:0 0 6px }
    h3 { font-size:15px; margin:22px 0 8px }
    .meta { color:#666; font-size:12px; margin:0 0 14px }
    .badges { display:flex; gap:8px; flex-wrap:wrap; margin:0 0 14px }
    .badge { border:1px solid #e5e5e5; background:#fafafa; border-radius:10px; padding:8px 10px; font-size:12px }
    table { margin-bottom:8px }
  </style>".

(** [`${s}: ${(m.get(s) || 0)}`] *)
Definition count_label (m : CountMap) (s : jsstring) : jsstring :=
  s ++ str ": " ++ number_text (or_zero (map_get m s)).

(** The separator of the counts: a middle dot between two spaces. *)
Definition dot_sep : jsstring := [32%N; 183%N; 32%N].

Definition no_results : jsstring := str "<p>No hubo resultados.</p>".

Section HtmlReport.
Variable localeCompare : jsstring -> jsstring -> Z.
Variable localFmt : jsstring -> option jsstring.
(** The date of the clock, formatted by the platform's
    internationalisation library. *)
Variable when : jsstring.

Definition section_html (st : jsstring) (n : nat) (table : jsstring) : jsstring :=
  str "<h3>" ++ st ++ str " (" ++ number_text n ++ str ")</h3>" ++ table.

(** One section: the rows of the status, filtered into a fresh array that
    [tableFor] reads. *)
Definition section_for (rows : list RowWithTs) (st : jsstring)
  : St RowWithTs (option jsstring) :=
  let rws := filter (fun r => jsstring_eqb (estado_competencia (rec r)) st) rows in
  a <- new_array rws ;;
  t <- tableFor localeCompare localFmt a ;;
  ret (option_map (section_html st (length rws)) t).

(** The sections of the statuses [sts], in order; an exception leaves the
    loop. *)
Fixpoint sections_for (rows : list RowWithTs) (sts : list jsstring)
  : St RowWithTs (option (list jsstring)) :=
  match sts with
  | [] => ret (Some [])
  | st :: sts' =>
      s <- section_for rows st ;;
      match s with
      | None => ret None
      | Some x =>
          rest <- sections_for rows sts' ;;
          ret (option_map (cons x) rest)
      end
  end.

Definition page (s : Summary) (compStr opStr body : jsstring) : jsstring :=
  strq "<!doctype html><html><head><meta charset='utf-8' />" ++ style ++ strq "</head><body>
    <h1>Reporte Monitor ML</h1>
    <div class='meta'>Generado: " ++ when ++ str " (America/Montevideo) " ++ [183%N] ++ str " Total SKUs: <b>" ++ number_text (total s) ++ strq "</b></div>
    <div class='badges'>
      <div class='badge'><b>Competencia</b> " ++ [8212%N] ++ str " " ++ compStr ++ strq "</div>
      <div class='badge'><b>Operativo</b> " ++ [8212%N] ++ str " " ++ opStr ++ str "</div>
    </div>
    " ++ body ++ strq "
    <hr style='margin:18px 0;border:none;border-top:1px solid #eee' />
    <div style='font-size:12px;color:#777'>Mensaje generado autom" ++ [225%N] ++ str "ticamente.</div>
  </body></html>".

Definition htmlReport (rows : list RowWithTs) : St RowWithTs (option jsstring) :=
  let s := summarize rows in
  let compStr := join dot_sep (map (count_label (byComp s)) STATUS_ORDER) in
  let opStr := join dot_sep (map (count_label (byOp s)) OP_NAMES) in
  secs <- sections_for rows
            (filter (fun st =>
                       existsb (fun r => jsstring_eqb (estado_competencia (rec r)) st) rows)
                    STATUS_ORDER) ;;
  ret (option_map (fun l => page s compStr opStr (or_str (join [] l) no_results)) secs).
End HtmlReport.

End Main.

(** ** The report module (src/src/report.ts) *)

Module Report.

Inductive Competencia : Type :=
| Ganando | Perdiendo | Compartiendo_primer_lugar | SIN_ESTADO.

Inductive Operativo : Type :=
| Activa | Pausada | Inactiva | UNKNOWN.

Definition Competencia_eqb (a b : Competencia) : bool :=
  match a, b with
  | Ganando, Ganando | Perdiendo, Perdiendo
  | Compartiendo_primer_lugar, Compartiendo_primer_lugar
  | SIN_ESTADO, SIN_ESTADO => true
  | _, _ => false
  end.

Definition Operativo_eqb (a b : Operativo) : bool :=
  match a, b with
  | Activa, Activa | Pausada, Pausada | Inactiva, Inactiva
  | UNKNOWN, UNKNOWN => true
  | _, _ => false
  end.

Definition Operativo_text (s : Operativo) : jsstring :=
  match s with
  | Activa => str "Activa"
  | Pausada => str "Pausada"
  | Inactiva => str "Inactiva"
  | UNKNOWN => str "UNKNOWN"
  end.

Record Row : Type := mkRow {
  sku : jsstring;
  itemId : jsstring;
  estado_competencia : Competencia;
  estado_operativo : Operativo;
  titulo : jsstring
}.

(** [Groups]: one array of rows under each competitive status. *)
Record Groups : Type := mkGroups {
  g_Ganando : list Row;
  g_Compartiendo : list Row;
  g_Perdiendo : list Row;
  g_SIN_ESTADO : list Row
}.

Definition STATUS_ORDER : list Competencia :=
  [Ganando; Compartiendo_primer_lugar; Perdiendo; SIN_ESTADO].

(** [groups[st]] *)
Definition group_of (g : Groups) (st : Competencia) : list Row :=
  match st with
  | Ganando => g_Ganando g
  | Compartiendo_primer_lugar => g_Compartiendo g
  | Perdiendo => g_Perdiendo g
  | SIN_ESTADO => g_SIN_ESTADO g
  end.

(** [groups[st].push(r)] *)
Definition push (g : Groups) (st : Competencia) (r : Row) : Groups :=
  match st with
  | Ganando =>
      mkGroups (g_Ganando g ++ [r]) (g_Compartiendo g) (g_Perdiendo g) (g_SIN_ESTADO g)
  | Compartiendo_primer_lugar =>
      mkGroups (g_Ganando g) (g_Compartiendo g ++ [r]) (g_Perdiendo g) (g_SIN_ESTADO g)
  | Perdiendo =>
      mkGroups (g_Ganando g) (g_Compartiendo g) (g_Perdiendo g ++ [r]) (g_SIN_ESTADO g)
  | SIN_ESTADO =>
      mkGroups (g_Ganando g) (g_Compartiendo g) (g_Perdiendo g) (g_SIN_ESTADO g ++ [r])
  end.

(** The counters object [{ Activa, Pausada, Inactiva, UNKNOWN }]. *)
Record OpCounts : Type := mkOpCounts {
  c_Activa : nat;
  c_Pausada : nat;
  c_Inactiva : nat;
  c_UNKNOWN : nat
}.

Definition op_count (c : OpCounts) (s : Operativo) : nat :=
  match s with
  | Activa => c_Activa c
  | Pausada => c_Pausada c
  | Inactiva => c_Inactiva c
  | UNKNOWN => c_UNKNOWN c
  end.

(** [acc[s] = (acc[s] ?? 0) + 1] *)
Definition bump (acc : OpCounts) (s : Operativo) : OpCounts :=
  match s with
  | Activa => mkOpCounts (c_Activa acc + 1) (c_Pausada acc) (c_Inactiva acc) (c_UNKNOWN acc)
  | Pausada => mkOpCounts (c_Activa acc) (c_Pausada acc + 1) (c_Inactiva acc) (c_UNKNOWN acc)
  | Inactiva => mkOpCounts (c_Activa acc) (c_Pausada acc) (c_Inactiva acc + 1) (c_UNKNOWN acc)
  | UNKNOWN => mkOpCounts (c_Activa acc) (c_Pausada acc) (c_Inactiva acc) (c_UNKNOWN acc + 1)
  end.

Record Summary : Type := mkSummary {
  total : nat;
  groups : Groups;
  compCounts : list (Competencia * nat);     (* Object.fromEntries(...) *)
  opCounts : OpCounts
}.

(** [compCounts[st]] *)
Fixpoint comp_count (cc : list (Competencia * nat)) (st : Competencia) : option nat :=
  match cc with
  | [] => None
  | (k, n) :: cc' => if Competencia_eqb k st then Some n else comp_count cc' st
  end.

Definition summarize (rows : list Row) : Summary :=
  let total := length rows in
  let groups :=
    fold_left (fun g r => push g (estado_competencia r) r) rows
              (mkGroups [] [] [] []) in
  let compCounts :=
    map (fun st => (st, length (group_of groups st))) STATUS_ORDER in
  let opCounts :=
    fold_left (fun acc r => bump acc (estado_operativo r)) rows
              (mkOpCounts 0 0 0 0) in
  mkSummary total groups compCounts opCounts.

(** *** tableFor *)

Definition itemUrl (itemId : jsstring) : option jsstring :=
  if truthy itemId
  then option_map
         (fun e => str "https://www.mercadolibre.com.uy/syi/core/modify?itemId=" ++ e)
         (encodeURIComponent itemId)
  else Some (str "#").

Section Table.
Variable localeCompare : jsstring -> jsstring -> Z.

Definition opRank (s : Operativo) : Z :=
  match s with
  | Activa => 0
  | Pausada => 1
  | Inactiva => 2
  | UNKNOWN => 3
  end.

Definition rowCmp (a b : Row) : Z :=
  let d := (opRank (estado_operativo a) - opRank (estado_operativo b))%Z in
  if negb (d =? 0)%Z then d
  else localeCompare (or_str (titulo a) []) (or_str (titulo b) []).

Definition rowHtml (r : Row) : option jsstring :=
  match itemUrl (itemId r) with
  | None => None
  | Some url =>
      Some (str "
      <tr>
        <td>" ++ sku r ++ str "</td>
        <td>" ++ or_str (itemId r) (str "-") ++ str "</td>
        <td>" ++ Operativo_text (estado_operativo r) ++ str "</td>
        <td>" ++ escape_angle (or_str (titulo r) []) ++ strq "</td>
        <td><a href='" ++ url ++ strq "' target='_blank' rel='noopener'>Abrir</a></td>
      </tr>")
  end.

Definition table_open : jsstring :=
  strq "
    <table role='grid' style='width:100%;border-collapse:collapse;font-size:14px'>
      <thead>
        <tr style='background:#f5f5f5'>
          <th style='text-align:left;padding:8px;border:1px solid #e5e5e5;'>SKU</th>
          <th style='text-align:left;padding:8px;border:1px solid #e5e5e5;'>Item ID</th>
          <th style='text-align:left;padding:8px;border:1px solid #e5e5e5;'>Operativo</th>
          <th style='text-align:left;padding:8px;border:1px solid #e5e5e5;'>T" ++ [237%N] ++ strq "tulo</th>
          <th style='text-align:left;padding:8px;border:1px solid #e5e5e5;'>URL</th>
        </tr>
      </thead>
      <tbody>".

Definition table_close : jsstring :=
  str "</tbody>
    </table>".

Definition tableFor (rows : addr) : St Row (option jsstring) :=
  copy <- spread rows ;;
  ordered <- sort_in_place rowCmp copy ;;
  l <- read_array ordered ;;
  ret (option_map (fun cells => table_open ++ join [] cells ++ table_close)
                  (map_opt rowHtml l)).
End Table.

(** *** buildHtmlReport *)

Definition Competencia_text (st : Competencia) : jsstring :=
  match st with
  | Ganando => str "Ganando"
  | Perdiendo => str "Perdiendo"
  | Compartiendo_primer_lugar => str "Compartiendo primer lugar"
  | SIN_ESTADO => str "SIN_ESTADO"
  end.

(** A count read off [compCounts]; a missing key would print as
    undefined. *)
Definition count_text (o : option nat) : jsstring :=
  match o with Some n => number_text n | None => str "undefined" end.

Section Build.
Variable localeCompare : jsstring -> jsstring -> Z.
(** [formatLocal(new Date())], from the clock and the platform's
    internationalisation library. *)
Variable tsLocal : jsstring.

(** The text of one section: the heading with the status and the number of
    its rows, then the table. *)
Definition section_html (st : Competencia) (n : nat) (table : jsstring) : jsstring :=
  strq "
      <h3 style='margin:24px 0 8px'>" ++ Competencia_text st ++ str " (" ++ number_text n ++ str ")</h3>
      " ++ table ++ str "
    ".

(** One section.  [g] is the array [groups[st]] of the summary, at its
    place in the store when [tableFor] reads it. *)
Definition section_for (st : Competencia) (g : list Row) : St Row (option jsstring) :=
  a <- new_array g ;;
  t <- tableFor localeCompare a ;;
  ret (option_map (section_html st (length g)) t).

(** The sections of the statuses [sts], in order; an exception leaves the
    loop. *)
Fixpoint sections_for (sts : list Competencia) (groups : Groups)
  : St Row (option (list jsstring)) :=
  match sts with
  | [] => ret (Some [])
  | st :: sts' =>
      s <- section_for st (group_of groups st) ;;
      match s with
      | None => ret None
      | Some x =>
          rest <- sections_for sts' groups ;;
          ret (option_map (cons x) rest)
      end
  end.

Definition no_results : jsstring := str "<p>No hubo resultados.</p>".

Definition page (s : Summary) (body : jsstring) : jsstring :=
  strq "
  <div style='font-family:system-ui,-apple-system,Segoe UI,Roboto,Ubuntu,Helvetica,Arial,sans-serif;line-height:1.35;color:#111'>
    <h2 style='margin:0 0 4px'>Reporte Monitor ML</h2>
    <div style='margin:0 0 24px;color:#555'>Generado: " ++ tsLocal ++ strq " (America/Montevideo)</div>

    <div style='margin:0 0 16px'>
      <strong>Total SKUs:</strong> " ++ number_text (total s) ++ strq "
    </div>

    <div style='display:flex;gap:24px;flex-wrap:wrap;margin:0 0 16px'>
      <div><strong>Competencia</strong> " ++ [8212%N; 32%N] ++ str "
        Ganando: " ++ count_text (comp_count (compCounts s) Ganando) ++ str " " ++ [183%N; 32%N] ++ str "
        Compartiendo: " ++ count_text (comp_count (compCounts s) Compartiendo_primer_lugar) ++ str " " ++ [183%N; 32%N] ++ str "
        Perdiendo: " ++ count_text (comp_count (compCounts s) Perdiendo) ++ str " " ++ [183%N; 32%N] ++ str "
        SIN_ESTADO: " ++ count_text (comp_count (compCounts s) SIN_ESTADO) ++ str "
      </div>
      <div><strong>Operativo</strong> " ++ [8212%N; 32%N] ++ str "
        Activa: " ++ number_text (op_count (opCounts s) Activa) ++ str " " ++ [183%N; 32%N] ++ str "
        Pausada: " ++ number_text (op_count (opCounts s) Pausada) ++ str " " ++ [183%N; 32%N] ++ str "
        Inactiva: " ++ number_text (op_count (opCounts s) Inactiva) ++ str " " ++ [183%N; 32%N] ++ str "
        UNKNOWN: " ++ number_text (op_count (opCounts s) UNKNOWN) ++ str "
      </div>
    </div>

    " ++ body ++ strq "

    <hr style='margin:24px 0;border:none;border-top:1px solid #eee' />
    <div style='font-size:12px;color:#777'>Este mensaje fue generado autom" ++ [225%N] ++ str "ticamente.</div>
  </div>".

Definition buildHtmlReport (rows : list Row) : St Row (option jsstring) :=
  let s := summarize rows in
  secs <- sections_for
            (filter (fun st => 0 <? length (group_of (groups s) st)) STATUS_ORDER)
            (groups s) ;;
  ret (option_map (fun l => page s (or_str (join [] l) no_results)) secs).
End Build.

(** The recipient lists of [sendEmailReport]:
    [(v || '''').split('','').map(s => s.trim()).filter(Boolean)] for the
    variables MAIL_TO and MAIL_CC; [None] is an unset variable. *)
Definition address_list (v : option jsstring) : list jsstring :=
  let text := match v with Some t => or_str t [] | None => [] end in
  filter truthy (map trim (split_on 44%N [] text)).

End Report.

(** * Definitions for the statements *)

(** ** Groups and counts *)

(** The rows of one competitive status, in input order. *)
Definition rows_with_competencia (st : Report.Competencia) (rows : list Report.Row)
  : list Report.Row :=
  filter (fun r => Report.Competencia_eqb (Report.estado_competencia r) st) rows.

(** The rows of one operational status. *)
Definition rows_with_operativo (op : Report.Operativo) (rows : list Report.Row)
  : list Report.Row :=
  filter (fun r => Report.Operativo_eqb (Report.estado_operativo r) op) rows.

(** The place of [x] in the list [order]: the number of entries before its
    first occurrence, and the length of the list when [x] is not in it. *)
Fixpoint place_in {A : Type} (eqb : A -> A -> bool) (order : list A) (x : A) : nat :=
  match order with
  | [] => 0
  | y :: order' => if eqb x y then 0 else S (place_in eqb order' x)
  end.

(** The order of the operational statuses in a table. *)
Definition operativo_order : list Report.Operativo :=
  [Report.Activa; Report.Pausada; Report.Inactiva; Report.UNKNOWN].

(** The order of the table rows: the operational status in the order
    Activa, Pausada, Inactiva, UNKNOWN, and within one status the titles by
    [localeCompare]. *)
Definition report_row_le (localeCompare : jsstring -> jsstring -> Z)
           (a b : Report.Row) : Prop :=
  place_in Report.Operativo_eqb operativo_order (Report.estado_operativo a)
  < place_in Report.Operativo_eqb operativo_order (Report.estado_operativo b)
  \/ (Report.estado_operativo a = Report.estado_operativo b
      /\ (localeCompare (or_str (Report.titulo a) []) (or_str (Report.titulo b) []) <= 0)%Z).

(** The statuses that the main script ranks by name; UNKNOWN, like every
    other text, comes after them. *)
Definition ranked_operativo : list jsstring :=
  [str "Activa"; str "Pausada"; str "Inactiva"].

(** The same order for the rows of the main script, whose statuses are
    texts: Activa, Pausada, Inactiva, then UNKNOWN and any other text; and
    within one of these four places the titles by [localeCompare]. *)
Definition main_row_le (localeCompare : jsstring -> jsstring -> Z)
           (a b : Main.RowWithTs) : Prop :=
  place_in jsstring_eqb ranked_operativo (estado_operativo (Main.rec a))
  < place_in jsstring_eqb ranked_operativo (estado_operativo (Main.rec b))
  \/ (place_in jsstring_eqb ranked_operativo (estado_operativo (Main.rec a))
      = place_in jsstring_eqb ranked_operativo (estado_operativo (Main.rec b))
      /\ (localeCompare (or_str (titulo (Main.rec a)) []) (or_str (titulo (Main.rec b)) []) <= 0)%Z).

(** A comparison of strings that is a total preorder, as a collation is. *)
Definition consistent (localeCompare : jsstring -> jsstring -> Z) : Prop :=
  (forall a b, (localeCompare a b <= 0)%Z \/ (localeCompare b a <= 0)%Z)
  /\ (forall a b c, (localeCompare a b <= 0)%Z -> (localeCompare b c <= 0)%Z ->
                    (localeCompare a c <= 0)%Z).

(** A comparison by length, for examples. *)
Definition compare_length (a b : jsstring) : Z :=
  (Z.of_nat (length a) - Z.of_nat (length b))%Z.

(** ** Closed forms of the matcher *)

(** A literal run read off the input. *)
Fixpoint eat_lit (ci : bool) (w : jsstring) (s : mstate) : option mstate :=
  match w with
  | [] => Some s
  | c :: w' =>
      match ms_rest s with
      | x :: xs => if chr_eq ci c x then eat_lit ci w' (advance s x xs) else None
      | [] => None
      end
  end.

(** The repetition of a one-unit test, by recursion on the input. *)
Fixpoint star_unit (p : jschar -> bool) (greedy : bool) (k : cont)
         (prev : option jschar) (rest : jsstring) (caps : list (nat * jsstring))
  : option mstate :=
  match rest with
  | x :: xs =>
      if p x then
        if greedy
        then orelse (star_unit p greedy k (Some x) xs caps) (k (MS prev rest caps))
        else orelse (k (MS prev rest caps)) (star_unit p greedy k (Some x) xs caps)
      else k (MS prev rest caps)
  | [] => k (MS prev rest caps)
  end.

(** The input after its longest prefix of units passing [p], and the unit
    before that point. *)
Fixpoint drop_run (p : jschar -> bool) (s : jsstring) : jsstring :=
  match s with
  | x :: xs => if p x then drop_run p xs else s
  | [] => []
  end.

Fixpoint take_run (p : jschar -> bool) (s : jsstring) : jsstring :=
  match s with
  | x :: xs => if p x then x :: take_run p xs else []
  | [] => []
  end.

Fixpoint last_run (p : jschar -> bool) (prev : option jschar) (s : jsstring)
  : option jschar :=
  match s with
  | x :: xs => if p x then last_run p (Some x) xs else prev
  | [] => prev
  end.

(** ** Whitespace normal form *)

(** Every run of whitespace replaced by one space; [in_run] says that the
    unit before was whitespace. *)
Fixpoint squeeze (in_run : bool) (s : jsstring) : jsstring :=
  match s with
  | [] => []
  | c :: s' =>
      if is_space c
      then if in_run then squeeze true s' else 32%N :: squeeze true s'
      else c :: squeeze false s'
  end.

(** No two whitespace units in a row, and every whitespace unit a space. *)
Fixpoint tidy (after_space : bool) (l : jsstring) : bool :=
  match l with
  | [] => true
  | c :: l' =>
      if is_space c then negb after_space && (c =? 32)%N && tidy true l'
      else tidy false l'
  end.

Definition starts_clean (l : jsstring) : bool :=
  match l with c :: _ => negb (is_space c) | [] => true end.

(** Neither the first nor the last unit is whitespace. *)
Definition edge_clean (l : jsstring) : bool :=
  starts_clean l && starts_clean (rev l).

(** A matcher that reads one unit passing [p]. *)
Definition unit_matcher (ma : cont -> cont) (p : jschar -> bool) : Prop :=
  forall (k : cont) (s : mstate),
    ma k s = match ms_rest s with
             | x :: xs => if p x then k (advance s x xs) else None
             | [] => None
             end.

(** ** Lines of the SKU file *)

(** The line begins with one of the letters A to Z or a to z. *)
Definition begins_with_ascii_letter (l : jsstring) : bool :=
  match l with c :: _ => is_letter c | [] => false end.

(** The lines read as data: the trimmed non-empty lines, without the first
    one when it begins with a letter A to Z or a to z. *)
Definition data_lines (raw : jsstring) : list jsstring :=
  match Main.file_lines raw with
  | l :: ls => if begins_with_ascii_letter l then ls else l :: ls
  | [] => []
  end.

(** The first column of a line: the units before its first comma or
    tab. *)
Definition first_column (line : jsstring) : jsstring :=
  take_run (fun c => negb ((c =? 44) || (c =? 9))%N) line.

(** A SKU file whose heading line begins with an accented capital I. *)
Definition accented_heading_file : jsstring :=
  [205%N] ++ str "tem 7,nombre
123,mate
".

(** What one data line adds to the result: the digits of its first field,
    when there are any. *)
Definition entry (line : jsstring) : list jsstring :=
  let t := Main.only_digits (Main.first_field line) in
  if test false Main.digits_re t then [t] else [].

(** ** The tiers of the operational status *)

Definition has_label (w : jsstring) (row : jsstring) : bool :=
  test true (label_re w) row.

(** The label tier: the first of Activa, Pausada, Inactiva with a label. *)
Definition label_tier (row : jsstring) : option jsstring :=
  if has_label (str "Activa") row then Some (str "Activa")
  else if has_label (str "Pausada") row then Some (str "Pausada")
  else if has_label (str "Inactiva") row then Some (str "Inactiva")
  else None.

(** The row-class tier: --active, --paused, --inactive. *)
Definition class_tier (row : jsstring) : option jsstring :=
  if test true (ExtractHtml.rowclass_re (str "active")) row then Some (str "Activa")
  else if test true (ExtractHtml.rowclass_re (str "paused")) row then Some (str "Pausada")
  else if test true (ExtractHtml.rowclass_re (str "inactive")) row then Some (str "Inactiva")
  else None.

(** The switch tier: checked or aria-checked of the switch block. *)
Definition switch_tier (row : jsstring) : option jsstring :=
  let sb := ExtractHtml.switchBlock row in
  if truthy sb then
    if test true ExtractHtml.checked_re sb then Some (str "Activa")
    else if test true (ExtractHtml.aria_re (str "true")) sb then Some (str "Activa")
    else if test true (ExtractHtml.aria_re (str "false")) sb then Some (str "Pausada")
    else None
  else None.

Definition first_of (a b c : option jsstring) (d : jsstring) : jsstring :=
  match a, b, c with
  | Some x, _, _ => x
  | None, Some x, _ => x
  | None, None, Some x => x
  | None, None, None => d
  end.

(** ** Sample pages *)

(** A row for SKU 123 with an item link and no status text. *)
Definition page_plain : jsstring :=
  strq "<div class='sc-list-item-row sc-list-item-row--catalog'>SKU 123 <a href='/x?itemId=MLU123456'>t</a></div></div></div>".

(** A row for SKU 123 with two status labels. *)
Definition page_two_labels : jsstring :=
  strq "<div class='sc-list-item-row sc-list-item-row--catalog'>SKU 123 <a href='/x?itemId=MLU123456'>t</a><span class='sc-list-item-status-switch__label'>Pausada</span><span class='sc-list-item-status-switch__label'>Activa</span></div></div></div>".

(** A row for SKU 123 with an active row class, a title with an inner tag
    and an item link whose digits run into a letter. *)
Definition page_variant : jsstring :=
  strq "<div class='sc-list-item-row sc-list-item-row--catalog sc-list-item-row--active'>SKU 123 <a class='sc-list-item-row-description__title' href='/x?itemId=MLU123456x'><b>T</b></a></div></div></div>".

(** A row where the SKU follows the letters SKU without a space. *)
Definition page_nospace : jsstring :=
  strq "<div class='sc-list-item-row sc-list-item-row--catalog'>SKU123 <a href='/x?itemId=MLU123456'>t</a></div></div></div>".

(** A complete row with a title, a badge and a label. *)
Definition page_full : jsstring :=
  strq "<div class='sc-list-item-row sc-list-item-row--catalog'>SKU 123 <a class='sc-list-item-row-description__title' href='/x?itemId=MLU123456'>Mate de calabaza</a><span>Ganando</span><span class='sc-list-item-status-switch__label'>Activa</span></div></div></div>".

(** ** Patterns that differ in letter case *)

Definition citem_eqb (a b : citem) : bool :=
  match a, b with
  | CChar c, CChar d => (c =? d)%N
  | CRange l h, CRange l' h' => (l =? l')%N && (h =? h')%N
  | CSpace, CSpace | CNonSpace, CNonSpace | CDigit, CDigit => true
  | _, _ => false
  end.

Fixpoint items_eqb (a b : list citem) : bool :=
  match a, b with
  | [], [] => true
  | x :: a', y :: b' => citem_eqb x y && items_eqb a' b'
  | _, _ => false
  end.

(** A class member on which the ignore-case flag has no effect. *)
Definition caseless (it : citem) : bool :=
  match it with
  | CChar c => negb (is_letter c)
  | CRange _ _ => false
  | CSpace | CNonSpace | CDigit => true
  end.

(** [covers r r']: the pattern [r'] is [r] up to the case of its letters,
    so [r'] read with the ignore-case flag accepts what [r] accepts. *)
Fixpoint covers (r r' : regex) : bool :=
  match r, r' with
  | Eps, Eps | WordB, WordB | Bol, Bol | Eol, Eol => true
  | Chr c, Chr c' => (upcase c =? upcase c')%N
  | Cls n i, Cls n' i' => Bool.eqb n n' && items_eqb i i' && forallb caseless i
  | Seq a b, Seq a' b' => covers a a' && covers b b'
  | Alt a b, Alt a' b' => covers a a' && covers b b'
  | Rep m g a, Rep m' g' a' => Nat.eqb m m' && Bool.eqb g g' && covers a a'
  | Opt a, Opt a' => covers a a'
  | Grp _ a, Grp _ a' => covers a a'
  | _, _ => false
  end.

(** Two matcher states at the same place of the same input. *)
Definition same_pos (s t : mstate) : Prop :=
  ms_prev s = ms_prev t /\ ms_rest s = ms_rest t.

(** [k'] succeeds wherever [k] does. *)
Definition cont_le (k k' : cont) : Prop :=
  forall t t', same_pos t t' -> k t <> None -> k' t' <> None.

(** ** Text found in a row *)

(** Equal up to the case of ASCII letters. *)
Definition ci_same (a b : jsstring) : Prop := map upcase a = map upcase b.

(** The last unit of [l], or [prev] when [l] is empty. *)
Definition last_of (prev : option jschar) (l : jsstring) : option jschar :=
  fold_left (fun _ x => Some x) l prev.

(** A word boundary between two neighbouring units (or an end of the
    string). *)
Definition boundary (before after : option jschar) : bool :=
  xorb (is_word_opt before) (is_word_opt after).

(** The row holds, between word boundaries and in any letter case, the
    letters SKU, then whitespace ([one_space] says how much), then the SKU. *)
Definition sku_text_with (gap_ok : jsstring -> Prop) (sku row : jsstring) : Prop :=
  exists pre w gap sku' post,
    row = pre ++ w ++ gap ++ sku' ++ post
    /\ ci_same w (str "SKU")
    /\ gap_ok gap
    /\ ci_same sku' sku
    /\ boundary (last_of None pre) (hd_error (w ++ gap ++ sku' ++ post)) = true
    /\ boundary (last_of None (pre ++ w ++ gap ++ sku')) (hd_error post) = true.

(** The text with any run of whitespace, none included, before the SKU. *)
Definition sku_text_in (sku row : jsstring) : Prop :=
  sku_text_with (fun gap => forallb is_space gap = true) sku row.

(** The text of a SKU with at least one whitespace unit before the SKU. *)
Definition sku_text_spaced (sku row : jsstring) : Prop :=
  sku_text_with (fun gap => gap <> [] /\ forallb is_space gap = true) sku row.

(** [w] at the start of [s], ignoring case. *)
Fixpoint starts_ci (w s : jsstring) : bool :=
  match w, s with
  | [], _ => true
  | c :: w', x :: s' => chr_eq true c x && starts_ci w' s'
  | _ :: _, [] => false
  end.

(** [w] somewhere in [s], ignoring case. *)
Fixpoint occurs_ci (w s : jsstring) : bool :=
  starts_ci w s ||
  match s with
  | [] => false
  | _ :: s' => occurs_ci w s'
  end.

(** The sum of the four entries of a counters object, when all exist. *)
Definition sum_counts (get : Report.Competencia -> option nat) : option nat :=
  match get Report.Ganando, get Report.Compartiendo_primer_lugar,
        get Report.Perdiendo, get Report.SIN_ESTADO with
  | Some a, Some b, Some c, Some d => Some (a + b + c + d)
  | _, _, _, _ => None
  end.

(** ** Sample rows and files *)

Definition row_mate : Report.Row :=
  Report.mkRow (str "123") (str "MLU123456") Report.Ganando Report.Pausada
               (str "Mate de calabaza").

Definition row_termo : Report.Row :=
  Report.mkRow (str "456") (str "MLU654321") Report.Perdiendo Report.Activa
               (str "Termo").

Definition ts_mate : Main.RowWithTs :=
  Main.mkRow (mkParsed (str "123") (str "MLU123456") (str "Ganando") (str "Pausada")
                       (str "Mate de calabaza"))
             (str "2024-05-01T12:00:00.000Z").

Definition ts_termo : Main.RowWithTs :=
  Main.mkRow (mkParsed (str "456") (str "MLU654321") (str "Perdiendo") (str "Activa")
                       (str "Termo"))
             (str "2024-05-01T12:00:05.000Z").

(** A SKU file with a header row. *)
Definition skus_file : jsstring :=
  str "sku,nombre
123,mate
456,termo
".

(** A page without listing rows. *)
Definition page_empty_list : jsstring :=
  str "<html><body><p>No hay publicaciones</p></body></html>".

(** The order a comparator stands for: [a] may come before [b]. *)
Definition cmp_le {A : Type} (cmp : A -> A -> Z) (a b : A) : Prop :=
  (cmp a b <= 0)%Z.

(** ** What a pattern accepts *)

(** [n] steps of a relation in a row. *)
Fixpoint iter_rel (n : nat) (R : mstate -> mstate -> Prop) (s s' : mstate) : Prop :=
  match n with
  | O => s' = s
  | S n' => exists t, R s t /\ iter_rel n' R t s'
  end.

(** [accepts ci r s s']: the pattern [r] can read from the state [s] to the
    state [s'] (the declarative reading of a pattern, without priorities). *)
Fixpoint accepts (ci : bool) (r : regex) (s s' : mstate) : Prop :=
  match r with
  | Eps => s' = s
  | Chr c =>
      exists x xs, ms_rest s = x :: xs /\ chr_eq ci c x = true /\ s' = advance s x xs
  | Cls neg items =>
      exists x xs, ms_rest s = x :: xs /\ cls_mem ci neg items x = true
                   /\ s' = advance s x xs
  | Seq a b => exists t, accepts ci a s t /\ accepts ci b t s'
  | Alt a b => accepts ci a s s' \/ accepts ci b s s'
  | Rep m _ a => exists n, m <= n /\ iter_rel n (accepts ci a) s s'
  | Opt a => s' = s \/ accepts ci a s s'
  | Grp i a =>
      exists t, accepts ci a s t
                /\ s' = MS (ms_prev t) (ms_rest t)
                           (set_cap i (firstn (length (ms_rest s) - length (ms_rest t))
                                              (ms_rest s))
                                    (ms_caps t))
  | WordB => at_boundary s = true /\ s' = s
  | Bol => ms_prev s = None /\ s' = s
  | Eol => ms_rest s = [] /\ s' = s
  end.

(** ** Link texts that may be a title *)

(** The text begins, in any letter case, with one of the two action
    labels. *)
Definition action_label (t : jsstring) : bool :=
  starts_ci (str "modificar") t || starts_ci (str "ir a promociones") t.

(** The cleaned link texts that are neither empty nor an action label, in
    the order of the links. *)
Definition title_candidates (candidates : list jsstring) : list jsstring :=
  filter (fun t => negb (action_label t))
         (filter truthy (map (fun c => clean (Some c)) candidates)).

(** ** Text written into the report and the CSV file *)

(** An angle bracket. *)
Definition is_angle (c : jschar) : bool := ((c =? 60) || (c =? 62))%N.

(** A unit that would end a CSV field, a CSV line or an attribute value:
    tab, line feed, carriage return, space, double quote, comma, angle
    brackets. *)
Definition breaks_field (c : jschar) : bool :=
  existsb (N.eqb c) [9; 10; 13; 32; 34; 44; 60; 62]%N.

(** Reading a quoted CSV field: the text after the opening quote up to the
    closing one, a doubled quote standing for one quote.  The result is the
    field and the text after the closing quote. *)
Fixpoint read_quoted_body (s : jsstring) : option (jsstring * jsstring) :=
  match s with
  | [] => None
  | c :: s' =>
      if (c =? dq)%N then
        match s' with
        | d :: s'' =>
            if (d =? dq)%N
            then option_map (fun p => (dq :: fst p, snd p)) (read_quoted_body s'')
            else Some ([], s')
        | [] => Some ([], [])
        end
      else option_map (fun p => (c :: fst p, snd p)) (read_quoted_body s')
  end.

Definition read_quoted (s : jsstring) : option (jsstring * jsstring) :=
  match s with
  | c :: s' => if (c =? dq)%N then read_quoted_body s' else None
  | [] => None
  end.

(** The rows with a given competitive or operational status text. *)
Definition rows_with_competencia_text (s : jsstring) (rows : list Main.RowWithTs)
  : list Main.RowWithTs :=
  filter (fun r => jsstring_eqb (estado_competencia (Main.rec r)) s) rows.

Definition rows_with_operativo_text (s : jsstring) (rows : list Main.RowWithTs)
  : list Main.RowWithTs :=
  filter (fun r => jsstring_eqb (estado_operativo (Main.rec r)) s) rows.

(** The sum of the counts of a map. *)
Definition sum_values (m : Main.CountMap) : nat :=
  fold_right (fun p acc => snd p + acc) 0 m.

(** One step of the counting loop of the main script's [summarize], for
    the status [key] reads off a row. *)
Definition count_step (key : Main.RowWithTs -> jsstring)
           (m : Main.CountMap) (r : Main.RowWithTs) : Main.CountMap :=
  Main.map_set m (key r) (Main.or_zero (Main.map_get m (key r)) + 1).

(** ** Lines of a text *)

(** The lines of a text: it is cut at every line feed, a carriage return
    right before the line feed going with it.  [cur] holds, reversed, the
    units of the line being read. *)
Fixpoint lines_of (cur : jsstring) (s : jsstring) : list jsstring :=
  match s with
  | [] => [rev cur]
  | c :: s' =>
      if (c =? 10)%N then rev cur :: lines_of [] s'
      else
        match s' with
        | d :: s'' =>
            if ((c =? 13) && (d =? 10))%N then rev cur :: lines_of [] s''
            else lines_of (c :: cur) s'
        | [] => lines_of (c :: cur) s'
        end
  end.

(** Neither a line feed nor a carriage return. *)
Definition not_line_end (c : jschar) : bool := negb ((c =? 10) || (c =? 13))%N.

(** ** Captured texts *)

(** A pattern without capture groups. *)
Fixpoint capless (r : regex) : bool :=
  match r with
  | Grp _ _ => false
  | Seq a b | Alt a b => capless a && capless b
  | Rep _ _ a | Opt a => capless a
  | _ => true
  end.

(** The letters MLU in any letter case, then at least [n] digits and
    nothing else. *)
Definition item_id_like (n : nat) (id : jsstring) : bool :=
  starts_ci (str "MLU") id
  && (n <=? length (skipn 3 id))
  && forallb is_digit (skipn 3 id).

(** A non-empty run of digits. *)
Definition digits_only (t : jsstring) : bool :=
  truthy t && forallb is_digit t.

(** ** Well-formed text *)

(** No lone surrogate: every high surrogate is followed by a low one, and
    every low surrogate follows a high one. *)
Fixpoint well_formed (s : jsstring) : bool :=
  match s with
  | [] => true
  | c :: s' =>
      if low_surrogate c then false
      else if high_surrogate c then
        match s' with
        | d :: s'' => low_surrogate d && well_formed s''
        | [] => false
        end
      else well_formed s'
  end.

(** The editor address of an item id, as text. *)
Definition editor_url (itemId : jsstring) : jsstring :=
  str "https://www.mercadolibre.com.uy/syi/core/modify?itemId=" ++ itemId.

(** ** The text of a listing row *)

Definition row_open : jsstring :=
  strq "<div class='sc-list-item-row sc-list-item-row--catalog".

Definition div_close : jsstring := str "</div>".

(** ** Tags in a text *)

(** Not a closing angle bracket. *)
Definition not_gt (c : jschar) : bool := negb (62 =? c)%N.

(** A tag begins at the head of the text: an opening angle bracket, a unit
    other than the closing one, and a closing angle bracket further on. *)
Definition tag_here (s : jsstring) : bool :=
  match s with
  | c :: x :: xs => (60 =? c)%N && not_gt x && existsb (N.eqb 62%N) xs
  | _ => false
  end.

(** A tag begins somewhere in the text. *)
Fixpoint has_tag (s : jsstring) : bool :=
  tag_here s ||
  match s with
  | [] => false
  | _ :: s' => has_tag s'
  end.

(** ** Sample texts *)

(** Link texts of a card: an action label, a title, a shorter text. *)
Definition sample_links : list jsstring :=
  [str "Modificar"; str " Mate  de calabaza "; str "Termo"].

(** A file of two SKUs, one on each line. *)
Definition sample_skus : list jsstring := [str "123"; str "456"].

(** ** The sections of the report *)

(** The order of the sections of a report. *)
Definition competencia_order : list Report.Competencia :=
  [Report.Ganando; Report.Compartiendo_primer_lugar; Report.Perdiendo;
   Report.SIN_ESTADO].

(** The same order for the main script, whose statuses are texts. *)
Definition competencia_names : list jsstring :=
  [str "Ganando"; str "Compartiendo primer lugar"; str "Perdiendo"; str "SIN_ESTADO"].

(** The name of a competitive status. *)
Definition competencia_name (st : Report.Competencia) : jsstring :=
  match st with
  | Report.Ganando => str "Ganando"
  | Report.Compartiendo_primer_lugar => str "Compartiendo primer lugar"
  | Report.Perdiendo => str "Perdiendo"
  | Report.SIN_ESTADO => str "SIN_ESTADO"
  end.

(** The statuses that have rows, in the order of the report. *)
Definition statuses_with_rows (rows : list Report.Row) : list Report.Competencia :=
  filter (fun st =>
            existsb (fun r => Report.Competencia_eqb (Report.estado_competencia r) st) rows)
         competencia_order.

(** The text of the section of a status whose rows, in table order, are
    [ordered]. *)
Definition section_text (st : Report.Competencia) (ordered : list Report.Row)
  : option jsstring :=
  option_map
    (fun cells =>
       Report.section_html st (length ordered)
         (Report.table_open ++ join [] cells ++ Report.table_close))
    (map_opt Report.rowHtml ordered).

(** The status of the row is one of the four the report lists. *)
Definition known_status (r : Main.RowWithTs) : bool :=
  existsb (jsstring_eqb (estado_competencia (Main.rec r))) competencia_names.

(** The listed statuses that have rows, in the order of the report. *)
Definition main_statuses_with_rows (rows : list Main.RowWithTs) : list jsstring :=
  filter (fun st =>
            existsb (fun r => jsstring_eqb (estado_competencia (Main.rec r)) st) rows)
         competencia_names.

(** The text of the section of a status whose rows, in table order, are
    [ordered]. *)
Definition main_section_text (localFmt : jsstring -> option jsstring)
           (st : jsstring) (ordered : list Main.RowWithTs) : option jsstring :=
  option_map
    (fun cells =>
       Main.section_html st (length ordered)
         (Main.table_open ++ join [] cells ++ Main.table_close))
    (map_opt (Main.rowHtml localFmt) ordered).

(** ** The content of a text *)

(** The units of a text that are not whitespace, in order. *)
Definition content (s : jsstring) : jsstring :=
  filter (fun c => negb (is_space c)) s.

(** ** The item parameter of an address *)

(** The address [h] holds an item parameter after the units [pre]: a
    question mark or an ampersand, then itemId= and MLU in any letter case,
    then six or more digits, and after the digits the end of the text or a
    unit that is no word character.  [id] is the text MLU with the digits,
    as the address writes them. *)
Definition item_param_at (pre id h : jsstring) : Prop :=
  exists sep key mlu ds post,
    h = pre ++ sep :: key ++ mlu ++ ds ++ post
    /\ (sep = 63 \/ sep = 38)%N
    /\ ci_same key (str "itemId=")
    /\ ci_same mlu (str "MLU")
    /\ 6 <= length ds
    /\ forallb is_digit ds = true
    /\ is_word_opt (hd_error post) = false
    /\ id = mlu ++ ds.

Definition has_item_param (h : jsstring) : Prop :=
  exists pre id, item_param_at pre id h.

(** [id] is the item parameter of [h] that begins first. *)
Definition first_item_param (id h : jsstring) : Prop :=
  exists pre,
    item_param_at pre id h
    /\ forall pre' id', item_param_at pre' id' h -> length pre <= length pre'.

(** ** What a table lists *)

(** The texts [parts] one after the other, with the texts [gaps] before,
    between and after them. *)
Fixpoint weave (gaps parts : list jsstring) : jsstring :=
  match gaps, parts with
  | g :: gaps', p :: parts' => g ++ p ++ weave gaps' parts'
  | g :: _, [] => g
  | [], _ => []
  end.

(** [text] holds the texts [parts], in this order and without overlap. *)
Definition holds_in_order (parts : list jsstring) (text : jsstring) : Prop :=
  exists gaps, length gaps = S (length parts) /\ text = weave gaps parts.

(** A table cell with the text [t]. *)
Definition td (t : jsstring) : jsstring := str "<td>" ++ t ++ str "</td>".

(** A title as a table shows it: every angle bracket written as its
    entity. *)
Definition shown_title (t : jsstring) : jsstring :=
  flat_map (fun c => if (c =? 60)%N then str "&lt;"
                     else if (c =? 62)%N then str "&gt;" else [c]) t.

(** The item id as a table shows it: a dash for the empty id. *)
Definition shown_id (id : jsstring) : jsstring :=
  match id with [] => str "-" | _ => id end.

(** The name of an operational status. *)
Definition operativo_name (s : Report.Operativo) : jsstring :=
  match s with
  | Report.Activa => str "Activa"
  | Report.Pausada => str "Pausada"
  | Report.Inactiva => str "Inactiva"
  | Report.UNKNOWN => str "UNKNOWN"
  end.

(** [text] is a table row that lists the row [r] of the report module:
    between the tags of a table row, the cells of the SKU, of the item id,
    of the operational status and of the title, in this order. *)
Definition report_row_listed (r : Report.Row) (text : jsstring) : Prop :=
  holds_in_order
    [str "<tr>"; td (Report.sku r); td (shown_id (Report.itemId r));
     td (operativo_name (Report.estado_operativo r));
     td (shown_title (Report.titulo r)); str "</tr>"]
    text.

(** The same for a row of the main script, whose table has the formatted
    time stamp in its last cell. *)
Definition main_row_listed (localFmt : jsstring -> option jsstring)
           (r : Main.RowWithTs) (text : jsstring) : Prop :=
  exists hora,
    localFmt (Main.timestamp r) = Some hora
    /\ holds_in_order
         [str "<tr>"; td (sku (Main.rec r)); td (shown_id (itemId (Main.rec r)));
          td (estado_operativo (Main.rec r));
          td (shown_title (titulo (Main.rec r))); td hora; str "</tr>"]
         text.

(** A line feed and [n] spaces. *)
Definition indent (n : nat) : jsstring := 10%N :: repeat 32%N n.

(** ** What a report lists *)

(** The end of the heading of a section: the name of the status, the
    number of its rows between brackets, and the closing tag. *)
Definition heading_end (name : jsstring) (n : nat) : jsstring :=
  name ++ str " (" ++ number_text n ++ str ")</h3>".

(** [text] is the section of the status [name] with the rows [ordered]: a
    heading with the name and the number of the rows, and after it one
    table row for each of the rows, in their order ([listed] says what a
    table row for a row is). *)
Definition section_lists (R : Type) (listed : R -> jsstring -> Prop)
           (name : jsstring) (ordered : list R) (text : jsstring) : Prop :=
  exists cells,
    Forall2 listed ordered cells
    /\ holds_in_order [str "<h3"; heading_end name (length ordered); concat cells] text.

(** The paragraph of a report without sections. *)
Definition no_results_text : jsstring := str "<p>No hubo resultados.</p>".

(** * Properties *)

(** Case analysis on every test of a chain of conditionals. *)
Ltac split_ifs :=
  repeat match goal with
         | |- context [if ?b then _ else _] => destruct b
         end.


(** ** summarize *)

Section Summarize.
Import Report.

Lemma group_of_push (g : Groups) (st st' : Competencia) (r : Row) :
  group_of (push g st r) st' =
  group_of g st' ++ (if Competencia_eqb st st' then [r] else []).
Proof.
  destruct st, st'; simpl; rewrite ?app_nil_r; reflexivity.
Qed.

Lemma group_of_fold (rows : list Row) :
  forall (g : Groups) (st : Competencia),
    group_of (fold_left (fun g r => push g (estado_competencia r) r) rows g) st =
    group_of g st ++ rows_with_competencia st rows.
Proof.
  induction rows as [|r rows IH]; intros g st; simpl.
  - now rewrite app_nil_r.
  - rewrite IH, group_of_push, <- app_assoc. f_equal.
    unfold rows_with_competencia at 2. simpl.
    destruct (Competencia_eqb (estado_competencia r) st); reflexivity.
Qed.

Lemma op_count_bump (acc : OpCounts) (s s' : Operativo) :
  op_count (bump acc s) s' =
  op_count acc s' + (if Operativo_eqb s s' then 1 else 0).
Proof.
  destruct s, s'; simpl; lia.
Qed.

Lemma op_count_fold (rows : list Row) :
  forall (acc : OpCounts) (op : Operativo),
    op_count (fold_left (fun acc r => bump acc (estado_operativo r)) rows acc) op =
    op_count acc op + length (rows_with_operativo op rows).
Proof.
  induction rows as [|r rows IH]; intros acc op; simpl.
  - lia.
  - rewrite IH, op_count_bump.
    destruct (Operativo_eqb (estado_operativo r) op); simpl; lia.
Qed.

Lemma competencia_classes (rows : list Row) :
  length (rows_with_competencia Ganando rows) +
  length (rows_with_competencia Compartiendo_primer_lugar rows) +
  length (rows_with_competencia Perdiendo rows) +
  length (rows_with_competencia SIN_ESTADO rows) = length rows.
Proof.
  induction rows as [|r rows IH]; simpl; [reflexivity|].
  destruct (estado_competencia r); simpl; lia.
Qed.

Lemma operativo_classes (rows : list Row) :
  length (rows_with_operativo Activa rows) +
  length (rows_with_operativo Pausada rows) +
  length (rows_with_operativo Inactiva rows) +
  length (rows_with_operativo UNKNOWN rows) = length rows.
Proof.
  induction rows as [|r rows IH]; simpl; [reflexivity|].
  destruct (estado_operativo r); simpl; lia.
Qed.

(** C7. For every list of rows, [summarize] returns the length of the list
    as total; the group under each competitive status holds exactly the
    rows of that status, in input order; each compCounts entry is the size
    of its group; each opCounts entry is the number of rows of that
    operational status; and the four compCounts, like the four opCounts,
    add up to total. *)
Theorem summarize_partitions (rows : list Row) :
  let s := summarize rows in
  total s = length rows
  /\ (forall st, group_of (groups s) st = rows_with_competencia st rows)
  /\ (forall st, comp_count (compCounts s) st = Some (length (group_of (groups s) st)))
  /\ (forall op, op_count (opCounts s) op = length (rows_with_operativo op rows))
  /\ sum_counts (comp_count (compCounts s)) = Some (total s)
  /\ op_count (opCounts s) Activa + op_count (opCounts s) Pausada +
     op_count (opCounts s) Inactiva + op_count (opCounts s) UNKNOWN = total s.
Proof.
  intros s.
  assert (Hg : forall st, group_of (groups s) st = rows_with_competencia st rows).
  { intros st. unfold s, summarize; simpl. rewrite group_of_fold. now destruct st. }
  assert (Ho : forall op, op_count (opCounts s) op = length (rows_with_operativo op rows)).
  { intros op. unfold s, summarize; simpl. rewrite op_count_fold. now destruct op. }
  assert (Hc : forall st, comp_count (compCounts s) st = Some (length (group_of (groups s) st))).
  { intros st. unfold s, summarize; simpl. destruct st; reflexivity. }
  repeat split; auto.
  - unfold sum_counts. rewrite !Hc, !Hg. simpl total.
    now rewrite competencia_classes.
  - rewrite !Ho. simpl total. apply operativo_classes.
Qed.
End Summarize.

(** ** recordsToCsv *)

Lemma join_newline_lines (lines : list jsstring) :
  lines <> [] ->
  join [10%N] lines ++ [10%N] = concat (map (fun l => l ++ [10%N]) lines).
Proof.
  induction lines as [|l lines IH]; [congruence|]. intros _.
  destruct lines as [|l' lines].
  - simpl. now rewrite app_nil_r.
  - change (join [10%N] (l :: l' :: lines)) with (l ++ [10%N] ++ join [10%N] (l' :: lines)).
    specialize (IH ltac:(congruence)).
    cbn [map concat] in *. rewrite <- IH, <- !app_assoc. reflexivity.
Qed.

(** With at least one record the file is the header line and one line per
    record, each ended by a newline. *)
Lemma recordsToCsv_lines (rows : list Main.RowWithTs) (lines : list jsstring) :
  rows <> [] -> map_opt Main.csvLine rows = Some lines ->
  Main.recordsToCsv rows =
  Some (Main.csvHeader ++ concat (map (fun l => l ++ [10%N]) lines)).
Proof.
  intros Hne Hl. unfold Main.recordsToCsv. rewrite Hl.
  rewrite join_newline_lines; [reflexivity|].
  intros ->. destruct rows as [|r rows]; [congruence|].
  simpl in Hl. destruct (Main.csvLine r); [|discriminate].
  destruct (map_opt Main.csvLine rows); discriminate.
Qed.

(** C6. On the empty list of records [recordsToCsv] returns the header line
    followed by one more, empty, line: a line that stands for no record. *)
Theorem recordsToCsv_empty :
  Main.recordsToCsv [] =
  Some (str "SKU,ITEM_ID,ESTADO_COMPETENCIA,ESTADO_OPERATIVO,TITULO,URL,TIMESTAMP"
        ++ [10%N] ++ [10%N]).
Proof. reflexivity. Qed.

(** ** tableFor *)

Section SortBy.
Variable A : Type.
Variable cmp : A -> A -> Z.
Hypothesis le_total : forall a b, cmp_le cmp a b \/ cmp_le cmp b a.
Hypothesis le_trans :
  forall a b c, cmp_le cmp a b -> cmp_le cmp b c -> cmp_le cmp a c.

Lemma insert_by_perm (x : A) (l : list A) :
  Permutation (x :: l) (insert_by cmp x l).
Proof.
  induction l as [|y l IH]; simpl; [apply Permutation_refl|].
  destruct (cmp x y <=? 0)%Z.
  - apply Permutation_refl.
  - eapply perm_trans; [apply perm_swap|]. now apply perm_skip.
Qed.

Lemma sort_by_perm (l : list A) : Permutation l (sort_by cmp l).
Proof.
  induction l as [|x l IH]; simpl; [apply perm_nil|].
  eapply perm_trans; [apply perm_skip, IH|]. apply insert_by_perm.
Qed.

Lemma insert_by_sorted (x : A) (l : list A) :
  StronglySorted (cmp_le cmp) l -> StronglySorted (cmp_le cmp) (insert_by cmp x l).
Proof.
  induction 1 as [|y l Hs IH Hall]; simpl.
  - constructor; constructor.
  - destruct (cmp x y <=? 0)%Z eqn:E.
    + apply Z.leb_le in E. constructor.
      * now constructor.
      * constructor; [exact E|].
        eapply Forall_impl; [|exact Hall]. intros z Hz. now apply le_trans with y.
    + assert (Hyx : cmp_le cmp y x).
      { destruct (le_total x y) as [H|H]; [|exact H].
        apply Z.leb_gt in E. unfold cmp_le in H. lia. }
      constructor; [exact IH|].
      eapply Permutation_Forall; [apply insert_by_perm|].
      now constructor.
Qed.

Lemma sort_by_sorted (l : list A) : StronglySorted (cmp_le cmp) (sort_by cmp l).
Proof.
  induction l as [|x l IH]; simpl; [constructor|]. now apply insert_by_sorted.
Qed.
End SortBy.

Lemma StronglySorted_impl (A : Type) (R R' : A -> A -> Prop) (l : list A) :
  (forall a b, R a b -> R' a b) -> StronglySorted R l -> StronglySorted R' l.
Proof.
  intros HR. induction 1 as [|x l Hs IH Hall]; constructor; auto.
  eapply Forall_impl; [|exact Hall]. auto.
Qed.

Section Stores.
Variable A : Type.

Lemma set_nth_last (h : store A) (l l' : list A) :
  set_nth (length h) l' (h ++ [l]) = h ++ [l'].
Proof. induction h as [|x h IH]; simpl; [reflexivity|]. now rewrite IH. Qed.

Lemma nth_last (h : store A) (l : list A) : nth (length h) (h ++ [l]) [] = l.
Proof. rewrite app_nth2, Nat.sub_diag by lia. reflexivity. Qed.

(** Copying an array and sorting the copy: the sorted copy is a new
    array at the end of the store, and no earlier array changes. *)
Lemma sort_copy_run (cmp : A -> A -> Z) (rows : addr) (h : store A) :
  (copy <- spread rows ;; ordered <- sort_in_place cmp copy ;; read_array ordered) h
  = (sort_by cmp (nth rows h []), h ++ [sort_by cmp (nth rows h [])]).
Proof.
  unfold bind, spread, bind, read_array, new_array, sort_in_place, bind,
    read_array, write_array, ret.
  rewrite nth_last, set_nth_last, nth_last. reflexivity.
Qed.
End Stores.

Section TableOrder.
Variable localeCompare : jsstring -> jsstring -> Z.
Hypothesis collation : consistent localeCompare.

(** The rank the comparison gives a status is its place in the order. *)
Lemma report_rank_place (s : Report.Operativo) :
  Report.opRank s = Z.of_nat (place_in Report.Operativo_eqb operativo_order s).
Proof. now destruct s. Qed.

Lemma report_rank_inj (s t : Report.Operativo) :
  Report.opRank s = Report.opRank t -> s = t.
Proof. destruct s, t; cbn; intros H; try reflexivity; discriminate H. Qed.

Lemma main_rank_place (s : jsstring) :
  Main.opRank s = Z.of_nat (place_in jsstring_eqb ranked_operativo s).
Proof.
  unfold Main.opRank, ranked_operativo. cbn [place_in].
  destruct (jsstring_eqb s (str "Activa")); [reflexivity|].
  destruct (jsstring_eqb s (str "Pausada")); [reflexivity|].
  destruct (jsstring_eqb s (str "Inactiva")); reflexivity.
Qed.

Lemma report_row_le_rank (a b : Report.Row) :
  report_row_le localeCompare a b <->
  (Report.opRank (Report.estado_operativo a) < Report.opRank (Report.estado_operativo b))%Z
  \/ (Report.opRank (Report.estado_operativo a) = Report.opRank (Report.estado_operativo b)
      /\ (localeCompare (or_str (Report.titulo a) []) (or_str (Report.titulo b) []) <= 0)%Z).
Proof.
  unfold report_row_le. rewrite !report_rank_place. split.
  - intros [H|[H1 H2]]; [left; lia|right]. rewrite H1. now split.
  - intros [H|[H1 H2]]; [left; lia|right]. split; [|exact H2].
    apply report_rank_inj. now rewrite !report_rank_place.
Qed.

Lemma main_row_le_rank (a b : Main.RowWithTs) :
  main_row_le localeCompare a b <->
  (Main.opRank (estado_operativo (Main.rec a)) < Main.opRank (estado_operativo (Main.rec b)))%Z
  \/ (Main.opRank (estado_operativo (Main.rec a)) = Main.opRank (estado_operativo (Main.rec b))
      /\ (localeCompare (or_str (titulo (Main.rec a)) []) (or_str (titulo (Main.rec b)) []) <= 0)%Z).
Proof.
  unfold main_row_le. rewrite !main_rank_place. split.
  - intros [H|[H1 H2]]; [left; lia|right]. rewrite H1. now split.
  - intros [H|[H1 H2]]; [left; lia|right]. split; [lia|exact H2].
Qed.

Lemma report_rowCmp_le (a b : Report.Row) :
  (Report.rowCmp localeCompare a b <= 0)%Z <-> report_row_le localeCompare a b.
Proof.
  rewrite report_row_le_rank. unfold Report.rowCmp.
  destruct (Z.eqb_spec (Report.opRank (Report.estado_operativo a) -
                        Report.opRank (Report.estado_operativo b)) 0) as [E|E];
    simpl; split; intros H.
  - right. split; [lia|exact H].
  - destruct H as [H|[_ H]]; [lia|exact H].
  - left. lia.
  - destruct H as [H|[H _]]; lia.
Qed.

Lemma main_rowCmp_le (a b : Main.RowWithTs) :
  (Main.rowCmp localeCompare a b <= 0)%Z <-> main_row_le localeCompare a b.
Proof.
  rewrite main_row_le_rank. unfold Main.rowCmp.
  destruct (Z.eqb_spec (Main.opRank (estado_operativo (Main.rec a)) -
                        Main.opRank (estado_operativo (Main.rec b))) 0) as [E|E];
    simpl; split; intros H.
  - right. split; [lia|exact H].
  - destruct H as [H|[_ H]]; [lia|exact H].
  - left. lia.
  - destruct H as [H|[H _]]; lia.
Qed.

Lemma report_le_total (a b : Report.Row) :
  (Report.rowCmp localeCompare a b <= 0)%Z \/ (Report.rowCmp localeCompare b a <= 0)%Z.
Proof.
  rewrite !report_rowCmp_le, !report_row_le_rank.
  destruct collation as [Ht _].
  destruct (Ht (or_str (Report.titulo a) []) (or_str (Report.titulo b) [])); lia.
Qed.

Lemma report_le_trans (a b c : Report.Row) :
  (Report.rowCmp localeCompare a b <= 0)%Z -> (Report.rowCmp localeCompare b c <= 0)%Z ->
  (Report.rowCmp localeCompare a c <= 0)%Z.
Proof.
  rewrite !report_rowCmp_le, !report_row_le_rank.
  destruct collation as [_ Htr]. intros [H1|[H1 H1']] [H2|[H2 H2']]; try lia.
  right. split; [lia|]. eapply Htr; eassumption.
Qed.

Lemma main_le_total (a b : Main.RowWithTs) :
  (Main.rowCmp localeCompare a b <= 0)%Z \/ (Main.rowCmp localeCompare b a <= 0)%Z.
Proof.
  rewrite !main_rowCmp_le, !main_row_le_rank.
  destruct collation as [Ht _].
  destruct (Ht (or_str (titulo (Main.rec a)) []) (or_str (titulo (Main.rec b)) [])); lia.
Qed.

Lemma main_le_trans (a b c : Main.RowWithTs) :
  (Main.rowCmp localeCompare a b <= 0)%Z -> (Main.rowCmp localeCompare b c <= 0)%Z ->
  (Main.rowCmp localeCompare a c <= 0)%Z.
Proof.
  rewrite !main_rowCmp_le, !main_row_le_rank.
  destruct collation as [_ Htr]. intros [H1|[H1 H1']] [H2|[H2 H2']]; try lia.
  right. split; [lia|]. eapply Htr; eassumption.
Qed.
End TableOrder.

Lemma compare_length_consistent : consistent compare_length.
Proof. unfold consistent, compare_length. split; intros; lia. Qed.

(** ** The matcher: unfolding lemmas *)

Lemma orelse_none_r (x : option mstate) : orelse x None = x.
Proof. now destruct x. Qed.

Lemma orelse_some (x y : option mstate) (m : mstate) :
  orelse x y = Some m -> x = Some m \/ (x = None /\ y = Some m).
Proof. destruct x; simpl; intros H; [left|right]; auto. Qed.

Lemma rmatch_lit (ci : bool) (w : jsstring) :
  forall (k : cont) (s : mstate),
    rmatch ci (lit w) k s =
    match eat_lit ci w s with Some s' => k s' | None => None end.
Proof.
  induction w as [|c w IH]; intros k s; simpl; [reflexivity|].
  destruct (ms_rest s) as [|x xs]; [reflexivity|].
  destruct (chr_eq ci c x); [apply IH|reflexivity].
Qed.

Lemma rmatch_seq_lit (ci : bool) (w : jsstring) (r : regex) (k : cont) (s : mstate) :
  rmatch ci (Seq (lit w) r) k s =
  match eat_lit ci w s with Some s' => rmatch ci r k s' | None => None end.
Proof. simpl. apply rmatch_lit. Qed.

Lemma star_loop_S (ma : cont -> cont) (greedy : bool) (k : cont) (f : nat) (s : mstate) :
  star_loop ma greedy k (S f) s =
  if greedy then orelse (ma (progress s (star_loop ma greedy k f)) s) (k s)
  else orelse (k s) (ma (progress s (star_loop ma greedy k f)) s).
Proof. reflexivity. Qed.

Lemma star_loop_unit (ma : cont -> cont) (p : jschar -> bool) (greedy : bool) (k : cont) :
  unit_matcher ma p ->
  forall (rest : jsstring) (prev : option jschar) (caps : list (nat * jsstring)),
    star_loop ma greedy k (S (length rest)) (MS prev rest caps) =
    star_unit p greedy k prev rest caps.
Proof.
  intros Hma. unfold unit_matcher in Hma.
  induction rest as [|x xs IH]; intros prev caps;
    rewrite star_loop_S, !Hma; cbn [ms_rest star_unit].
  - destruct greedy; [reflexivity|apply orelse_none_r].
  - destruct (p x).
    + unfold progress, advance. cbn [ms_rest ms_caps length].
      replace (length xs <? S (length xs)) with true
        by (symmetry; apply Nat.ltb_lt; lia).
      now rewrite IH.
    + destruct greedy; [reflexivity|apply orelse_none_r].
Qed.

Lemma star_cls (ci neg : bool) (items : list citem) (greedy : bool) (k : cont)
      (rest : jsstring) (prev : option jschar) (caps : list (nat * jsstring)) :
  star (rmatch ci (Cls neg items)) greedy k (MS prev rest caps) =
  star_unit (cls_mem ci neg items) greedy k prev rest caps.
Proof.
  unfold star. cbn [ms_rest]. apply star_loop_unit. intros k' s'. reflexivity.
Qed.

Lemma rmatch_star_cls (ci neg : bool) (items : list citem) (greedy : bool)
      (k : cont) (s : mstate) :
  rmatch ci (Rep 0 greedy (Cls neg items)) k s =
  star_unit (cls_mem ci neg items) greedy k (ms_prev s) (ms_rest s) (ms_caps s).
Proof. destruct s. simpl. apply star_cls. Qed.

Lemma cls_mem_ws (ci : bool) (x : jschar) : cls_mem ci false [CSpace] x = is_space x.
Proof. unfold cls_mem; simpl. now rewrite orb_false_r. Qed.

Lemma cls_mem_digit (ci : bool) (x : jschar) : cls_mem ci false [CDigit] x = is_digit x.
Proof. unfold cls_mem; simpl. now rewrite orb_false_r. Qed.

Lemma cls_mem_nondigit (ci : bool) (x : jschar) :
  cls_mem ci true [CDigit] x = negb (is_digit x).
Proof. unfold cls_mem; simpl. now rewrite orb_false_r. Qed.

Lemma star_unit_ext (p q : jschar -> bool) (greedy : bool) (k : cont) :
  (forall x, p x = q x) ->
  forall rest prev caps,
    star_unit p greedy k prev rest caps = star_unit q greedy k prev rest caps.
Proof.
  intros E. induction rest as [|x xs IH]; intros prev caps; simpl; [reflexivity|].
  rewrite E, IH. reflexivity.
Qed.

(** A greedy repetition before a continuation that always succeeds takes the
    whole run. *)
Lemma star_unit_greedy_all (p : jschar -> bool) :
  forall rest prev caps,
    star_unit p true (fun m => Some m) prev rest caps =
    Some (MS (last_run p prev rest) (drop_run p rest) caps).
Proof.
  induction rest as [|x xs IH]; intros prev caps; simpl; [reflexivity|].
  destruct (p x); [|reflexivity]. now rewrite IH.
Qed.

Lemma drop_run_length (p : jschar -> bool) (s : jsstring) :
  length (drop_run p s) <= length s.
Proof.
  induction s as [|x xs IH]; simpl; [lia|]. destruct (p x); simpl; lia.
Qed.

Lemma take_drop_run (p : jschar -> bool) (s : jsstring) :
  take_run p s ++ drop_run p s = s.
Proof.
  induction s as [|x xs IH]; simpl; [reflexivity|].
  destruct (p x); simpl; [now rewrite IH|reflexivity].
Qed.

(** ** Searching and replacing *)

Lemma search_split (ci : bool) (r : regex) :
  forall s prev sk st m,
    search ci r prev s = Some (sk, st, m) -> s = sk ++ st.
Proof.
  induction s as [|c s IH]; intros prev sk st m; simpl.
  - destruct (match_here ci r prev []); intros H; inversion H; reflexivity.
  - destruct (match_here ci r prev (c :: s)).
    + intros H; inversion H; reflexivity.
    + destruct (search ci r (Some c) s) as [[[sk' st'] m']|] eqn:E; [|discriminate].
      intros H; inversion H; subst. simpl. f_equal. eapply IH; eassumption.
Qed.

Lemma search_here (ci : bool) (r : regex) (prev : option jschar) (s : jsstring)
      (m : mstate) :
  match_here ci r prev s = Some m -> search ci r prev s = Some ([], s, m).
Proof. intros H. destruct s; simpl; now rewrite H. Qed.

Lemma search_next (ci : bool) (r : regex) (prev : option jschar) (c : jschar)
      (s : jsstring) :
  match_here ci r prev (c :: s) = None ->
  search ci r prev (c :: s) =
  match search ci r (Some c) s with
  | Some (sk, st, m) => Some (c :: sk, st, m)
  | None => None
  end.
Proof. intros H. simpl. now rewrite H. Qed.

Lemma matched_len_pos (st : jsstring) (m : mstate) :
  Nat.eqb (matched_len st m) 0 = false -> length (ms_rest m) < length st.
Proof. unfold matched_len. intros H. apply Nat.eqb_neq in H. lia. Qed.

Section Replace.
Variables (ci : bool) (r : regex) (repl : jsstring).

(** More fuel than the input is long is as good as any more. *)
Lemma replace_go_fuel :
  forall n s, length s <= n ->
    forall f1 f2 prev, length s < f1 -> length s < f2 ->
      replace_go f1 ci r repl prev s = replace_go f2 ci r repl prev s.
Proof.
  induction n as [|n IH]; intros s Hs f1 f2 prev H1 H2;
    destruct f1 as [|f1]; try lia; destruct f2 as [|f2]; try lia; simpl.
  - destruct s; [|simpl in Hs; lia].
    destruct (search ci r prev []) as [[[sk st] m]|] eqn:E; [|reflexivity].
    apply search_split in E. destruct sk, st; try discriminate.
    unfold matched_len. simpl. reflexivity.
  - destruct (search ci r prev s) as [[[sk st] m]|] eqn:E; [|reflexivity].
    pose proof (search_split _ _ _ _ E) as Hsp.
    assert (Hst : length st <= length s)
      by (rewrite Hsp, length_app; lia).
    f_equal. f_equal.
    destruct (Nat.eqb (matched_len st m) 0) eqn:El.
    + destruct st as [|c st']; [reflexivity|]. f_equal.
      simpl in Hst. apply IH; lia.
    + apply matched_len_pos in El. apply IH; lia.
Qed.

(** Where no match starts at the current unit, the unit is kept. *)
Lemma replace_go_keep (f : nat) (prev : option jschar) (c : jschar) (s : jsstring) :
  match_here ci r prev (c :: s) = None ->
  replace_go (S f) ci r repl prev (c :: s) =
  c :: replace_go (S f) ci r repl (Some c) s.
Proof.
  intros H. cbn [replace_go]. rewrite search_next by exact H.
  destruct (search ci r (Some c) s) as [[[sk st] m]|]; reflexivity.
Qed.

(** Where a non-empty match starts at the current unit, it is replaced. *)
Lemma replace_go_hit (f : nat) (prev : option jschar) (s : jsstring) (m : mstate) :
  match_here ci r prev s = Some m ->
  length (ms_rest m) < length s ->
  replace_go (S f) ci r repl prev s =
  repl ++ replace_go f ci r repl (ms_prev m) (ms_rest m).
Proof.
  intros H Hl. cbn [replace_go]. rewrite (search_here _ _ _ _ H).
  unfold matched_len.
  replace (Nat.eqb (length s - length (ms_rest m)) 0) with false
    by (symmetry; apply Nat.eqb_neq; lia).
  reflexivity.
Qed.
End Replace.

(** ** The fuel of the repetition loop is enough *)

Lemma progress_ext (s : mstate) (k k' : cont) :
  (forall t, k t = k' t) -> forall t, progress s k t = progress s k' t.
Proof. intros H t. unfold progress. now rewrite H. Qed.

(** A matcher that only looks at what its continuation returns. *)
Lemma star_loop_ext (ma : cont -> cont) (greedy : bool) (k k' : cont) :
  (forall h h' s, (forall t, h t = h' t) -> ma h s = ma h' s) ->
  (forall t, k t = k' t) ->
  forall f s, star_loop ma greedy k f s = star_loop ma greedy k' f s.
Proof.
  intros Hma Hk. induction f as [|f IH]; intros s; [reflexivity|].
  rewrite !star_loop_S, Hk.
  now rewrite (Hma _ (progress s (star_loop ma greedy k' f)) s (progress_ext s _ _ IH)).
Qed.

Lemma rep_need_ext (ma : cont -> cont) (body body' : cont) :
  (forall h h' s, (forall t, h t = h' t) -> ma h s = ma h' s) ->
  (forall t, body t = body' t) ->
  forall m s, rep_need ma body m s = rep_need ma body' m s.
Proof.
  intros Hma Hb. induction m as [|m IH]; intros s; cbn [rep_need]; [apply Hb|].
  now apply Hma.
Qed.

Lemma rmatch_ext (ci : bool) (r : regex) :
  forall k k' s, (forall t, k t = k' t) -> rmatch ci r k s = rmatch ci r k' s.
Proof.
  induction r as [|c|neg items|a IHa b IHb|a IHa b IHb|m g a IHa|a IHa|i a IHa| | |];
    intros k k' s H; cbn [rmatch].
  - apply H.
  - destruct (ms_rest s) as [|x xs]; [reflexivity|].
    destruct (chr_eq ci c x); [apply H|reflexivity].
  - destruct (ms_rest s) as [|x xs]; [reflexivity|].
    destruct (cls_mem ci neg items x); [apply H|reflexivity].
  - apply IHa. intros t. now apply IHb.
  - now rewrite (IHa k k' s H), (IHb k k' s H).
  - apply rep_need_ext; [exact IHa|]. intros t. unfold star.
    now apply star_loop_ext.
  - now rewrite (IHa _ _ s (progress_ext s k k' H)), H.
  - apply IHa. intros t. apply H.
  - destruct (at_boundary s); [apply H|reflexivity].
  - destruct (ms_prev s); [reflexivity|apply H].
  - destruct (ms_rest s); [apply H|reflexivity].
Qed.

(** Any fuel above the length of the input gives the loop the same result:
    the loop never stops for lack of fuel. *)
Lemma star_loop_fuel (ci : bool) (a : regex) (greedy : bool) (k : cont) :
  forall n s f1 f2,
    length (ms_rest s) <= n ->
    length (ms_rest s) < f1 -> length (ms_rest s) < f2 ->
    star_loop (rmatch ci a) greedy k f1 s = star_loop (rmatch ci a) greedy k f2 s.
Proof.
  induction n as [|n IH]; intros s f1 f2 Hn H1 H2;
    destruct f1 as [|f1]; try lia; destruct f2 as [|f2]; try lia;
    rewrite !star_loop_S.
  - assert (E : forall f t, progress s (star_loop (rmatch ci a) greedy k f) t = None).
    { intros f t. unfold progress.
      replace (length (ms_rest t) <? length (ms_rest s)) with false; [reflexivity|].
      symmetry. apply Nat.ltb_ge. lia. }
    rewrite (rmatch_ext ci a _ (fun _ => None) s (E f1)).
    rewrite (rmatch_ext ci a _ (fun _ => None) s (E f2)). reflexivity.
  - assert (E : forall t, progress s (star_loop (rmatch ci a) greedy k f1) t =
                          progress s (star_loop (rmatch ci a) greedy k f2) t).
    { intros t. unfold progress.
      destruct (length (ms_rest t) <? length (ms_rest s)) eqn:El; [|reflexivity].
      apply Nat.ltb_lt in El. apply IH; lia. }
    now rewrite (rmatch_ext ci a _ _ s E).
Qed.

(** The same for the search of all matches. *)
Lemma match_all_go_fuel (ci : bool) (r : regex) :
  forall n s, length s <= n ->
    forall f1 f2 prev, length s < f1 -> length s < f2 ->
      match_all_go f1 ci r prev s = match_all_go f2 ci r prev s.
Proof.
  induction n as [|n IH]; intros s Hs f1 f2 prev H1 H2;
    destruct f1 as [|f1]; try lia; destruct f2 as [|f2]; try lia; cbn [match_all_go];
    destruct (search ci r prev s) as [[[sk st] m]|] eqn:E; try reflexivity;
    pose proof (search_split _ _ _ _ E) as Hsp;
    assert (Hst : length st <= length s) by (rewrite Hsp, length_app; lia);
    f_equal;
    destruct (Nat.eqb (matched_len st m) 0) eqn:El.
  - destruct st as [|c st']; [reflexivity|]. simpl in Hst. lia.
  - apply matched_len_pos in El. lia.
  - destruct st as [|c st']; [reflexivity|]. simpl in Hst. apply IH; lia.
  - apply matched_len_pos in El. apply IH; lia.
Qed.


(** The same for splitting: the fuel covers two steps for every unit. *)
Lemma split_go_fuel (ci : bool) (r : regex) :
  forall n cur s,
    2 * length s + (match cur with [] => 0 | _ :: _ => 1 end) <= n ->
    forall f1 f2 prev, n < f1 -> n < f2 ->
      split_go f1 ci r prev cur s = split_go f2 ci r prev cur s.
Proof.
  induction n as [|n IH]; intros cur s Hn f1 f2 prev H1 H2;
    destruct f1 as [|f1]; try lia; destruct f2 as [|f2]; try lia; cbn [split_go];
    destruct s as [|c s']; try reflexivity; cbn [length] in Hn; try lia.
  destruct (match_here ci r prev (c :: s')) as [m|] eqn:E.
  - destruct (Nat.eqb (matched_len (c :: s') m) 0) eqn:El.
    + destruct cur as [|x cur].
      * apply IH; [cbn [length]; lia|lia|lia].
      * f_equal. apply IH; [cbn [length]; lia|lia|lia].
    + apply matched_len_pos in El. cbn [length] in El.
      f_equal. apply IH; [lia|lia|lia].
  - apply IH; [cbn [length]; lia|lia|lia].
Qed.

(** ** clean *)

Lemma rmatch_plus_cls (ci neg : bool) (items : list citem) (greedy : bool)
      (k : cont) (s : mstate) :
  rmatch ci (Rep 1 greedy (Cls neg items)) k s =
  match ms_rest s with
  | x :: xs =>
      if cls_mem ci neg items x
      then star_unit (cls_mem ci neg items) greedy k (Some x) xs (ms_caps s)
      else None
  | [] => None
  end.
Proof.
  cbn [rmatch rep_need]. destruct (ms_rest s) as [|x xs]; [reflexivity|].
  destruct (cls_mem ci neg items x); [|reflexivity].
  unfold advance. apply star_cls.
Qed.

Lemma match_here_ws_run (prev : option jschar) (s : jsstring) :
  match_here false ws_run prev s =
  match s with
  | x :: xs =>
      if is_space x
      then Some (MS (last_run is_space (Some x) xs) (drop_run is_space xs) [])
      else None
  | [] => None
  end.
Proof.
  unfold match_here, ws_run, ws. rewrite rmatch_plus_cls. cbn [ms_rest ms_caps].
  destruct s as [|x xs]; [reflexivity|]. rewrite cls_mem_ws.
  destruct (is_space x); [|reflexivity].
  rewrite star_unit_ext with (q := is_space) by (intros; apply cls_mem_ws).
  apply star_unit_greedy_all.
Qed.

Lemma squeeze_true_drop (s : jsstring) :
  squeeze true s = squeeze false (drop_run is_space s).
Proof.
  induction s as [|c s IH]; simpl; [reflexivity|].
  destruct (is_space c) eqn:E; [exact IH|]. simpl. now rewrite E.
Qed.

(** Replacing every whitespace run by one space is [squeeze]. *)
Lemma replace_ws_run :
  forall n s, length s <= n ->
    forall f prev, length s < f ->
      replace_go f false ws_run (str " ") prev s = squeeze false s.
Proof.
  induction n as [|n IH]; intros s Hs f prev Hf; destruct f as [|f]; try lia.
  - destruct s; [|simpl in Hs; lia]. reflexivity.
  - destruct s as [|c s]; [reflexivity|]. simpl in Hs, Hf.
    pose proof (match_here_ws_run prev (c :: s)) as Hm. cbn [squeeze].
    pose proof (drop_run_length is_space s) as Hd.
    destruct (is_space c) eqn:E; cbn iota in Hm; rewrite E in Hm.
    + erewrite replace_go_hit; [|exact Hm|cbn [ms_rest length]; lia].
      cbn [ms_rest ms_prev]. rewrite IH by lia.
      now rewrite squeeze_true_drop.
    + rewrite replace_go_keep by exact Hm. f_equal. apply IH; lia.
Qed.

Lemma clean_squeeze (s : option jsstring) :
  clean s = trim (squeeze false (match s with Some t => t | None => [] end)).
Proof.
  unfold clean, replace_all. f_equal. eapply replace_ws_run; [apply Nat.le_refl|lia].
Qed.

Lemma squeeze_tidy (s : jsstring) : forall b, tidy b (squeeze b s) = true.
Proof.
  induction s as [|c s IH]; intros b; simpl; [reflexivity|].
  destruct (is_space c) eqn:E.
  - destruct b; [apply IH|]. simpl. apply IH.
  - simpl. rewrite E. apply IH.
Qed.

Lemma tidy_weaken (l : jsstring) : tidy true l = true -> tidy false l = true.
Proof.
  destruct l as [|c l]; simpl; [auto|]. destruct (is_space c); simpl; [discriminate|auto].
Qed.

Lemma tidy_squeeze_fixed (l : jsstring) :
  forall b, tidy b l = true -> squeeze b l = l.
Proof.
  induction l as [|c l IH]; intros b; simpl; [reflexivity|].
  destruct (is_space c) eqn:E.
  - destruct b; simpl; [discriminate|].
    intros H. apply andb_prop in H as [H1 H2]. apply N.eqb_eq in H1. subst c.
    f_equal. now apply IH.
  - intros H. f_equal. now apply IH.
Qed.

Lemma tidy_app_l (a c : jsstring) :
  forall b, tidy b (a ++ c) = true -> tidy b a = true.
Proof.
  induction a as [|x a IH]; intros b; simpl; [reflexivity|].
  destruct (is_space x).
  - intros H. apply andb_prop in H as [H1 H2]. rewrite H1. simpl. now apply IH.
  - apply IH.
Qed.

Lemma tidy_trim_start (l : jsstring) : tidy false l = true -> tidy false (trim_start l) = true.
Proof.
  induction l as [|c l IH]; simpl; [reflexivity|].
  destruct (is_space c) eqn:E.
  - simpl. intros H. apply andb_prop in H as [_ H]. apply IH. now apply tidy_weaken.
  - intros H. simpl. now rewrite E.
Qed.

Lemma tidy_adjacent (l : jsstring) :
  forall b a x y c, tidy b l = true -> l = a ++ x :: y :: c ->
    is_space x = false \/ is_space y = false.
Proof.
  induction l as [|z l IH]; intros b a x y c Ht El.
  - destruct a; discriminate.
  - destruct a as [|z' a]; simpl in El; inversion El; subst.
    + simpl in Ht. destruct (is_space x) eqn:Ex; [|now left].
      apply andb_prop in Ht as [_ Ht]. simpl in Ht.
      destruct (is_space y); [discriminate|now right].
    + simpl in Ht. destruct (is_space z').
      * apply andb_prop in Ht as [_ Ht]. eapply IH; [exact Ht|reflexivity].
      * eapply IH; [exact Ht|reflexivity].
Qed.

(** [trim_start] removes a run of whitespace in front. *)
Lemma trim_start_split (l : jsstring) :
  exists w, l = w ++ trim_start l /\ forallb is_space w = true.
Proof.
  induction l as [|c l [w [Hl Hw]]]; [exists []; auto|].
  simpl. destruct (is_space c) eqn:E.
  - exists (c :: w). simpl. rewrite E, Hw. split; [now f_equal|reflexivity].
  - exists []. auto.
Qed.

Lemma starts_clean_trim_start (l : jsstring) : starts_clean (trim_start l) = true.
Proof.
  induction l as [|c l IH]; simpl; [reflexivity|].
  destruct (is_space c) eqn:E; [exact IH|]. simpl. now rewrite E.
Qed.

Lemma trim_start_fixed (l : jsstring) : starts_clean l = true -> trim_start l = l.
Proof.
  destruct l as [|c l]; simpl; [reflexivity|].
  destruct (is_space c); [discriminate|reflexivity].
Qed.

Lemma starts_clean_app_l (a c : jsstring) :
  starts_clean (a ++ c) = true -> starts_clean a = true.
Proof. destruct a; simpl; auto. Qed.

(** [trim] keeps a middle part of the string. *)
Lemma trim_split (l : jsstring) :
  exists w1 w2, l = w1 ++ trim l ++ w2.
Proof.
  destruct (trim_start_split l) as [w1 [H1 _]].
  destruct (trim_start_split (rev (trim_start l))) as [w2 [H2 _]].
  exists w1, (rev w2). unfold trim. rewrite <- rev_app_distr, <- H2, rev_involutive.
  exact H1.
Qed.

Lemma trim_edge_clean (l : jsstring) : edge_clean (trim l) = true.
Proof.
  unfold edge_clean, trim. rewrite rev_involutive, starts_clean_trim_start, andb_true_r.
  destruct (trim_start_split (rev (trim_start l))) as [w [H _]].
  apply (starts_clean_app_l _ (rev w)).
  rewrite <- rev_app_distr, <- H, rev_involutive. apply starts_clean_trim_start.
Qed.

Lemma trim_fixed (l : jsstring) : edge_clean l = true -> trim l = l.
Proof.
  unfold edge_clean, trim. intros H. apply andb_prop in H as [H1 H2].
  rewrite (trim_start_fixed _ H1), (trim_start_fixed _ H2). apply rev_involutive.
Qed.

Lemma tidy_trim (l : jsstring) : tidy false l = true -> tidy false (trim l) = true.
Proof.
  intros H. apply tidy_trim_start in H.
  destruct (trim_start_split (rev (trim_start l))) as [w [Hw _]].
  apply (tidy_app_l _ (rev w)). unfold trim.
  rewrite <- rev_app_distr, <- Hw, rev_involutive. exact H.
Qed.

Lemma clean_tidy (s : option jsstring) :
  tidy false (clean s) = true /\ edge_clean (clean s) = true.
Proof.
  rewrite clean_squeeze. split; [apply tidy_trim, squeeze_tidy|apply trim_edge_clean].
Qed.

(** C10. [clean] is idempotent, on every string and on null or undefined;
    its result neither begins nor ends with whitespace and has no two
    whitespace characters in a row. *)
Theorem clean_idempotent (s : option jsstring) :
  clean (Some (clean s)) = clean s
  /\ (forall c t, clean s = c :: t -> is_space c = false)
  /\ (forall t c, clean s = t ++ [c] -> is_space c = false)
  /\ (forall a x y b, clean s = a ++ x :: y :: b ->
                      is_space x = false \/ is_space y = false).
Proof.
  destruct (clean_tidy s) as [Ht He].
  repeat split.
  - rewrite (clean_squeeze (Some (clean s))).
    rewrite (tidy_squeeze_fixed _ _ Ht). now apply trim_fixed.
  - intros c t E. rewrite E in He. unfold edge_clean in He.
    apply andb_prop in He as [He _]. simpl in He. now apply negb_true_iff.
  - intros t c E. rewrite E in He. unfold edge_clean in He.
    apply andb_prop in He as [_ He]. rewrite rev_app_distr in He. simpl in He.
    now apply negb_true_iff.
  - intros a x y b E. eapply tidy_adjacent; eassumption.
Qed.

(** ** The quoting of the CSV title *)

Lemma match_here_chr (c : jschar) (prev : option jschar) (s : jsstring) :
  match_here false (Chr c) prev s =
  match s with
  | x :: xs => if (c =? x)%N then Some (MS (Some x) xs []) else None
  | [] => None
  end.
Proof. unfold match_here. cbn [rmatch ms_rest]. now destruct s. Qed.

Lemma replace_chr (c : jschar) (repl : jsstring) :
  forall n s, length s <= n ->
    forall f prev, length s < f ->
      replace_go f false (Chr c) repl prev s =
      flat_map (fun x => if (c =? x)%N then repl else [x]) s.
Proof.
  induction n as [|n IH]; intros s Hs f prev Hf; destruct f as [|f]; try lia.
  - destruct s; [|simpl in Hs; lia]. reflexivity.
  - destruct s as [|x s]; [reflexivity|]. simpl in Hs, Hf.
    pose proof (match_here_chr c prev (x :: s)) as Hm. cbn iota in Hm.
    cbn [flat_map]. destruct (c =? x)%N eqn:E.
    + erewrite replace_go_hit; [|exact Hm|cbn [ms_rest length]; lia].
      cbn [ms_rest ms_prev]. f_equal. apply IH; lia.
    + rewrite replace_go_keep by exact Hm. cbn [app]. f_equal. apply IH; lia.
Qed.

(** [esc] puts the text between double quotes and doubles every double
    quote inside. *)
Lemma esc_doubles (s : jsstring) :
  Main.esc s = dq :: flat_map (fun x => if (dq =? x)%N then [dq; dq] else [x]) s ++ [dq].
Proof.
  unfold Main.esc, replace_all.
  assert (E : or_str s [] = s) by (now destruct s). rewrite E. cbn [app]. f_equal. f_equal.
  eapply replace_chr; [apply Nat.le_refl|lia].
Qed.

(** ** readSkusCsv *)

Lemma cls_mem_letter (x : jschar) :
  cls_mem false false [CRange 65%N 90%N; CRange 97%N 122%N] x = is_letter x.
Proof. unfold cls_mem, is_letter, is_upper, is_lower; simpl. now rewrite orb_false_r. Qed.

Lemma match_here_header (prev : option jschar) (s : jsstring) :
  match_here false Main.header_re prev s =
  match prev, s with
  | None, x :: xs => if is_letter x then Some (MS (Some x) xs []) else None
  | _, _ => None
  end.
Proof.
  unfold match_here, Main.header_re. cbn [rmatch ms_prev ms_rest].
  destruct prev; [reflexivity|]. destruct s as [|x xs]; [reflexivity|].
  now rewrite cls_mem_letter.
Qed.

Lemma search_header_later (s : jsstring) :
  forall c, search false Main.header_re (Some c) s = None.
Proof.
  induction s as [|x s IH]; intros c; cbn [search]; rewrite match_here_header;
    [reflexivity|]. now rewrite IH.
Qed.

Lemma test_header (s : jsstring) :
  test false Main.header_re s = begins_with_ascii_letter s.
Proof.
  unfold test. destruct s as [|x s]; [reflexivity|].
  cbn [search begins_with_ascii_letter]. rewrite match_here_header.
  destruct (is_letter x); [reflexivity|].
  now rewrite search_header_later.
Qed.

Lemma match_here_nondigit (prev : option jschar) (s : jsstring) :
  match_here false Main.nondigit_re prev s =
  match s with
  | x :: xs => if is_digit x then None else Some (MS (Some x) xs [])
  | [] => None
  end.
Proof.
  unfold match_here, Main.nondigit_re. cbn [rmatch ms_rest].
  destruct s as [|x xs]; [reflexivity|]. rewrite cls_mem_nondigit.
  now destruct (is_digit x).
Qed.

(** Deleting every unit that is not a digit is filtering the digits. *)
Lemma replace_nondigit :
  forall n s, length s <= n ->
    forall f prev, length s < f ->
      replace_go f false Main.nondigit_re [] prev s = filter is_digit s.
Proof.
  induction n as [|n IH]; intros s Hs f prev Hf; destruct f as [|f]; try lia.
  - destruct s; [|simpl in Hs; lia]. reflexivity.
  - destruct s as [|c s]; [reflexivity|]. simpl in Hs, Hf.
    pose proof (match_here_nondigit prev (c :: s)) as Hm. cbn iota in Hm.
    cbn [filter]. destruct (is_digit c) eqn:E.
    + rewrite replace_go_keep by exact Hm. f_equal. apply IH; lia.
    + erewrite replace_go_hit; [|exact Hm|cbn [ms_rest length]; lia].
      cbn [ms_rest ms_prev app]. apply IH; lia.
Qed.

Lemma only_digits_filter (t : jsstring) : Main.only_digits t = filter is_digit t.
Proof.
  unfold Main.only_digits, replace_all.
  eapply replace_nondigit; [apply Nat.le_refl|lia].
Qed.

Lemma filter_digits_all (t : jsstring) : forallb is_digit (filter is_digit t) = true.
Proof.
  induction t as [|c t IH]; simpl; [reflexivity|].
  destruct (is_digit c) eqn:E; simpl; [now rewrite E|exact IH].
Qed.

Lemma filter_digits_none (t : jsstring) :
  existsb is_digit t = false -> filter is_digit t = [].
Proof.
  induction t as [|c t IH]; simpl; [reflexivity|].
  destruct (is_digit c); simpl; [discriminate|exact IH].
Qed.

Lemma entry_digits (line t : jsstring) :
  In t (entry line) -> t <> [] /\ forallb is_digit t = true.
Proof.
  unfold entry. rewrite only_digits_filter.
  destruct (test false Main.digits_re (filter is_digit (Main.first_field line))) eqn:E;
    [|intros []].
  intros [<-|[]]. split; [|apply filter_digits_all].
  intros E0. rewrite E0 in E. discriminate E.
Qed.

Lemma filter_map_entries (ls : list jsstring) :
  filter (fun t => test false Main.digits_re t)
         (map Main.only_digits (map Main.first_field ls)) =
  flat_map entry ls.
Proof.
  induction ls as [|l ls IH]; simpl; [reflexivity|]. rewrite IH. unfold entry.
  destruct (test false Main.digits_re (Main.only_digits (Main.first_field l)));
    reflexivity.
Qed.

Lemma readSkusCsv_data (raw : jsstring) :
  Main.readSkusCsv (Some raw) = flat_map entry (data_lines raw).
Proof.
  unfold Main.readSkusCsv, data_lines. rewrite filter_map_entries. f_equal.
  rewrite test_header. destruct (Main.file_lines raw) as [|l ls]; [reflexivity|].
  cbn [hd]. unfold or_str. destruct l as [|c l]; [reflexivity|].
  cbn [truthy begins_with_ascii_letter]. destruct (is_letter c); reflexivity.
Qed.

Lemma data_lines_incl (raw l : jsstring) :
  In l (data_lines raw) -> In l (Main.file_lines raw).
Proof.
  unfold data_lines. destruct (Main.file_lines raw) as [|l0 ls]; [auto|].
  destruct (begins_with_ascii_letter l0); simpl; auto.
Qed.

Lemma letter_not_space (c : jschar) : is_letter c = true -> is_space c = false.
Proof.
  unfold is_letter, is_upper, is_lower, is_space. intros H.
  assert (Hc : (65 <= c <= 122)%N).
  { apply orb_prop in H as [H|H]; apply andb_prop in H as [H1 H2];
      apply N.leb_le in H1, H2; lia. }
  repeat (apply orb_false_intro); try (apply N.eqb_neq; lia).
  apply andb_false_iff. left. apply N.leb_gt. lia.
Qed.

Lemma trim_start_snoc (c : jschar) (a : jsstring) :
  is_space c = false -> exists y, trim_start (a ++ [c]) = y ++ [c].
Proof.
  intros Hc. induction a as [|x a IH]; cbn [app trim_start].
  - rewrite Hc. now exists [].
  - destruct (is_space x); [exact IH|]. now exists (x :: a).
Qed.

(** [trim] keeps a first unit that is not whitespace. *)
Lemma trim_keeps_head (c : jschar) (l : jsstring) :
  is_space c = false -> exists t, trim (c :: l) = c :: t.
Proof.
  intros Hc. unfold trim. cbn [trim_start]. rewrite Hc. cbn [rev].
  destruct (@trim_start_snoc c (rev l) Hc) as [y Hy]. rewrite Hy.
  rewrite rev_app_distr. now exists (rev y).
Qed.

Lemma header_line_skipped (raw line0 : jsstring) (rest : list jsstring) :
  split false Main.newline_re raw = line0 :: rest ->
  begins_with_ascii_letter line0 = true ->
  data_lines raw = filter truthy (map trim rest).
Proof.
  intros Hs Hb. unfold data_lines, Main.file_lines. rewrite Hs. cbn [map filter].
  destruct line0 as [|c l]; [discriminate|]. cbn [begins_with_ascii_letter] in Hb.
  destruct (@trim_keeps_head c l (letter_not_space _ Hb)) as [t Ht]. rewrite Ht.
  cbn [truthy begins_with_ascii_letter]. now rewrite Hb.
Qed.

(** What [readSkusCsv] does, line by line.  Every string it returns is
    non-empty and made of decimal digits.  The result is what the data lines
    add, one by one; a first line of the file that begins with a letter A to
    Z or a to z adds nothing (the result is that of the lines after it), and
    so for the first non-blank line; no data line is blank (each is a
    non-empty trimmed line of the file); and a line adds nothing when the
    field the code cuts off it, after trimming the line, has no digit. *)
Lemma readSkusCsv_entries :
  (forall file t, In t (Main.readSkusCsv file) -> t <> [] /\ forallb is_digit t = true)
  /\ (forall raw, Main.readSkusCsv (Some raw) = flat_map entry (data_lines raw))
  /\ (forall raw line0 rest,
        split false Main.newline_re raw = line0 :: rest ->
        begins_with_ascii_letter line0 = true ->
        Main.readSkusCsv (Some raw) = flat_map entry (filter truthy (map trim rest)))
  /\ (forall raw l ls, Main.file_lines raw = l :: ls -> begins_with_ascii_letter l = true ->
                       Main.readSkusCsv (Some raw) = flat_map entry ls)
  /\ (forall raw l, In l (data_lines raw) ->
        l <> [] /\ trim l = l /\
        exists line, In line (split false Main.newline_re raw) /\ l = trim line)
  /\ (forall l, existsb is_digit (Main.first_field l) = false -> entry l = []).
Proof.
  repeat split.
  - destruct file as [raw|]; [|destruct H].
    rewrite readSkusCsv_data in H. apply in_flat_map in H as [l [_ H]].
    now apply entry_digits in H.
  - destruct file as [raw|]; [|destruct H].
    rewrite readSkusCsv_data in H. apply in_flat_map in H as [l [_ H]].
    now apply entry_digits in H.
  - apply readSkusCsv_data.
  - intros raw line0 rest Hs Hb. rewrite readSkusCsv_data.
    now rewrite (@header_line_skipped raw line0 rest Hs Hb).
  - intros raw l ls Hl Hb. rewrite readSkusCsv_data. unfold data_lines.
    now rewrite Hl, Hb.
  - apply data_lines_incl in H. unfold Main.file_lines in H.
    apply filter_In in H as [_ H]. now destruct l.
  - apply data_lines_incl in H. unfold Main.file_lines in H.
    apply filter_In in H as [H _]. apply in_map_iff in H as [line [<- _]].
    apply trim_fixed, trim_edge_clean.
  - apply data_lines_incl in H. unfold Main.file_lines in H.
    apply filter_In in H as [H _]. apply in_map_iff in H as [line [<- Hin]].
    exists line. auto.
  - intros l H. unfold entry. rewrite only_digits_filter, filter_digits_none by exact H.
    reflexivity.
Qed.

(** C8.  The code breaks the claim on a line that begins with a tab.  The
    file whose only line is a tab followed by 12 has an empty first column
    (a first comma- or tab-separated field without digits), and
    [readSkusCsv] returns 12 for it: every line is trimmed before it is cut
    at commas and tabs, and the tab is whitespace.  The same line with a
    comma in the place of the tab adds nothing, as the claim says.  Likewise
    a heading line is only skipped when its first letter is one of A to Z
    and a to z: after a heading that begins with an accented capital I the
    digit of the heading is returned as a SKU. *)
Theorem readSkusCsv_leading_tab :
  lines_of [] (9%N :: str "12") = [9%N :: str "12"]
  /\ first_column (9%N :: str "12") = []
  /\ Main.readSkusCsv (Some (9%N :: str "12")) = [str "12"]
  /\ first_column (44%N :: str "12") = []
  /\ Main.readSkusCsv (Some (44%N :: str "12")) = []
  /\ Main.readSkusCsv (Some accented_heading_file) = [str "7"; str "123"].
Proof. repeat split; vm_compute; reflexivity. Qed.

(** ** The status fields of the plain-HTML parsers *)

Lemma competencia_of_values (row : jsstring) :
  In (ExtractHtml.competencia_of row)
     [str "Ganando"; str "Perdiendo"; str "Compartiendo primer lugar"; str "SIN_ESTADO"].
Proof.
  unfold ExtractHtml.competencia_of. split_ifs; cbn [In]; auto 6.
Qed.

Lemma operativo_of_values (row : jsstring) :
  In (ExtractHtml.operativo_of row)
     [str "Activa"; str "Pausada"; str "Inactiva"; str "UNKNOWN"].
Proof.
  unfold ExtractHtml.operativo_of. split_ifs; cbn [In]; auto 6.
Qed.

Lemma old_competencia_of_values (row : jsstring) :
  In (ExtractHtmlOld.competencia_of row)
     [str "Ganando"; str "Perdiendo"; str "Compartiendo primer lugar"; str "SIN_ESTADO"].
Proof.
  unfold ExtractHtmlOld.competencia_of. split_ifs; cbn [In]; auto 6.
Qed.

Lemma old_operativo_of_values (row : jsstring) :
  In (ExtractHtmlOld.operativo_of row)
     [str "Activa"; str "Pausada"; str "Inactiva"; str "UNKNOWN"].
Proof.
  unfold ExtractHtmlOld.operativo_of. split_ifs; cbn [In]; auto 6.
Qed.

(** What [parseHtmlForSku] returns, read off its row. *)
Lemma parseHtmlForSku_row (html fallbackSku : jsstring) (r : ParsedRecord) :
  ExtractHtml.parseHtmlForSku html fallbackSku = Some r ->
  exists row,
    sliceRowForSku html fallbackSku = Some row
    /\ estado_competencia r = ExtractHtml.competencia_of row
    /\ estado_operativo r = ExtractHtml.operativo_of row
    /\ titulo r = ExtractHtml.titulo_of row
    /\ sku r = match exec true sku_re row with
               | Some m => cap1 m
               | None => fallbackSku
               end.
Proof.
  unfold ExtractHtml.parseHtmlForSku.
  destruct (sliceRowForSku html fallbackSku) as [row|]; [|discriminate].
  match goal with |- (if ?b then _ else _) = _ -> _ => destruct b end; [|discriminate].
  intros H. inversion H. exists row. repeat split; reflexivity.
Qed.



(** ** The fallback chain of the operational status *)

Lemma operativo_of_tiers (row : jsstring) :
  ExtractHtml.operativo_of row =
  first_of (label_tier row) (class_tier row) (switch_tier row) (str "UNKNOWN").
Proof.
  unfold ExtractHtml.operativo_of, label_tier, class_tier, switch_tier, has_label, first_of.
  cbv zeta. split_ifs; reflexivity.
Qed.

Lemma tier_not_unknown (t : jsstring -> option jsstring) (row x : jsstring) :
  t = label_tier \/ t = class_tier \/ t = switch_tier ->
  t row = Some x -> x <> str "UNKNOWN".
Proof.
  intros [Ht|[Ht|Ht]]; subst t;
    unfold label_tier, class_tier, switch_tier; cbv zeta; split_ifs;
    intros H; inversion H; discriminate.
Qed.



(** ** Case-sensitive patterns covered by ignore-case ones *)

Lemma orelse_succeeds (x y : option mstate) :
  orelse x y <> None <-> x <> None \/ y <> None.
Proof.
  destruct x, y; simpl; split; intros H; try (intuition congruence).
Qed.

Lemma citem_eqb_eq (a b : citem) : citem_eqb a b = true -> a = b.
Proof.
  destruct a, b; simpl; try discriminate; try reflexivity.
  - intros H. apply N.eqb_eq in H. now subst.
  - intros H. apply andb_prop in H as [H1 H2].
    apply N.eqb_eq in H1, H2. now subst.
Qed.

Lemma items_eqb_eq (a : list citem) : forall b, items_eqb a b = true -> a = b.
Proof.
  induction a as [|x a IH]; destruct b as [|y b]; simpl; try discriminate; auto.
  intros H. apply andb_prop in H as [H1 H2].
  apply citem_eqb_eq in H1. apply IH in H2. now subst.
Qed.

Lemma upcase_not_lower (c : jschar) : is_lower (upcase c) = false.
Proof.
  unfold upcase. destruct (is_lower c) eqn:E; [|exact E].
  unfold is_lower in *. apply andb_prop in E as [E1 E2].
  apply N.leb_le in E1, E2. apply andb_false_iff. left. apply N.leb_gt. lia.
Qed.

Lemma upcase_idem (c : jschar) : upcase (upcase c) = upcase c.
Proof. unfold upcase at 1. now rewrite upcase_not_lower. Qed.

Lemma upcase_lower_is_upper (x : jschar) : is_lower x = true -> is_upper (upcase x) = true.
Proof.
  intros E. unfold upcase. rewrite E. unfold is_lower, is_upper in *.
  apply andb_prop in E as [E1 E2]. apply N.leb_le in E1, E2.
  apply andb_true_intro. split; apply N.leb_le; lia.
Qed.

Lemma chr_eq_caseless (c x : jschar) :
  is_letter c = false -> chr_eq true c x = chr_eq false c x.
Proof.
  unfold is_letter, chr_eq. intros H. apply orb_false_elim in H as [Hu Hl].
  unfold upcase at 1. rewrite Hl.
  destruct (is_lower x) eqn:Ex.
  - pose proof (upcase_lower_is_upper _ Ex) as Hup.
    destruct (N.eqb_spec c (upcase x)) as [->|_]; [congruence|].
    destruct (N.eqb_spec c x) as [->|_]; [congruence|reflexivity].
  - unfold upcase. now rewrite Ex.
Qed.

Lemma citem_mem_caseless (it : citem) (x : jschar) :
  caseless it = true -> citem_mem true it x = citem_mem false it x.
Proof.
  destruct it; simpl; try reflexivity; try discriminate.
  intros H. apply chr_eq_caseless. now apply negb_true_iff.
Qed.

Lemma cls_mem_caseless (neg : bool) (items : list citem) (x : jschar) :
  forallb caseless items = true ->
  cls_mem true neg items x = cls_mem false neg items x.
Proof.
  intros H. unfold cls_mem. f_equal.
  induction items as [|it items IH]; simpl in *; [reflexivity|].
  apply andb_prop in H as [H1 H2]. now rewrite citem_mem_caseless, IH.
Qed.

Lemma same_pos_advance (s s' : mstate) (x : jschar) (xs : jsstring) :
  same_pos (advance s x xs) (advance s' x xs).
Proof. split; reflexivity. Qed.

Lemma star_loop_le (ma ma' : cont -> cont) (greedy : bool) (k k' : cont) :
  (forall h h' s s', cont_le h h' -> same_pos s s' -> ma h s <> None -> ma' h' s' <> None) ->
  cont_le k k' ->
  forall f, cont_le (star_loop ma greedy k f) (star_loop ma' greedy k' f).
Proof.
  intros Hma Hk. induction f as [|f IH]; intros s s' Hs; simpl; [congruence|].
  assert (Hp : cont_le (progress s (star_loop ma greedy k f))
                       (progress s' (star_loop ma' greedy k' f))).
  { intros t t' Ht. unfold progress.
    destruct Hs as [_ Hs]. destruct Ht as [Ht1 Ht2]. rewrite Hs, Ht2.
    destruct (length (ms_rest t') <? length (ms_rest s')); [|congruence].
    apply IH. split; assumption. }
  destruct greedy; rewrite !orelse_succeeds; intros [H|H];
    (left + right); (eapply Hma + eapply Hk); eassumption.
Qed.

Lemma rep_need_le (ma ma' : cont -> cont) (body body' : cont) :
  (forall h h' s s', cont_le h h' -> same_pos s s' -> ma h s <> None -> ma' h' s' <> None) ->
  cont_le body body' ->
  forall m, cont_le (rep_need ma body m) (rep_need ma' body' m).
Proof.
  intros Hma Hb. induction m as [|m IH]; simpl; [exact Hb|].
  intros s s' Hs. now apply Hma.
Qed.

Lemma rmatch_covers (r : regex) :
  forall r', covers r r' = true ->
  forall k k' s s', cont_le k k' -> same_pos s s' ->
    rmatch false r k s <> None -> rmatch true r' k' s' <> None.
Proof.
  induction r as [|c|neg items|a IHa b IHb|a IHa b IHb|m g a IHa|a IHa|i a IHa| | |];
    intros r' Hc; destruct r'; simpl in Hc; try discriminate;
    intros k k' s s' Hk Hs; pose proof Hs as [Hs1 Hs2]; cbn [rmatch].
  - now apply Hk.
  - rewrite <- Hs2. destruct (ms_rest s) as [|x xs]; [congruence|].
    unfold chr_eq. destruct (N.eqb_spec c x) as [->|_]; [|congruence].
    rewrite N.eqb_sym, Hc. apply Hk, same_pos_advance.
  - apply andb_prop in Hc as [Hc Hcl]. apply andb_prop in Hc as [Hn Hi].
    apply Bool.eqb_prop in Hn. apply items_eqb_eq in Hi. subst.
    rewrite <- Hs2. destruct (ms_rest s) as [|x xs]; [congruence|].
    rewrite cls_mem_caseless by exact Hcl.
    destruct (cls_mem false neg0 items0 x); [|congruence].
    apply Hk, same_pos_advance.
  - apply andb_prop in Hc as [Ha Hb].
    apply (IHa _ Ha); [|exact Hs]. intros t t' Ht. now apply (IHb _ Hb).
  - apply andb_prop in Hc as [Ha Hb]. rewrite !orelse_succeeds.
    intros [H|H]; [left; eapply (IHa _ Ha)|right; eapply (IHb _ Hb)]; eassumption.
  - apply andb_prop in Hc as [Hc Ha]. apply andb_prop in Hc as [Hm Hg].
    apply Nat.eqb_eq in Hm. apply Bool.eqb_prop in Hg. subst.
    apply rep_need_le; [| |exact Hs].
    + intros h h' t t' Hh Ht. now apply (IHa _ Ha).
    + intros t t' Ht. unfold star. destruct Ht as [Ht1 Ht2]. rewrite Ht2.
      apply star_loop_le; [|exact Hk|split; assumption].
      intros h h' u u' Hh Hu. now apply (IHa _ Ha).
  - rewrite !orelse_succeeds. intros [H|H]; [left|right; now apply (Hk s s')].
    eapply (IHa _ Hc); [|exact Hs|exact H].
    intros t t' Ht. unfold progress. destruct Ht as [Ht1 Ht2]. rewrite Hs2, Ht2.
    destruct (length (ms_rest t') <? length (ms_rest s')); [|congruence].
    apply Hk. split; assumption.
  - eapply (IHa _ Hc); [|exact Hs].
    intros t t' Ht. destruct Ht as [Ht1 Ht2]. apply Hk. split; simpl; assumption.
  - unfold at_boundary. rewrite Hs1, Hs2.
    destruct (xorb _ _); [now apply Hk|congruence].
  - rewrite Hs1. destruct (ms_prev s'); [congruence|now apply Hk].
  - rewrite Hs2. destruct (ms_rest s'); [now apply Hk|congruence].
Qed.

Lemma search_covers (r r' : regex) :
  covers r r' = true ->
  forall s prev, search false r prev s <> None -> search true r' prev s <> None.
Proof.
  intros Hc.
  assert (Hm : forall prev s, match_here false r prev s <> None ->
                              match_here true r' prev s <> None).
  { intros prev s. unfold match_here. apply (rmatch_covers _ _ Hc).
    - intros t t' _ _. congruence.
    - split; reflexivity. }
  induction s as [|c s IH]; intros prev; cbn [search].
  - specialize (Hm prev []). destruct (match_here false r prev []); [|congruence].
    destruct (match_here true r' prev []); [congruence|].
    exfalso. apply Hm; [congruence|reflexivity].
  - specialize (Hm prev (c :: s)).
    destruct (match_here false r prev (c :: s)).
    + destruct (match_here true r' prev (c :: s)); [congruence|].
      exfalso. apply Hm; [congruence|reflexivity].
    + destruct (match_here true r' prev (c :: s)); [congruence|].
      specialize (IH (Some c)).
      destruct (search false r (Some c) s) as [[[? ?] ?]|]; [|congruence].
      destruct (search true r' (Some c) s) as [[[? ?] ?]|]; [congruence|].
      exfalso. apply IH; [congruence|reflexivity].
Qed.

Lemma test_covers (r r' : regex) (s : jsstring) :
  covers r r' = true -> test false r s = true -> test true r' s = true.
Proof.
  intros Hc. unfold test. pose proof (search_covers _ _ Hc s None) as H.
  destruct (search false r None s); [|discriminate].
  destruct (search true r' None s); [reflexivity|].
  exfalso. apply H; [congruence|reflexivity].
Qed.

(** The two chains on the competitive status give the same answer. *)
Lemma competencia_of_agree (row : jsstring) :
  ExtractHtmlOld.competencia_of row = ExtractHtml.competencia_of row.
Proof.
  unfold ExtractHtmlOld.competencia_of, ExtractHtml.competencia_of. cbv zeta.
  pose proof (@test_covers (badge_re (str "GANANDO")) (badge_re (str "Ganando")) row
                           eq_refl) as HG.
  pose proof (@test_covers (badge_re (str "PERDIENDO")) (badge_re (str "Perdiendo")) row
                           eq_refl) as HP.
  destruct (test true (badge_re (str "Ganando")) row).
  - reflexivity.
  - destruct (test false (badge_re (str "GANANDO")) row);
      [specialize (HG eq_refl); discriminate|]. cbn [orb].
    destruct (test true (badge_re (str "Perdiendo")) row).
    + reflexivity.
    + destruct (test false (badge_re (str "PERDIENDO")) row);
        [specialize (HP eq_refl); discriminate|]. cbn [orb].
      destruct (test true compartiendo_re row); [reflexivity|]. cbn [orb].
      reflexivity.
Qed.



(** ** What a successful match says about the input *)

Lemma last_of_app (prev : option jschar) (a b : jsstring) :
  last_of prev (a ++ b) = last_of (last_of prev a) b.
Proof. unfold last_of. apply fold_left_app. Qed.

Lemma last_of_cons (prev : option jschar) (x : jschar) (l : jsstring) :
  last_of prev (x :: l) = last_of (Some x) l.
Proof. reflexivity. Qed.

Lemma eat_lit_sound (ci : bool) (w : jsstring) :
  forall s s', eat_lit ci w s = Some s' ->
    exists w',
      ms_rest s = w' ++ ms_rest s'
      /\ Forall2 (fun c x => chr_eq ci c x = true) w w'
      /\ ms_prev s' = last_of (ms_prev s) w'
      /\ ms_caps s' = ms_caps s.
Proof.
  induction w as [|c w IH]; intros s s'; simpl.
  - intros H. inversion H. subst. exists []. repeat split. constructor.
  - destruct (ms_rest s) as [|x xs] eqn:Er; [discriminate|].
    destruct (chr_eq ci c x) eqn:Ec; [|discriminate].
    intros H. apply IH in H as [w' [H1 [H2 [H3 H4]]]].
    exists (x :: w'). simpl in *. repeat split; auto; now f_equal.
Qed.

Lemma chr_eq_ci_same (w w' : jsstring) :
  Forall2 (fun c x => chr_eq true c x = true) w w' -> ci_same w' w.
Proof.
  unfold ci_same. induction 1 as [|c x w w' H _ IH]; simpl; [reflexivity|].
  unfold chr_eq in H. apply N.eqb_eq in H. now rewrite H, IH.
Qed.

Lemma star_unit_sound (p : jschar -> bool) (greedy : bool) (k : cont) :
  forall rest prev caps m,
    star_unit p greedy k prev rest caps = Some m ->
    exists run tail,
      rest = run ++ tail /\ forallb p run = true
      /\ k (MS (last_of prev run) tail caps) = Some m.
Proof.
  induction rest as [|x xs IH]; intros prev caps m; simpl.
  - intros H. exists [], []. auto.
  - destruct (p x) eqn:Ep.
    + assert (Hrec : star_unit p greedy k (Some x) xs caps = Some m ->
                     exists run tail, x :: xs = run ++ tail /\ forallb p run = true
                       /\ k (MS (last_of prev run) tail caps) = Some m).
      { intros H. apply IH in H as [run [tail [H1 [H2 H3]]]].
        exists (x :: run), tail. simpl. rewrite Ep, H1. auto. }
      assert (Hnow : k (MS prev (x :: xs) caps) = Some m ->
                     exists run tail, x :: xs = run ++ tail /\ forallb p run = true
                       /\ k (MS (last_of prev run) tail caps) = Some m).
      { intros H. exists [], (x :: xs). auto. }
      destruct greedy; intros H; apply orelse_some in H as [H|[_ H]]; auto.
    + intros H. exists [], (x :: xs). auto.
Qed.

Lemma search_sound (ci : bool) (r : regex) :
  forall s prev sk st m,
    search ci r prev s = Some (sk, st, m) ->
    s = sk ++ st /\ match_here ci r (last_of prev sk) st = Some m.
Proof.
  induction s as [|c s IH]; intros prev sk st m; cbn [search].
  - destruct (match_here ci r prev []) eqn:E; intros H; inversion H; subst. auto.
  - destruct (match_here ci r prev (c :: s)) eqn:E.
    + intros H; inversion H; subst. auto.
    + destruct (search ci r (Some c) s) as [[[sk' st'] m']|] eqn:Es; [|discriminate].
      intros H; inversion H; subst. apply IH in Es as [-> Hm]. auto.
Qed.

Lemma forallb_pointwise (p q : jschar -> bool) (l : jsstring) :
  (forall x, p x = q x) -> forallb p l = forallb q l.
Proof. intros E. induction l as [|x l IH]; simpl; [reflexivity|]. now rewrite E, IH. Qed.

Lemma needle_sound (sku : jsstring) (prev : option jschar) (s : jsstring) (m : mstate) :
  match_here true (needle sku) prev s = Some m ->
  exists w gap sku' post,
    s = w ++ gap ++ sku' ++ post
    /\ ci_same w (str "SKU")
    /\ forallb is_space gap = true
    /\ ci_same sku' sku
    /\ boundary prev (hd_error s) = true
    /\ boundary (last_of prev (w ++ gap ++ sku')) (hd_error post) = true.
Proof.
  unfold match_here, needle, seqs. cbn [fold_right].
  cbn [rmatch]. unfold at_boundary at 1. cbn [ms_prev ms_rest].
  fold (boundary prev (hd_error s)).
  destruct (boundary prev (hd_error s)) eqn:Eb; [|discriminate].
  rewrite rmatch_lit.
  destruct (eat_lit true (str "SKU") (MS prev s [])) as [s1|] eqn:E1; [|discriminate].
  apply eat_lit_sound in E1 as [w [Hw1 [Hw2 [Hw3 Hw4]]]]. cbn [ms_rest ms_prev ms_caps] in *.
  cbn [rep_need]. destruct s1 as [prev1 rest1 caps1]. unfold ws. rewrite star_cls.
  intros H. apply star_unit_sound in H as [gap [tail [Hg1 [Hg2 H]]]].
  rewrite rmatch_lit in H.
  destruct (eat_lit true sku _) as [s3|] eqn:E3; [|discriminate].
  apply eat_lit_sound in E3 as [sku' [Hk1 [Hk2 [Hk3 Hk4]]]].
  cbn [ms_rest ms_prev ms_caps] in *.
  destruct (at_boundary s3) eqn:Eb3; [|discriminate].
  exists w, gap, sku', (ms_rest s3).
  repeat split.
  - now rewrite Hw1, Hg1, Hk1.
  - now apply chr_eq_ci_same.
  - rewrite <- Hg2. apply forallb_pointwise. intros x. symmetry. apply cls_mem_ws.
  - now apply chr_eq_ci_same.
  - unfold at_boundary in Eb3. rewrite Hk3, Hw3 in Eb3.
    now rewrite !last_of_app.
Qed.

Lemma test_needle_text (sku row : jsstring) :
  test true (needle sku) row = true -> sku_text_in sku row.
Proof.
  unfold test.
  destruct (search true (needle sku) None row) as [[[sk st] m]|] eqn:E; [|discriminate].
  intros _. apply search_sound in E as [Hrow Hm].
  apply needle_sound in Hm as [w [gap [sku' [post [H1 [H2 [H3 [H4 [H5 H6]]]]]]]]].
  exists sk, w, gap, sku', post. subst st row.
  repeat split; auto.
  rewrite last_of_app. exact H6.
Qed.

Lemma sliceRowForSku_found (html sku row : jsstring) :
  sliceRowForSku html sku = Some row ->
  In row (match_all false row_re html) /\ test true (needle sku) row = true.
Proof.
  unfold sliceRowForSku.
  destruct (find _ _) as [r|] eqn:E; [|discriminate].
  destruct (truthy r); [|discriminate]. intros H; inversion H; subst.
  now apply find_some in E.
Qed.



(** ** The item identifier *)

Lemma chr_eq_refl (ci : bool) (c : jschar) : chr_eq ci c c = true.
Proof. unfold chr_eq. destruct ci; apply N.eqb_refl. Qed.

(** A literal reads itself off the input. *)
Lemma eat_lit_self (ci : bool) (w : jsstring) :
  forall prev rest caps,
    eat_lit ci w (MS prev (w ++ rest) caps) = Some (MS (last_of prev w) rest caps).
Proof.
  induction w as [|c w IH]; intros prev rest caps; simpl; [reflexivity|].
  rewrite chr_eq_refl. unfold advance. simpl. apply IH.
Qed.

Lemma eat_lit_starts (w : jsstring) :
  forall s s', eat_lit true w s = Some s' -> starts_ci w (ms_rest s) = true.
Proof.
  induction w as [|c w IH]; intros s s'; cbn [eat_lit starts_ci]; [reflexivity|].
  destruct (ms_rest s) as [|x xs]; [discriminate|].
  destruct (chr_eq true c x); [|discriminate].
  intros H. apply IH in H. exact H.
Qed.

Lemma eat_lit_starts_app (w1 w2 : jsstring) :
  forall s s1 s2,
    eat_lit true w1 s = Some s1 -> eat_lit true w2 s1 = Some s2 ->
    starts_ci (w1 ++ w2) (ms_rest s) = true.
Proof.
  induction w1 as [|c w IH]; intros s s1 s2; cbn [eat_lit starts_ci app].
  - intros H; inversion H; subst. apply eat_lit_starts.
  - destruct (ms_rest s) as [|x xs]; [discriminate|].
    destruct (chr_eq true c x); [|discriminate].
    intros H1 H2. exact (IH _ _ _ H1 H2).
Qed.

Lemma starts_ci_app_l (a b s : jsstring) :
  starts_ci (a ++ b) s = true -> starts_ci a s = true.
Proof.
  revert s. induction a as [|c a IH]; intros s; cbn [starts_ci app]; [reflexivity|].
  destruct s as [|x s]; [discriminate|].
  intros H. apply andb_prop in H as [H1 H2]. rewrite H1. now apply IH.
Qed.

(** A literal that starts in [a ++ sep :: tail] starts in [a] when [sep]
    is none of its units. *)
Lemma starts_ci_cut (sep : jschar) (tail : jsstring) (w : jsstring) :
  forallb (fun c => negb (chr_eq true c sep)) w = true ->
  forall a, starts_ci w (a ++ sep :: tail) = true -> starts_ci w a = true.
Proof.
  induction w as [|c w IH]; intros Hw a; cbn [starts_ci]; [reflexivity|].
  cbn [forallb] in Hw. apply andb_prop in Hw as [Hc Hw].
  destruct a as [|x a]; cbn [app starts_ci].
  - apply negb_true_iff in Hc. now rewrite Hc.
  - intros H. apply andb_prop in H as [H1 H2]. rewrite H1. now apply IH.
Qed.

Lemma occurs_ci_starts (w s : jsstring) : starts_ci w s = true -> occurs_ci w s = true.
Proof. intros H. destruct s; simpl; rewrite H; reflexivity. Qed.

Lemma occurs_ci_app (w sk st : jsstring) :
  starts_ci w st = true -> occurs_ci w (sk ++ st) = true.
Proof.
  intros H. induction sk as [|c sk IH]; simpl.
  - now apply occurs_ci_starts.
  - rewrite IH. apply orb_true_r.
Qed.

Lemma starts_ci_same (sku : jsstring) :
  forall sku' post, ci_same sku' sku -> starts_ci sku (sku' ++ post) = true.
Proof.
  unfold ci_same. induction sku as [|c sku IH]; intros sku' post H; [reflexivity|].
  destruct sku' as [|x sku']; [discriminate|]. cbn [map] in H. inversion H.
  cbn [app starts_ci]. unfold chr_eq. rewrite H1, N.eqb_refl. now apply IH.
Qed.

(** The text of a SKU in a row has the SKU itself in the row. *)
Lemma sku_text_occurs (sku row : jsstring) :
  sku_text_in sku row -> occurs_ci sku row = true.
Proof.
  intros [pre [w [gap [sku' [post [Hrow [_ [_ [Hs _]]]]]]]]]. subst row.
  rewrite !app_assoc, <- app_assoc. apply occurs_ci_app. now apply starts_ci_same.
Qed.

(** A match of the item pattern starts at a question mark or an ampersand
    followed, in any letter case, by itemId=MLU. *)
Lemma item_match_starts (prev : option jschar) (s : jsstring) (m : mstate) :
  match_here true item_re prev s = Some m ->
  starts_ci (str "?itemId=MLU") s = true \/ starts_ci (str "&itemId=MLU") s = true.
Proof.
  unfold match_here, item_re, seqs. cbn [fold_right]. cbn [rmatch ms_rest].
  destruct s as [|x xs]; [discriminate|].
  assert (Hk : forall c,
             (if chr_eq true c x
              then rmatch true (lit (str "itemId="))
                     (fun s0 =>
                        rmatch true (lit (str "MLU"))
                          (fun s1 =>
                             rep_need (rmatch true digit)
                               (star (rmatch true digit) true
                                  (fun s' =>
                                     if at_boundary
                                          (MS (ms_prev s') (ms_rest s')
                                              (set_cap 1
                                                 (firstn (length (ms_rest s0) - length (ms_rest s'))
                                                         (ms_rest s0))
                                                 (ms_caps s')))
                                     then Some (MS (ms_prev s') (ms_rest s')
                                                   (set_cap 1
                                                      (firstn (length (ms_rest s0) - length (ms_rest s'))
                                                              (ms_rest s0))
                                                      (ms_caps s')))
                                     else None)) 6 s1) s0)
                     (advance (MS prev (x :: xs) []) x xs)
              else None) = Some m ->
             starts_ci (c :: str "itemId=" ++ str "MLU") (x :: xs) = true).
  { intros c. cbn [starts_ci]. destruct (chr_eq true c x); [|discriminate].
    rewrite rmatch_lit.
    destruct (eat_lit true (str "itemId=") _) as [s0|] eqn:E0; [|discriminate].
    rewrite rmatch_lit.
    destruct (eat_lit true (str "MLU") s0) as [s1|] eqn:E1; [|discriminate].
    intros _. apply (eat_lit_starts_app _ _ _ E0 E1). }
  intros H. apply orelse_some in H as [H|[_ H]]; [left|right]; apply Hk in H; exact H.
Qed.

Lemma rep_need_unit (ma : cont -> cont) (p : jschar -> bool) (body : cont) :
  unit_matcher ma p ->
  forall n run prev tail caps,
    n <= length run -> forallb p run = true ->
    rep_need ma body n (MS prev (run ++ tail) caps) =
    body (MS (last_of prev (firstn n run)) (skipn n run ++ tail) caps).
Proof.
  intros Hma. unfold unit_matcher in Hma.
  induction n as [|n IH]; intros run prev tail caps Hn Hp; [reflexivity|].
  destruct run as [|x run]; [simpl in Hn; lia|].
  cbn [rep_need]. rewrite Hma. cbn [ms_rest app forallb] in *.
  apply andb_prop in Hp as [Hx Hp]. rewrite Hx. unfold advance. cbn [ms_caps].
  rewrite IH by (simpl in Hn; auto; lia). reflexivity.
Qed.

(** A greedy repetition stops at the end of the run when the continuation
    succeeds there. *)
Lemma star_unit_greedy_run (p : jschar -> bool) (k : cont) :
  forall run prev tail caps m,
    forallb p run = true ->
    match tail with x :: _ => p x = false | [] => True end ->
    k (MS (last_of prev run) tail caps) = Some m ->
    star_unit p true k prev (run ++ tail) caps = Some m.
Proof.
  induction run as [|x run IH]; intros prev tail caps m Hp Ht Hk.
  - cbn [app]. destruct tail as [|y tail]; cbn [star_unit]; [exact Hk|].
    rewrite Ht. exact Hk.
  - cbn [app star_unit forallb] in *. apply andb_prop in Hp as [Hx Hp]. rewrite Hx.
    rewrite (IH (Some x) tail caps m Hp Ht Hk). reflexivity.
Qed.

Lemma last_of_forall (p : jschar -> bool) (l : jsstring) :
  forall prev, forallb p l = true -> l <> [] ->
    exists x, last_of prev l = Some x /\ p x = true.
Proof.
  induction l as [|x l IH]; intros prev Hp Hl; [congruence|].
  cbn [forallb] in Hp. apply andb_prop in Hp as [Hx Hp].
  destruct l as [|y l]; [exists x; auto|].
  rewrite last_of_cons. apply IH; [exact Hp|congruence].
Qed.

Lemma firstn_sub_app (a b : jsstring) :
  firstn (length (a ++ b) - length b) (a ++ b) = a.
Proof.
  rewrite length_app. replace (length a + length b - length b) with (length a) by lia.
  rewrite firstn_app, Nat.sub_diag, firstn_all. simpl. apply app_nil_r.
Qed.

Lemma is_digit_word (x : jschar) : is_digit x = true -> is_word x = true.
Proof. unfold is_word. now intros ->. Qed.

(** The item pattern at a parameter: the capture is MLU and the digits. *)
Lemma item_match_at (prev : option jschar) (sep : jschar) (ds post : jsstring) :
  (sep = 63 \/ sep = 38)%N ->
  6 <= length ds -> forallb is_digit ds = true ->
  is_word_opt (hd_error post) = false ->
  exists m,
    match_here true item_re prev (sep :: str "itemId=" ++ str "MLU" ++ ds ++ post) = Some m
    /\ get_cap 1 (ms_caps m) = Some (str "MLU" ++ ds).
Proof.
  intros Hsep Hlen Hds Hpost.
  set (input := str "itemId=" ++ str "MLU" ++ ds ++ post).
  assert (HK : exists m,
             rmatch true
               (Seq (lit (str "itemId="))
                    (Seq (Grp 1 (Seq (lit (str "MLU")) (Rep 6 true digit))) (Seq WordB Eps)))
               (fun m => Some m) (MS (Some sep) input []) = Some m
             /\ get_cap 1 (ms_caps m) = Some (str "MLU" ++ ds)).
  { unfold input. rewrite rmatch_seq_lit, eat_lit_self.
    cbn [rmatch ms_rest ms_prev ms_caps]. rewrite rmatch_lit, eat_lit_self.
    rewrite (@rep_need_unit (rmatch true digit) (cls_mem true false [CDigit]));
      [|intros k s; reflexivity|exact Hlen
       |rewrite <- Hds; apply forallb_pointwise; intros x; apply cls_mem_digit].
    unfold star. cbn [ms_rest]. unfold digit.
    rewrite (@star_loop_unit (rmatch true (Cls false [CDigit]))
                             (cls_mem true false [CDigit]))
      by (intros k s; reflexivity).
    eexists. split.
    - apply star_unit_greedy_run.
      + rewrite <- (firstn_skipn 6 ds) in Hds. rewrite forallb_app in Hds.
        apply andb_prop in Hds as [_ Hds]. rewrite <- Hds.
        apply forallb_pointwise. intros x. apply cls_mem_digit.
      + destruct post as [|y post]; [exact I|]. rewrite cls_mem_digit.
        simpl in Hpost. destruct (is_digit y) eqn:Ey; [|reflexivity].
        apply is_digit_word in Ey. congruence.
      + cbn [ms_prev ms_rest ms_caps]. unfold at_boundary. cbn [ms_prev ms_rest].
        match goal with
        | |- context [is_word_opt (last_of (last_of ?p (firstn 6 ds)) (skipn 6 ds))] =>
            assert (Hw : is_word_opt (last_of (last_of p (firstn 6 ds)) (skipn 6 ds)) = true)
        end.
        { rewrite <- last_of_app, firstn_skipn.
          match goal with
          | |- is_word_opt (last_of ?p ds) = true =>
              destruct (@last_of_forall is_digit ds p Hds
                          ltac:(destruct ds; [simpl in Hlen; lia|congruence]))
                as [d [Hd1 Hd2]]
          end.
          rewrite Hd1. simpl. now apply is_digit_word. }
        rewrite Hw, Hpost. reflexivity.
    - cbn [ms_caps set_cap filter get_cap Nat.eqb].
      rewrite (app_assoc (str "MLU") ds post), firstn_sub_app. reflexivity. }
  destruct HK as [m [HK Hcap]]. exists m. split; [|exact Hcap].
  unfold match_here, item_re, seqs. cbn [fold_right].
  change (rmatch true
            (Seq (Alt (Chr 63%N) (Chr 38%N))
               (Seq (lit (str "itemId="))
                  (Seq (Grp 1 (Seq (lit (str "MLU")) (Rep 6 true digit))) (Seq WordB Eps))))
            (fun m0 => Some m0) (MS prev (sep :: input) []))
    with (orelse
            (if chr_eq true 63%N sep
             then rmatch true
                    (Seq (lit (str "itemId="))
                       (Seq (Grp 1 (Seq (lit (str "MLU")) (Rep 6 true digit))) (Seq WordB Eps)))
                    (fun m0 => Some m0) (MS (Some sep) input [])
             else None)
            (if chr_eq true 38%N sep
             then rmatch true
                    (Seq (lit (str "itemId="))
                       (Seq (Grp 1 (Seq (lit (str "MLU")) (Rep 6 true digit))) (Seq WordB Eps)))
                    (fun m0 => Some m0) (MS (Some sep) input [])
             else None)).
  rewrite HK. destruct Hsep as [->| ->]; reflexivity.
Qed.

(** No match of the item pattern starts before the first itemId= text. *)
Lemma item_search_skip (sep : jschar) (tail : jsstring) :
  (sep = 63 \/ sep = 38)%N ->
  forall pre prev,
    occurs_ci (str "itemId=") pre = false ->
    search true item_re prev (pre ++ sep :: tail) =
    match search true item_re (last_of prev pre) (sep :: tail) with
    | Some (sk, st, m) => Some (pre ++ sk, st, m)
    | None => None
    end.
Proof.
  intros Hsep. induction pre as [|c pre IH]; intros prev Hno.
  - cbn [app last_of fold_left].
    destruct (search true item_re prev (sep :: tail)) as [[[sk st] m]|]; reflexivity.
  - cbn [occurs_ci] in Hno. apply orb_false_elim in Hno as [_ Hno].
    assert (Hnone : match_here true item_re prev (c :: pre ++ sep :: tail) = None).
    { destruct (match_here true item_re prev (c :: pre ++ sep :: tail)) as [m|] eqn:E;
        [exfalso|reflexivity].
      assert (Hst : starts_ci (str "itemId=") (pre ++ sep :: tail) = true).
      { apply item_match_starts in E.
        change (str "?itemId=MLU") with (63%N :: str "itemId=" ++ str "MLU") in E.
        change (str "&itemId=MLU") with (38%N :: str "itemId=" ++ str "MLU") in E.
        cbn [starts_ci] in E.
        destruct E as [E|E]; apply andb_prop in E as [_ E];
          now apply starts_ci_app_l in E. }
      apply starts_ci_cut in Hst; [|destruct Hsep as [->| ->]; reflexivity].
      apply occurs_ci_starts in Hst. congruence. }
    cbn [app]. rewrite search_next by exact Hnone. rewrite IH by exact Hno.
    rewrite last_of_cons.
    destruct (search true item_re (last_of (Some c) pre) (sep :: tail))
      as [[[sk st] m]|]; reflexivity.
Qed.

Lemma exec_item_found (pre : jsstring) (sep : jschar) (ds post : jsstring) :
  (sep = 63 \/ sep = 38)%N ->
  6 <= length ds -> forallb is_digit ds = true ->
  is_word_opt (hd_error post) = false ->
  occurs_ci (str "itemId=") pre = false ->
  exists m,
    exec true item_re (pre ++ sep :: str "itemId=" ++ str "MLU" ++ ds ++ post) = Some m
    /\ cap1 m = str "MLU" ++ ds.
Proof.
  intros Hsep Hlen Hds Hpost Hpre. unfold exec.
  rewrite item_search_skip by assumption.
  destruct (@item_match_at (last_of None pre) sep ds post Hsep Hlen Hds Hpost)
    as [m [Hm Hcap]].
  rewrite (search_here _ _ _ _ Hm). eexists. split; [reflexivity|].
  unfold cap1, group. cbn [snd]. now rewrite Hcap.
Qed.

(** The href ?itemId=MLU123456x has the parameter followed by six digits,
    and [pickItemId] returns the empty string on it; the href
    ?itemId=MLU123456 has it too, and [pickItemIdFromHref] of part_001,
    lines 33-37, returns the empty string on it; the href ?ITEMID=mlu123456
    nowhere holds the text ?itemId=MLU or &itemId=MLU, and [pickItemId]
    returns an identifier on it. *)
Lemma item_id_counterexample :
  ExtractDom.pickItemId [Some (str "?itemId=MLU123456x")] <> str "MLU123456"
  /\ ExtractDomRoles.pickItemIdFromHref (Some (str "?itemId=MLU123456")) <> str "MLU123456"
  /\ (includes (str "?ITEMID=mlu123456") (str "?itemId=MLU") = false
      /\ includes (str "?ITEMID=mlu123456") (str "&itemId=MLU") = false
      /\ ExtractDom.pickItemId [Some (str "?ITEMID=mlu123456")] <> []).
Proof. repeat split; vm_compute; discriminate. Qed.

(** The first copy of [pickItemIdFromHref] finds nothing in a well-formed
    parameter, and finds an identifier in a text with backslashes and
    letters d in the place of digits. *)
Lemma escaped_pattern_behaviour :
  ExtractDomRoles.pickItemIdFromHref (Some (str "?itemId=MLU123456")) = []
  /\ ExtractDomRoles.pickItemIdFromHref (Some (str "itemId=MLU\dddddd\b")) = str "MLU\dddddd".
Proof. split; vm_compute; reflexivity. Qed.

(** ** The entry of a data line, in full *)

Lemma test_digits_re (t : jsstring) :
  forallb is_digit t = true -> test false Main.digits_re t = truthy t.
Proof.
  intros Ht. destruct t as [|x xs]; [reflexivity|].
  cbn [forallb] in Ht. apply andb_prop in Ht as [Hx Hxs].
  unfold test. cbn [truthy].
  assert (Hm : match_here false Main.digits_re None (x :: xs) =
               Some (MS (last_of (Some x) xs) [] [])).
  { unfold match_here, Main.digits_re, seqs. cbn [fold_right].
    change (rmatch false (Seq Bol (Seq (Rep 1 true digit) (Seq Eol Eps)))
                   (fun m => Some m) (MS None (x :: xs) []))
      with (rmatch false (Rep 1 true digit) (rmatch false (Seq Eol Eps) (fun m => Some m))
                   (MS None (x :: xs) [])).
    unfold digit. rewrite rmatch_plus_cls. cbn [ms_rest ms_caps].
    rewrite cls_mem_digit, Hx.
    rewrite <- (app_nil_r xs) at 1. apply star_unit_greedy_run.
    - rewrite <- Hxs. apply forallb_pointwise. intros y. apply cls_mem_digit.
    - exact I.
    - reflexivity. }
  now rewrite (search_here _ _ _ _ Hm).
Qed.

(** A data line adds the digits of its first field when there are any, and
    nothing otherwise. *)
Lemma entry_digits_of_field (line : jsstring) :
  entry line =
  match filter is_digit (Main.first_field line) with
  | [] => []
  | t => [t]
  end.
Proof.
  unfold entry. rewrite only_digits_filter, test_digits_re by apply filter_digits_all.
  now destruct (filter is_digit (Main.first_field line)).
Qed.

(** * Further properties of the code *)

(** ** Soundness of the matcher *)

Lemma star_loop_accepts (ma : cont -> cont) (R : mstate -> mstate -> Prop)
      (greedy : bool) (k : cont) :
  (forall h s m, ma h s = Some m -> exists t, R s t /\ h t = Some m) ->
  forall f s m, star_loop ma greedy k f s = Some m ->
                exists n t, iter_rel n R s t /\ k t = Some m.
Proof.
  intros Hma f. induction f as [|f IH]; intros s m H; [discriminate|].
  rewrite star_loop_S in H.
  assert (Hit : ma (progress s (star_loop ma greedy k f)) s = Some m ->
                exists n t, iter_rel n R s t /\ k t = Some m).
  { intros Hi. apply Hma in Hi. destruct Hi as (t & Hst & Hp).
    unfold progress in Hp.
    destruct (length (ms_rest t) <? length (ms_rest s)); [|discriminate].
    apply IH in Hp. destruct Hp as (n & u & Hn & Hk).
    exists (S n), u. split; [|exact Hk]. exists t. now split. }
  assert (Hk0 : k s = Some m -> exists n t, iter_rel n R s t /\ k t = Some m).
  { intros Hk. exists 0, s. now split. }
  destruct greedy; apply orelse_some in H; destruct H as [H|[_ H]]; auto.
Qed.

Lemma rep_need_accepts (ma : cont -> cont) (R : mstate -> mstate -> Prop)
      (body : cont) :
  (forall h s m, ma h s = Some m -> exists t, R s t /\ h t = Some m) ->
  forall n s m, rep_need ma body n s = Some m ->
                exists t, iter_rel n R s t /\ body t = Some m.
Proof.
  intros Hma n. induction n as [|n IH]; intros s m H; cbn [rep_need] in H.
  - exists s. now split.
  - apply Hma in H. destruct H as (t & Hst & H). apply IH in H.
    destruct H as (u & Hn & Hb). exists u. split; [|exact Hb].
    exists t. now split.
Qed.

Lemma iter_rel_app (R : mstate -> mstate -> Prop) (a : nat) :
  forall b s t u, iter_rel a R s t -> iter_rel b R t u -> iter_rel (a + b) R s u.
Proof.
  induction a as [|a IH]; intros b s t u Ha Hb; cbn [iter_rel plus] in *.
  - now subst.
  - destruct Ha as (v & Hv & Ha). exists v. split; [exact Hv|]. eapply IH; eauto.
Qed.

(** Whatever the matcher finds, the pattern accepts. *)
Lemma rmatch_accepts (ci : bool) (r : regex) :
  forall k s m, rmatch ci r k s = Some m ->
                exists t, accepts ci r s t /\ k t = Some m.
Proof.
  induction r as [|c|neg items|a IHa b IHb|a IHa b IHb|mn g a IHa|a IHa|i a IHa| | |];
    intros k s m H; cbn [rmatch accepts] in *.
  - exists s. now split.
  - destruct (ms_rest s) as [|x xs] eqn:E; [discriminate|].
    destruct (chr_eq ci c x) eqn:Ec; [|discriminate].
    exists (advance s x xs). split; [|exact H]. now exists x, xs.
  - destruct (ms_rest s) as [|x xs] eqn:E; [discriminate|].
    destruct (cls_mem ci neg items x) eqn:Ec; [|discriminate].
    exists (advance s x xs). split; [|exact H]. now exists x, xs.
  - apply IHa in H. destruct H as (t & Ha & H). apply IHb in H.
    destruct H as (u & Hb & H). exists u. split; [|exact H]. now exists t.
  - apply orelse_some in H. destruct H as [H|[_ H]].
    + apply IHa in H. destruct H as (t & Ha & H). exists t. auto.
    + apply IHb in H. destruct H as (t & Hb & H). exists t. auto.
  - apply rep_need_accepts with (R := accepts ci a) in H; [|exact IHa].
    destruct H as (t & Hn & H). unfold star in H.
    apply star_loop_accepts with (R := accepts ci a) in H; [|exact IHa].
    destruct H as (n & u & Hu & H). exists u. split; [|exact H].
    exists (mn + n). split; [lia|]. eapply iter_rel_app; eauto.
  - apply orelse_some in H. destruct H as [H|[_ H]].
    + apply IHa in H. destruct H as (t & Ha & H). unfold progress in H.
      destruct (length (ms_rest t) <? length (ms_rest s)); [|discriminate].
      exists t. auto.
    + exists s. auto.
  - apply IHa in H. destruct H as (t & Ha & H).
    eexists. split; [|exact H]. exists t. now split.
  - destruct (at_boundary s) eqn:E; [|discriminate]. exists s. auto.
  - destruct (ms_prev s) eqn:E; [discriminate|]. exists s. auto.
  - destruct (ms_rest s) eqn:E; [|discriminate]. exists s. auto.
Qed.

(** ** Words looked for in a text *)

Lemma eat_lit_is_some (w : jsstring) :
  forall s, (match eat_lit true w s with Some _ => true | None => false end)
            = starts_ci w (ms_rest s).
Proof.
  induction w as [|c w IH]; intros s; cbn [eat_lit starts_ci]; [reflexivity|].
  destruct (ms_rest s) as [|x xs]; [reflexivity|].
  destruct (chr_eq true c x); [|reflexivity].
  rewrite IH. reflexivity.
Qed.

Lemma match_here_lit (w : jsstring) (prev : option jschar) (s : jsstring) :
  (match match_here true (lit w) prev s with Some _ => true | None => false end)
  = starts_ci w s.
Proof.
  unfold match_here. rewrite rmatch_lit.
  change (starts_ci w s) with (starts_ci w (ms_rest (MS prev s []))).
  rewrite <- eat_lit_is_some.
  now destruct (eat_lit true w (MS prev s [])).
Qed.

Lemma search_lit (w : jsstring) :
  forall s prev,
    (match search true (lit w) prev s with Some _ => true | None => false end)
    = occurs_ci w s.
Proof.
  induction s as [|x s IH]; intros prev; cbn [search occurs_ci];
    rewrite <- (match_here_lit w prev).
  - destruct (match_here true (lit w) prev []); reflexivity.
  - destruct (match_here true (lit w) prev (x :: s)); [reflexivity|].
    rewrite <- (IH (Some x)). cbn [orb].
    now destruct (search true (lit w) (Some x) s) as [[[? ?] ?]|].
Qed.

(** Testing a word with the ignore-case flag is looking for it in the
    text, in any letter case. *)
Lemma test_lit (w s : jsstring) : test true (lit w) s = occurs_ci w s.
Proof.
  unfold test. rewrite <- (search_lit w s None).
  now destruct (search true (lit w) None s) as [[[? ?] ?]|].
Qed.

Lemma starts_ci_app_r (a b : jsstring) :
  forall s, starts_ci (a ++ b) s = true -> starts_ci b (skipn (length a) s) = true.
Proof.
  induction a as [|c a IH]; intros s H; cbn [app length skipn starts_ci] in *;
    [exact H|].
  destruct s as [|x s]; [discriminate|].
  apply andb_true_iff in H as [_ H]. now apply IH.
Qed.

Lemma occurs_ci_skipn (w : jsstring) (n : nat) :
  forall s, occurs_ci w (skipn n s) = true -> occurs_ci w s = true.
Proof.
  induction n as [|n IH]; intros s H; [exact H|].
  destruct s as [|x s]; [exact H|].
  cbn [skipn] in H. apply IH in H. cbn [occurs_ci]. rewrite H. apply orb_true_r.
Qed.

(** A text that holds [a ++ b] holds [b]. *)
Lemma occurs_ci_tail (a b : jsstring) :
  forall s, occurs_ci (a ++ b) s = true -> occurs_ci b s = true.
Proof.
  induction s as [|x s IH]; intros H; cbn [occurs_ci] in H;
    apply orb_true_iff in H as [H|H].
  - apply starts_ci_app_r in H. apply occurs_ci_starts in H.
    apply occurs_ci_skipn in H. exact H.
  - discriminate.
  - apply starts_ci_app_r in H. apply occurs_ci_starts in H.
    apply occurs_ci_skipn in H. exact H.
  - cbn [occurs_ci]. rewrite (IH H). apply orb_true_r.
Qed.

Lemma starts_with_app_r (a b : jsstring) :
  forall s, starts_with (a ++ b) s = true -> starts_with b (skipn (length a) s) = true.
Proof.
  induction a as [|c a IH]; intros s H; cbn [app length skipn starts_with] in *;
    [exact H|].
  destruct s as [|x s]; [discriminate|].
  apply andb_true_iff in H as [_ H]. now apply IH.
Qed.

Lemma includes_starts (w s : jsstring) :
  starts_with w s = true -> includes s w = true.
Proof. intros H. destruct s; cbn [includes]; now rewrite H. Qed.

Lemma includes_skipn (w : jsstring) (n : nat) :
  forall s, includes (skipn n s) w = true -> includes s w = true.
Proof.
  induction n as [|n IH]; intros s H; [exact H|].
  destruct s as [|x s]; [exact H|].
  cbn [skipn] in H. apply IH in H. cbn [includes]. rewrite H. apply orb_true_r.
Qed.

Lemma includes_tail (a b : jsstring) :
  forall s, includes s (a ++ b) = true -> includes s b = true.
Proof.
  induction s as [|x s IH]; intros H; cbn [includes] in H;
    apply orb_true_iff in H as [H|H].
  - apply starts_with_app_r in H. apply includes_starts in H.
    apply includes_skipn in H. exact H.
  - discriminate.
  - apply starts_with_app_r in H. apply includes_starts in H.
    apply includes_skipn in H. exact H.
  - cbn [includes]. rewrite (IH H). apply orb_true_r.
Qed.

(** X1.  The operational status read off a text is never Inactiva, in the
    regular-expression version of src/src/extract.ts and in the lower-case
    versions of src/unnamed/part_001 alike: the word activa is looked for
    first, and a text that holds inactiva holds activa.  A text with the
    word inactiva is reported as Activa. *)
Theorem inferOperativo_never_inactiva :
  (forall txt aria, ExtractDom.inferOperativo txt aria <> str "Inactiva")
  /\ (forall toLowerCase txt aria,
         DomText.inferOperativo toLowerCase txt aria <> str "Inactiva")
  /\ (forall txt aria, occurs_ci (str "inactiva") txt = true ->
                       ExtractDom.inferOperativo txt aria = str "Activa")
  /\ (forall toLowerCase txt aria,
         includes (toLowerCase txt) (str "inactiva") = true ->
         DomText.inferOperativo toLowerCase txt aria = str "Activa").
Proof.
  assert (Hre : forall txt, occurs_ci (str "inactiva") txt = true ->
                            occurs_ci (str "activa") txt = true).
  { intros txt. apply (occurs_ci_tail (str "in") (str "activa")). }
  assert (Hin : forall lc, includes lc (str "inactiva") = true ->
                           includes lc (str "activa") = true).
  { intros lc. apply (includes_tail (str "in") (str "activa")). }
  repeat split.
  - intros txt aria. unfold ExtractDom.inferOperativo. rewrite !test_lit.
    destruct (occurs_ci (str "activa") txt) eqn:Ea; [discriminate|].
    destruct (occurs_ci (str "pausada") txt); [discriminate|].
    destruct (occurs_ci (str "inactiva") txt) eqn:Ei.
    + apply Hre in Ei. congruence.
    + destruct aria as [v|]; [|discriminate].
      destruct (jsstring_eqb v (str "true")); [discriminate|].
      destruct (jsstring_eqb v (str "false")); discriminate.
  - intros lower txt aria. unfold DomText.inferOperativo. cbn zeta.
    destruct (includes (lower txt) (str "activa")) eqn:Ea; [discriminate|].
    destruct (includes (lower txt) (str "pausada")); [discriminate|].
    destruct (includes (lower txt) (str "inactiva")) eqn:Ei.
    + apply Hin in Ei. congruence.
    + destruct aria as [v|]; [|discriminate].
      destruct (jsstring_eqb v (str "true")); [discriminate|].
      destruct (jsstring_eqb v (str "false")); discriminate.
  - intros txt aria H. unfold ExtractDom.inferOperativo. rewrite !test_lit.
    now rewrite (Hre _ H).
  - intros lower txt aria H. unfold DomText.inferOperativo. cbn zeta.
    now rewrite (Hin _ H).
Qed.

(** A match attempt that succeeds somewhere makes the search succeed. *)
Lemma search_finds (ci : bool) (r : regex) :
  forall sk prev st m,
    match_here ci r (last_of prev sk) st = Some m ->
    search ci r prev (sk ++ st) <> None.
Proof.
  induction sk as [|c sk IH]; intros prev st m H.
  - cbn [app]. unfold last_of in H. cbn [fold_left] in H.
    rewrite (search_here _ _ _ _ H). discriminate.
  - cbn [app search]. destruct (match_here ci r prev (c :: sk ++ st)); [discriminate|].
    rewrite last_of_cons in H. specialize (IH _ _ _ H).
    destruct (search ci r (Some c) (sk ++ st)) as [[[? ?] ?]|]; [discriminate|].
    now elim IH.
Qed.

Lemma rmatch_seq (ci : bool) (a b : regex) (k : cont) (s : mstate) :
  rmatch ci (Seq a b) k s = rmatch ci a (rmatch ci b k) s.
Proof. reflexivity. Qed.

Lemma rmatch_eps (ci : bool) (k : cont) (s : mstate) : rmatch ci Eps k s = k s.
Proof. reflexivity. Qed.

Lemma test_finds (ci : bool) (r : regex) (sk st : jsstring) (m : mstate) :
  match_here ci r (last_of None sk) st = Some m -> test ci r (sk ++ st) = true.
Proof.
  intros H. apply search_finds in H. unfold test.
  destruct (search ci r None (sk ++ st)); [reflexivity|now elim H].
Qed.

Lemma eat_lit_ci (w : jsstring) :
  forall w' prev rest caps,
    ci_same w' w ->
    eat_lit true w (MS prev (w' ++ rest) caps) = Some (MS (last_of prev w') rest caps).
Proof.
  unfold ci_same.
  induction w as [|c w IH]; intros w' prev rest caps H; destruct w' as [|x w'];
    try discriminate; cbn [map] in H.
  - reflexivity.
  - injection H as Hx Hw. cbn [eat_lit app ms_rest].
    unfold chr_eq. rewrite Hx, N.eqb_refl. unfold advance. cbn [ms_caps].
    rewrite (IH w' (Some x) rest caps Hw). now rewrite last_of_cons.
Qed.

Lemma ci_same_head_not_space (w' : jsstring) (c : jschar) (w rest : jsstring) :
  ci_same w' (c :: w) -> is_letter c = true ->
  match w' ++ rest with x :: _ => is_space x = false | [] => True end.
Proof.
  unfold ci_same. destruct w' as [|x w']; [discriminate|].
  cbn [map app]. intros H Hc. injection H as Hx _.
  apply letter_not_space. unfold upcase in Hx.
  unfold is_letter, is_upper, is_lower in *.
  destruct (N.leb_spec 97 x), (N.leb_spec x 122), (N.leb_spec 97 c),
    (N.leb_spec c 122), (N.leb_spec 65 c), (N.leb_spec c 90),
    (N.leb_spec 65 x), (N.leb_spec x 90);
    cbn [andb orb] in *; try reflexivity; try discriminate; lia.
Qed.

(** The three words with whitespace between them are found by the
    pattern, whatever the whitespace. *)
Lemma compartiendo_text_found (pre w1 g1 w2 g2 w3 post : jsstring) :
  ci_same w1 (str "compartiendo") -> ci_same w2 (str "primer") ->
  ci_same w3 (str "lugar") ->
  g1 <> [] -> forallb is_space g1 = true ->
  g2 <> [] -> forallb is_space g2 = true ->
  test true ExtractDom.compartiendo_text_re
       (pre ++ w1 ++ g1 ++ w2 ++ g2 ++ w3 ++ post) = true.
Proof.
  intros H1 H2 H3 N1 S1 N2 S2.
  destruct g1 as [|x g1]; [now elim N1|]. cbn [forallb] in S1.
  apply andb_true_iff in S1 as [Sx S1].
  destruct g2 as [|y g2]; [now elim N2|]. cbn [forallb] in S2.
  apply andb_true_iff in S2 as [Sy S2].
  assert (Hm : exists m, match_here true ExtractDom.compartiendo_text_re (last_of None pre)
                 (w1 ++ (x :: g1) ++ w2 ++ (y :: g2) ++ w3 ++ post) = Some m).
  { unfold match_here, ExtractDom.compartiendo_text_re, seqs. cbn [fold_right].
    rewrite rmatch_seq_lit, (eat_lit_ci _ _ _ H1).
    rewrite rmatch_seq. unfold ws at 1. rewrite rmatch_plus_cls. cbn [ms_rest ms_caps].
    cbn [app].
    rewrite cls_mem_ws, Sx.
    rewrite (star_unit_ext _ is_space true _ (cls_mem_ws true)).
    eexists. apply star_unit_greedy_run; [exact S1| |].
    { apply (ci_same_head_not_space _ H2). reflexivity. }
    rewrite rmatch_seq_lit, (eat_lit_ci _ _ _ H2).
    rewrite rmatch_seq. unfold ws at 1. rewrite rmatch_plus_cls. cbn [ms_rest ms_caps].
    cbn [app].
    rewrite cls_mem_ws, Sy.
    rewrite (star_unit_ext _ is_space true _ (cls_mem_ws true)).
    apply star_unit_greedy_run; [exact S2| |].
    { apply (ci_same_head_not_space _ H3). reflexivity. }
    rewrite rmatch_seq_lit, (eat_lit_ci _ _ _ H3). reflexivity. }
  destruct Hm as [m Hm]. apply (test_finds _ _ _ _ Hm).
Qed.

Lemma compartiendo_text_starts (prev : option jschar) (s : jsstring) (m : mstate) :
  match_here true ExtractDom.compartiendo_text_re prev s = Some m ->
  starts_ci (str "compartiendo") s = true.
Proof.
  unfold match_here, ExtractDom.compartiendo_text_re, seqs. cbn [fold_right].
  rewrite rmatch_seq_lit.
  destruct (eat_lit true (str "compartiendo") _) as [s1|] eqn:E; [|discriminate].
  intros _. apply eat_lit_starts in E. exact E.
Qed.

Lemma compartiendo_text_occurs (txt : jsstring) :
  test true ExtractDom.compartiendo_text_re txt = true ->
  occurs_ci (str "compartiendo") txt = true.
Proof.
  unfold test.
  destruct (search true ExtractDom.compartiendo_text_re None txt) as [[[sk st] m]|] eqn:E;
    [|discriminate].
  intros _. apply search_sound in E as [-> Hm].
  apply compartiendo_text_starts in Hm. now apply occurs_ci_app.
Qed.

(** X2.  The competitive status read off a text (src/src/extract.ts): the
    word ganando decides before perdiendo, perdiendo before the two signs of
    a shared first place; the three words compartiendo primer lugar count
    with any whitespace between them; a text with none of the words gives
    SIN_ESTADO. *)
Theorem inferCompetencia_precedence (txt : jsstring) :
  (occurs_ci (str "ganando") txt = true ->
   ExtractDom.inferCompetencia txt = str "Ganando")
  /\ (occurs_ci (str "ganando") txt = false ->
      occurs_ci (str "perdiendo") txt = true ->
      ExtractDom.inferCompetencia txt = str "Perdiendo")
  /\ (occurs_ci (str "ganando") txt = false ->
      occurs_ci (str "perdiendo") txt = false ->
      occurs_ci (str "compitiendo") txt = true ->
      ExtractDom.inferCompetencia txt = str "Compartiendo primer lugar")
  /\ (occurs_ci (str "ganando") txt = false ->
      occurs_ci (str "perdiendo") txt = false ->
      forall pre w1 g1 w2 g2 w3 post,
        txt = pre ++ w1 ++ g1 ++ w2 ++ g2 ++ w3 ++ post ->
        ci_same w1 (str "compartiendo") -> ci_same w2 (str "primer") ->
        ci_same w3 (str "lugar") ->
        g1 <> [] -> forallb is_space g1 = true ->
        g2 <> [] -> forallb is_space g2 = true ->
        ExtractDom.inferCompetencia txt = str "Compartiendo primer lugar")
  /\ (occurs_ci (str "ganando") txt = false ->
      occurs_ci (str "perdiendo") txt = false ->
      occurs_ci (str "compitiendo") txt = false ->
      occurs_ci (str "compartiendo") txt = false ->
      ExtractDom.inferCompetencia txt = str "SIN_ESTADO").
Proof.
  unfold ExtractDom.inferCompetencia. rewrite !test_lit.
  repeat split.
  - now intros ->.
  - now intros -> ->.
  - intros -> -> ->. now rewrite orb_true_r.
  - intros -> -> pre w1 g1 w2 g2 w3 post -> H1 H2 H3 N1 S1 N2 S2.
    now rewrite (compartiendo_text_found pre post H1 H2 H3 N1 S1 N2 S2).
  - intros -> -> -> H.
    destruct (test true ExtractDom.compartiendo_text_re txt) eqn:E; [|reflexivity].
    apply compartiendo_text_occurs in E. congruence.
Qed.

(** ** pickTitle *)

Lemma match_here_action (prev : option jschar) (s : jsstring) :
  (match match_here true DomText.action_re prev s with Some _ => true | None => false end)
  = match prev with None => action_label s | Some _ => false end.
Proof.
  unfold match_here, DomText.action_re. rewrite rmatch_seq.
  cbn [rmatch ms_prev]. destruct prev as [c|]; [reflexivity|].
  rewrite !rmatch_lit. unfold action_label.
  pose proof (eat_lit_is_some (str "modificar") (MS None s [])) as E1.
  pose proof (eat_lit_is_some (str "ir a promociones") (MS None s [])) as E2.
  cbn [ms_rest] in E1, E2. rewrite <- E1, <- E2.
  destruct (eat_lit true (str "modificar") (MS None s [])); [reflexivity|].
  destruct (eat_lit true (str "ir a promociones") (MS None s [])); reflexivity.
Qed.

Lemma search_action_later (s : jsstring) :
  forall c, search true DomText.action_re (Some c) s = None.
Proof.
  induction s as [|x s IH]; intros c; cbn [search];
    pose proof (match_here_action (Some c)) as H.
  - specialize (H []). now destruct (match_here true DomText.action_re (Some c) []).
  - specialize (H (x :: s)).
    destruct (match_here true DomText.action_re (Some c) (x :: s)); [discriminate|].
    now rewrite IH.
Qed.

Lemma test_action (t : jsstring) : test true DomText.action_re t = action_label t.
Proof.
  unfold test. pose proof (match_here_action None t) as H.
  destruct t as [|x t]; cbn [search].
  - now destruct (match_here true DomText.action_re None []).
  - destruct (match_here true DomText.action_re None (x :: t)); [exact H|].
    now rewrite search_action_later.
Qed.

Lemma insert_longer_hd (x : jsstring) (l : list jsstring) :
  hd [] (insert_by DomText.longer_first x l) =
  match l with
  | [] => x
  | y :: _ => if length y <=? length x then x else y
  end.
Proof.
  destruct l as [|y l]; [reflexivity|]. cbn [insert_by].
  unfold DomText.longer_first.
  destruct (Nat.leb_spec (length y) (length x)) as [H|H].
  - replace (Z.of_nat (length y) - Z.of_nat (length x) <=? 0)%Z with true;
      [reflexivity|]. symmetry. apply Z.leb_le. lia.
  - replace (Z.of_nat (length y) - Z.of_nat (length x) <=? 0)%Z with false;
      [reflexivity|]. symmetry. apply Z.leb_gt. lia.
Qed.

Lemma sort_by_nil_inv (A : Type) (cmp : A -> A -> Z) (l : list A) :
  sort_by cmp l = [] -> l = [].
Proof.
  destruct l as [|x l]; [reflexivity|]. cbn [sort_by fold_right].
  fold (sort_by cmp l). destruct (sort_by cmp l) as [|y s]; cbn [insert_by];
    [discriminate|]. destruct (cmp x y <=? 0)%Z; discriminate.
Qed.

(** The first element of the array sorted by falling length is the first
    of the longest elements. *)
Lemma sort_longer_hd (l : list jsstring) :
  l <> [] ->
  exists pre post,
    l = pre ++ hd [] (sort_by DomText.longer_first l) :: post
    /\ Forall (fun t => length t < length (hd [] (sort_by DomText.longer_first l))) pre
    /\ Forall (fun t => length t <= length (hd [] (sort_by DomText.longer_first l))) post.
Proof.
  induction l as [|x l IH]; intros Hne; [now elim Hne|].
  cbn [sort_by fold_right]. fold (sort_by DomText.longer_first l).
  rewrite insert_longer_hd.
  destruct l as [|y l'].
  - exists [], []. cbn. repeat split; constructor.
  - destruct IH as (pre & post & Hl & Hpre & Hpost); [discriminate|].
    set (srt := sort_by DomText.longer_first (y :: l')) in *.
    destruct srt as [|z srt'] eqn:Es.
    { apply sort_by_nil_inv in Es. discriminate. }
    cbn [hd] in *.
    destruct (Nat.leb_spec (length z) (length x)) as [H|H].
    + exists [], (y :: l'). cbn [app]. repeat split; [constructor|].
      rewrite Hl. apply Forall_app. split.
      * eapply Forall_impl; [|exact Hpre]. cbn beta. intros; lia.
      * constructor; [exact H|].
        eapply Forall_impl; [|exact Hpost]. cbn beta. intros; lia.
    + exists (x :: pre), post. cbn [app]. rewrite <- Hl.
      repeat split; [|exact Hpost]. constructor; [exact H|exact Hpre].
Qed.

(** X3.  [pickTitle] returns the first of the longest link texts that are,
    once cleaned, neither empty nor an action label (a text beginning with
    Modificar or Ir a promociones in any letter case), and the empty string
    when there is none; its result is therefore never an action label. *)
Theorem pickTitle_first_longest (candidates : list jsstring) :
  (title_candidates candidates = [] -> DomText.pickTitle candidates = [])
  /\ (title_candidates candidates <> [] ->
      exists pre post,
        title_candidates candidates = pre ++ DomText.pickTitle candidates :: post
        /\ Forall (fun t => length t < length (DomText.pickTitle candidates)) pre
        /\ Forall (fun t => length t <= length (DomText.pickTitle candidates)) post)
  /\ action_label (DomText.pickTitle candidates) = false
  /\ (DomText.pickTitle candidates <> [] ->
      exists c, In c candidates /\ DomText.pickTitle candidates = clean (Some c)).
Proof.
  assert (Hf : filter (fun t => negb (test true DomText.action_re t))
                      (filter truthy (map (fun c => clean (Some c)) candidates))
               = title_candidates candidates).
  { unfold title_candidates. apply filter_ext. intros t. now rewrite test_action. }
  assert (Hnil : title_candidates candidates = [] -> DomText.pickTitle candidates = []).
  { intros H. unfold DomText.pickTitle. cbn zeta. rewrite Hf, H. reflexivity. }
  assert (Hcons : title_candidates candidates <> [] ->
                  DomText.pickTitle candidates
                  = hd [] (sort_by DomText.longer_first (title_candidates candidates))
                  /\ In (DomText.pickTitle candidates) (title_candidates candidates)).
  { intros H. unfold DomText.pickTitle. cbn zeta. rewrite Hf.
    destruct (sort_longer_hd H) as (pre & post & Hl & _ & _).
    set (r := hd [] (sort_by DomText.longer_first (title_candidates candidates))) in *.
    assert (Hin : In r (title_candidates candidates)).
    { rewrite Hl. apply in_or_app. right. now left. }
    assert (Ht : truthy r = true).
    { unfold title_candidates in Hin. apply filter_In in Hin as [Hin _].
      now apply filter_In in Hin as [_ Hin]. }
    unfold or_str. rewrite Ht. now split. }
  split; [exact Hnil|]. split; [|split].
  - intros H. destruct (Hcons H) as [-> _]. apply (sort_longer_hd H).
  - destruct (title_candidates candidates) as [|t ts] eqn:E.
    + now rewrite Hnil.
    + destruct Hcons as [_ Hin]; [discriminate|].
      rewrite <- E in Hin. unfold title_candidates in Hin.
      apply filter_In in Hin as [_ Hin]. now apply negb_true_iff in Hin.
  - intros Hne. destruct (title_candidates candidates) as [|t ts] eqn:E.
    + now rewrite Hnil in Hne.
    + destruct Hcons as [_ Hin]; [discriminate|].
      rewrite <- E in Hin. unfold title_candidates in Hin.
      apply filter_In in Hin as [Hin _]. apply filter_In in Hin as [Hin _].
      apply in_map_iff in Hin as (c & Hc & Hin). exists c. now split.
Qed.

(** ** Escaping of the title cell *)

Lemma replace_all_chr (c : jschar) (repl s : jsstring) :
  replace_all false (Chr c) repl s
  = flat_map (fun x => if (c =? x)%N then repl else [x]) s.
Proof. unfold replace_all. apply replace_chr with (n := length s); lia. Qed.

Lemma escape_angle_flat (s : jsstring) :
  escape_angle s
  = flat_map (fun x => if (60 =? x)%N then str "&lt;"
                       else if (62 =? x)%N then str "&gt;" else [x]) s.
Proof.
  unfold escape_angle. rewrite !replace_all_chr.
  induction s as [|x s IH]; [reflexivity|].
  cbn [flat_map]. rewrite flat_map_app. f_equal; [|exact IH].
  destruct (60 =? x)%N; [reflexivity|]. cbn [flat_map]. now rewrite app_nil_r.
Qed.

(** ** Units of an encoded address *)

Lemma some_eq (A : Type) (a b : A) : Some a = Some b -> a = b.
Proof. congruence. Qed.

Lemma unreserved_keeps_field (c : jschar) :
  uri_unreserved c = true -> breaks_field c = false.
Proof.
  intros H. destruct (breaks_field c) eqn:E; [|reflexivity].
  unfold breaks_field in E. cbn [existsb] in E.
  repeat (apply orb_true_iff in E; destruct E as [E|E];
          [apply N.eqb_eq in E; subst c; vm_compute in H; discriminate|]).
  discriminate.
Qed.

Lemma hex_digit_keeps_field (n : N) : breaks_field (hex_digit n) = false.
Proof.
  destruct (breaks_field (hex_digit n)) eqn:E; [|reflexivity].
  unfold breaks_field in E. cbn [existsb] in E. unfold hex_digit in E.
  destruct (N.ltb_spec n 10);
    repeat (apply orb_true_iff in E; destruct E as [E|E];
            [apply N.eqb_eq in E; lia|]);
    discriminate.
Qed.

Lemma pct_keeps_field (l : list N) :
  forallb (fun c => negb (breaks_field c)) (flat_map pct l) = true.
Proof.
  induction l as [|b l IH]; [reflexivity|].
  cbn [flat_map]. rewrite forallb_app, IH. unfold pct. cbn [forallb].
  now rewrite !hex_digit_keeps_field.
Qed.

Lemma encode_keeps_field :
  forall n s e, length s <= n -> encodeURIComponent s = Some e ->
                forallb (fun c => negb (breaks_field c)) e = true.
Proof.
  induction n as [|n IH]; intros s e Hn H.
  - destruct s; [|cbn in Hn; lia]. cbn in H. now injection H as <-.
  - destruct s as [|c s]; [cbn in H; now injection H as <-|].
    cbn [length] in Hn. cbn [encodeURIComponent] in H.
    destruct (uri_unreserved c) eqn:Eu.
    { destruct (encodeURIComponent s) as [e'|] eqn:Ee; [|discriminate].
      cbn [option_map] in H. injection H as <-. cbn [forallb].
      rewrite (unreserved_keeps_field _ Eu). cbn [negb andb].
      apply (IH s); [lia|exact Ee]. }
    destruct (low_surrogate c); [discriminate|].
    destruct (high_surrogate c).
    + destruct s as [|d s]; [discriminate|].
      destruct (low_surrogate d); [|discriminate].
      destruct (encodeURIComponent s) as [e'|] eqn:Ee; [|discriminate].
      cbn [option_map] in H. injection H as <-.
      rewrite forallb_app, pct_keeps_field. cbn [andb].
      apply (IH s); [cbn [length] in Hn; lia|exact Ee].
    + destruct (encodeURIComponent s) as [e'|] eqn:Ee; [|discriminate].
      cbn [option_map] in H. injection H as <-.
      rewrite forallb_app, pct_keeps_field. cbn [andb].
      apply (IH s); [lia|exact Ee].
Qed.

(** X4.  The title cell of the report tables never holds an angle bracket:
    [escape_angle] replaces every one of them, and leaves a text without
    angle brackets as it is. *)
Theorem escape_angle_no_brackets (s : jsstring) :
  forallb (fun c => negb (is_angle c)) (escape_angle s) = true
  /\ (forallb (fun c => negb (is_angle c)) s = true -> escape_angle s = s).
Proof.
  rewrite escape_angle_flat. split.
  - induction s as [|x s IH]; [reflexivity|].
    cbn [flat_map]. rewrite forallb_app, IH, andb_true_r.
    destruct (N.eqb_spec 60 x) as [E|E]; [reflexivity|].
    destruct (N.eqb_spec 62 x) as [E'|E']; [reflexivity|].
    cbn [forallb]. unfold is_angle.
    destruct (N.eqb_spec x 60); [congruence|].
    destruct (N.eqb_spec x 62); [congruence|]. reflexivity.
  - induction s as [|x s IH]; [reflexivity|].
    cbn [forallb flat_map]. intros H. apply andb_true_iff in H as [Hx H].
    rewrite (IH H). unfold is_angle in Hx.
    destruct (N.eqb_spec 60 x) as [E|E].
    { subst x. discriminate. }
    destruct (N.eqb_spec 62 x) as [E'|E']; [|reflexivity].
    subst x. discriminate.
Qed.

(** X5.  The editor address of an item, in the main script and in the
    report module, holds no tab, line break, space, double quote, comma or
    angle bracket, whatever the item id: it cannot end the CSV field or the
    href attribute it is written into. *)
Theorem itemUrl_keeps_field (itemId url : jsstring) :
  (Main.itemUrl itemId = Some url ->
   forallb (fun c => negb (breaks_field c)) url = true)
  /\ (Report.itemUrl itemId = Some url ->
      forallb (fun c => negb (breaks_field c)) url = true).
Proof.
  unfold Main.itemUrl, Report.itemUrl. split; intros H.
  - destruct (truthy itemId); [|now injection H as <-].
    destruct (encodeURIComponent itemId) as [e|] eqn:E; [|discriminate].
    cbn [option_map] in H. apply some_eq in H. subst url.
    rewrite !forallb_app. rewrite (@encode_keeps_field _ _ _ (le_n _) E).
    reflexivity.
  - destruct (truthy itemId); [|now injection H as <-].
    destruct (encodeURIComponent itemId) as [e|] eqn:E; [|discriminate].
    cbn [option_map] in H. apply some_eq in H. subst url.
    rewrite !forallb_app. rewrite (@encode_keeps_field _ _ _ (le_n _) E).
    reflexivity.
Qed.

(** ** The quoted title of a CSV line *)

Lemma read_quoted_body_doubled (t rest : jsstring) :
  match rest with d :: _ => d <> dq | [] => True end ->
  read_quoted_body
    (flat_map (fun x => if (dq =? x)%N then [dq; dq] else [x]) t ++ [dq] ++ rest)
  = Some (t, rest).
Proof.
  intros Hrest. induction t as [|x t IH].
  - cbn [flat_map app read_quoted_body]. rewrite N.eqb_refl.
    destruct rest as [|d rest]; [reflexivity|].
    destruct (N.eqb_spec d dq); [contradiction|reflexivity].
  - cbn [flat_map]. rewrite <- app_assoc.
    destruct (N.eqb_spec dq x) as [E|E].
    + subst x. cbn [app read_quoted_body]. rewrite N.eqb_refl.
      cbn [app] in IH. rewrite IH. reflexivity.
    + cbn [app read_quoted_body].
      destruct (N.eqb_spec x dq); [congruence|].
      cbn [app] in IH. rewrite IH. reflexivity.
Qed.

(** ** Lists of addresses *)

Lemma split_on_cur (sep : jschar) (s : jsstring) :
  forall cur,
    split_on sep cur s
    = (rev cur ++ hd [] (split_on sep [] s)) :: tl (split_on sep [] s).
Proof.
  induction s as [|c s IH]; intros cur; cbn [split_on].
  - cbn. now rewrite app_nil_r.
  - destruct (c =? sep)%N.
    + cbn. now rewrite app_nil_r.
    + rewrite (IH (c :: cur)), (IH [c]). cbn [rev hd tl app].
      now rewrite <- app_assoc.
Qed.

Lemma split_on_app (sep : jschar) (a : jsstring) :
  ~ In sep a ->
  forall rest, split_on sep [] (a ++ sep :: rest) = a :: split_on sep [] rest.
Proof.
  intros Ha rest. rewrite <- (rev_involutive a) at 2.
  rewrite <- (app_nil_l (a ++ sep :: rest)).
  change (@nil jschar) with (rev (@nil jschar)) at 1.
  assert (H : forall cur, split_on sep cur (a ++ sep :: rest)
                          = (rev cur ++ a) :: split_on sep [] rest).
  { induction a as [|x a IH]; intros cur.
    - cbn [app split_on]. rewrite N.eqb_refl. now rewrite app_nil_r.
    - cbn [app split_on]. destruct (N.eqb_spec x sep) as [E|E].
      + exfalso. apply Ha. now left.
      + rewrite IH; [|intros Hin; apply Ha; now right].
        cbn [rev]. now rewrite <- app_assoc. }
  cbn [rev app]. rewrite (H []). cbn [rev app]. now rewrite rev_involutive.
Qed.

Lemma split_on_plain (sep : jschar) (a : jsstring) :
  ~ In sep a -> split_on sep [] a = [a].
Proof.
  intros Ha.
  assert (H : forall cur, split_on sep cur a = [rev cur ++ a]).
  { induction a as [|x a IH]; intros cur.
    - cbn. now rewrite app_nil_r.
    - cbn [split_on]. destruct (N.eqb_spec x sep) as [E|E].
      + exfalso. apply Ha. now left.
      + rewrite IH; [|intros Hin; apply Ha; now right].
        cbn [rev]. now rewrite <- app_assoc. }
  apply (H []).
Qed.

(** Splitting at the separator undoes joining with it. *)
Lemma split_on_join (sep : jschar) (l : list jsstring) :
  l <> [] -> Forall (fun a => ~ In sep a) l ->
  split_on sep [] (join [sep] l) = l.
Proof.
  induction l as [|a l IH]; intros Hne Hl; [now elim Hne|].
  inversion Hl as [|? ? Ha Hl']; subst.
  destruct l as [|b l].
  - cbn [join]. now apply split_on_plain.
  - change (join [sep] (a :: b :: l)) with (a ++ [sep] ++ join [sep] (b :: l)).
    cbn [app]. rewrite split_on_app by exact Ha. f_equal. apply IH; [discriminate|exact Hl'].
Qed.

Lemma split_on_no_sep (sep : jschar) (s : jsstring) :
  forall cur a, ~ In sep cur -> In a (split_on sep cur s) -> ~ In sep a.
Proof.
  induction s as [|c s IH]; intros cur a Hc Ha; cbn [split_on] in Ha.
  - destruct Ha as [<-|[]]. now rewrite <- in_rev.
  - destruct (N.eqb_spec c sep) as [E|E].
    + destruct Ha as [<-|Ha]; [now rewrite <- in_rev|].
      apply (IH [] a); [intros []|exact Ha].
    + apply (IH (c :: cur) a); [|exact Ha].
      intros [->|H]; [now elim E|now apply Hc].
Qed.

Lemma trim_incl (l : jsstring) (c : jschar) : In c (trim l) -> In c l.
Proof.
  destruct (trim_split l) as (w1 & w2 & H). intros Hin. rewrite H.
  apply in_or_app. right. apply in_or_app. now left.
Qed.

Lemma trimmed_entries_fixed (l : list jsstring) :
  Forall (fun a => a <> [] /\ edge_clean a = true /\ ~ In 44%N a) l ->
  filter truthy (map trim l) = l.
Proof.
  induction 1 as [|x xs (Hx & He & _) _ IH]; [reflexivity|].
  cbn [map filter]. rewrite trim_fixed by exact He.
  destruct x as [|c x]; [now elim Hx|]. cbn [truthy]. now rewrite IH.
Qed.

(** ** Counting maps *)

Lemma jsstring_eqb_eq (a b : jsstring) : jsstring_eqb a b = true <-> a = b.
Proof.
  unfold jsstring_eqb. destruct (list_eq_dec N.eq_dec a b); split; congruence.
Qed.

Lemma jsstring_eqb_refl (a : jsstring) : jsstring_eqb a a = true.
Proof. now apply jsstring_eqb_eq. Qed.

Lemma map_get_set (m : Main.CountMap) (k k' : jsstring) (v : nat) :
  Main.map_get (Main.map_set m k v) k'
  = if jsstring_eqb k k' then Some v else Main.map_get m k'.
Proof.
  induction m as [|[k0 v0] m IH]; cbn [Main.map_set Main.map_get].
  - reflexivity.
  - destruct (jsstring_eqb k0 k) eqn:E0; cbn [Main.map_get].
    + apply jsstring_eqb_eq in E0. subst k0.
      now destruct (jsstring_eqb k k').
    + rewrite IH. destruct (jsstring_eqb k0 k') eqn:E1; [|reflexivity].
      apply jsstring_eqb_eq in E1. subst k0.
      destruct (jsstring_eqb k k') eqn:E2; [|reflexivity].
      apply jsstring_eqb_eq in E2. subst k'. now rewrite jsstring_eqb_refl in E0.
Qed.

Lemma sum_values_bump (m : Main.CountMap) (k : jsstring) :
  sum_values (Main.map_set m k (Main.or_zero (Main.map_get m k) + 1))
  = sum_values m + 1.
Proof.
  induction m as [|[k0 v0] m IH]; cbn [Main.map_set Main.map_get]; [reflexivity|].
  destruct (jsstring_eqb k0 k); cbn [sum_values fold_right snd Main.or_zero].
  - fold (sum_values m). lia.
  - fold (sum_values (Main.map_set m k (Main.or_zero (Main.map_get m k) + 1))).
    fold (sum_values m). rewrite IH. lia.
Qed.

Lemma count_fold_get (key : Main.RowWithTs -> jsstring) (rows : list Main.RowWithTs) :
  forall m s,
    Main.map_get (fold_left (count_step key) rows m) s
    = match length (filter (fun r => jsstring_eqb (key r) s) rows) with
      | O => Main.map_get m s
      | S n => Some (Main.or_zero (Main.map_get m s) + S n)
      end.
Proof.
  induction rows as [|r rows IH]; intros m s; cbn [fold_left filter]; [reflexivity|].
  rewrite IH. unfold count_step. rewrite map_get_set.
  destruct (jsstring_eqb (key r) s) eqn:E; cbn [length].
  - apply jsstring_eqb_eq in E. rewrite E.
    destruct (length _); cbn [Main.or_zero]; f_equal; lia.
  - reflexivity.
Qed.

Lemma count_fold_sum (key : Main.RowWithTs -> jsstring) (rows : list Main.RowWithTs) :
  forall m, sum_values (fold_left (count_step key) rows m) = sum_values m + length rows.
Proof.
  induction rows as [|r rows IH]; intros m; cbn [fold_left length]; [lia|].
  rewrite IH. unfold count_step. rewrite sum_values_bump. lia.
Qed.

Lemma count_row_fold (rows : list Main.RowWithTs) :
  forall c o,
    fold_left Main.count_row rows (c, o)
    = (fold_left (count_step (fun r => estado_competencia (Main.rec r))) rows c,
       fold_left (count_step (fun r => estado_operativo (Main.rec r))) rows o).
Proof.
  induction rows as [|r rows IH]; intros c o; cbn [fold_left]; [reflexivity|].
  unfold Main.count_row at 2. rewrite IH. reflexivity.
Qed.

(** X6.  The quoted title of a CSV line reads back: a reader of quoted
    fields gets the title itself from the text [esc] writes, and stops right
    after the closing quote, whatever the title holds (quotes, commas, line
    breaks). *)
Theorem esc_reads_back (t rest : jsstring) :
  match rest with d :: _ => d <> dq | [] => True end ->
  read_quoted (Main.esc t ++ rest) = Some (t, rest).
Proof.
  intros Hrest. rewrite esc_doubles. unfold read_quoted.
  cbn [app]. rewrite N.eqb_refl. rewrite <- app_assoc.
  now apply read_quoted_body_doubled.
Qed.

(** X7.  The recipient lists of the report mail: every entry is non-empty,
    without whitespace at its ends and without a comma; an unset or empty
    variable gives the empty list; and a list of such addresses joined with
    commas reads back as itself. *)
Theorem address_list_entries :
  (forall v a, In a (Report.address_list v) ->
               a <> [] /\ edge_clean a = true /\ ~ In 44%N a)
  /\ Report.address_list None = []
  /\ Report.address_list (Some []) = []
  /\ (forall l,
         Forall (fun a => a <> [] /\ edge_clean a = true /\ ~ In 44%N a) l ->
         Report.address_list (Some (join (str ",") l)) = l).
Proof.
  split; [|split; [reflexivity|split; [reflexivity|]]].
  - intros v a Ha. unfold Report.address_list in Ha. cbn zeta in Ha.
    apply filter_In in Ha as [Ha Ht]. apply in_map_iff in Ha as (p & <- & Hp).
    split; [|split].
    + intros E. rewrite E in Ht. discriminate.
    + apply trim_edge_clean.
    + intros Hin. apply trim_incl in Hin. revert Hin.
      eapply split_on_no_sep; [|exact Hp]. intros [].
  - intros l Hl. unfold Report.address_list. cbn zeta.
    destruct l as [|a l]; [reflexivity|].
    assert (Hj : or_str (join (str ",") (a :: l)) [] = join (str ",") (a :: l)).
    { unfold or_str. now destruct (truthy _) eqn:E; [|destruct (join _ _)]. }
    rewrite Hj. change (str ",") with [44%N].
    rewrite split_on_join; [|discriminate|].
    2:{ eapply Forall_impl; [|exact Hl]. cbn beta. intros x (_ & _ & H). exact H. }
    now apply trimmed_entries_fixed.
Qed.

(** X8.  The counts of the main script's [summarize]: for every status
    text, the count looked up in the map (0 when the key is absent) is the
    number of rows with that status; a key is absent exactly when no row has
    it; the counts of each map add up to the number of rows, which is the
    total. *)
Theorem main_summarize_counts (rows : list Main.RowWithTs) :
  let s := Main.summarize rows in
  Main.total s = length rows
  /\ (forall st, Main.or_zero (Main.map_get (Main.byComp s) st)
                 = length (rows_with_competencia_text st rows))
  /\ (forall op, Main.or_zero (Main.map_get (Main.byOp s) op)
                 = length (rows_with_operativo_text op rows))
  /\ (forall st, Main.map_get (Main.byComp s) st = None
                 <-> rows_with_competencia_text st rows = [])
  /\ (forall op, Main.map_get (Main.byOp s) op = None
                 <-> rows_with_operativo_text op rows = [])
  /\ sum_values (Main.byComp s) = Main.total s
  /\ sum_values (Main.byOp s) = Main.total s.
Proof.
  unfold Main.summarize. rewrite count_row_fold. cbn zeta.
  cbn [Main.total Main.byComp Main.byOp].
  unfold rows_with_competencia_text, rows_with_operativo_text.
  split; [reflexivity|].
  split; [|split; [|split; [|split; [|split]]]].
  - intros st. rewrite count_fold_get. cbn [Main.map_get Main.or_zero].
    now destruct (length _).
  - intros op. rewrite count_fold_get. cbn [Main.map_get Main.or_zero].
    now destruct (length _).
  - intros st. rewrite count_fold_get. cbn [Main.map_get].
    destruct (filter _ rows); cbn [length]; split; congruence.
  - intros op. rewrite count_fold_get. cbn [Main.map_get].
    destruct (filter _ rows); cbn [length]; split; congruence.
  - now rewrite count_fold_sum.
  - now rewrite count_fold_sum.
Qed.

(** ** Splitting a text into lines *)

Lemma match_here_newline (r : regex) (prev : option jschar) (s : jsstring) :
  r = Seq (Opt (Chr 13%N)) (Chr 10%N) ->
  match_here false r prev s =
  match s with
  | c :: s' =>
      if (c =? 10)%N then Some (MS (Some c) s' [])
      else
        match s' with
        | d :: s'' =>
            if ((c =? 13) && (d =? 10))%N then Some (MS (Some d) s'' []) else None
        | [] => None
        end
  | [] => None
  end.
Proof.
  intros ->. unfold match_here. rewrite rmatch_seq.
  cbn [rmatch ms_rest]. destruct s as [|c s']; [reflexivity|].
  unfold chr_eq, progress, advance. cbn [ms_rest ms_caps length].
  rewrite (N.eqb_sym c 10), (N.eqb_sym c 13).
  destruct (N.eqb_spec 13 c) as [E|E].
  - subst c. change (10 =? 13)%N with false. cbn iota.
    replace (length s' <? S (length s')) with true
      by (symmetry; apply Nat.ltb_lt; lia).
    destruct s' as [|d s'']; [reflexivity|].
    rewrite (N.eqb_sym d 10). cbn [andb].
    now destruct (10 =? d)%N.
  - cbn [orelse andb]. destruct (10 =? c)%N; [reflexivity|].
    now destruct s'.
Qed.

Lemma eqb_sub_pos (a b : nat) : b < a -> Nat.eqb (a - b) 0 = false.
Proof. intros H. apply Nat.eqb_neq. lia. Qed.

Lemma split_go_lines (r : regex) :
  r = Seq (Opt (Chr 13%N)) (Chr 10%N) ->
  forall f s prev cur,
    length s < f -> split_go f false r prev cur s = lines_of cur s.
Proof.
  intros Hr f. induction f as [|f IH]; intros s prev cur Hf; [lia|].
  destruct s as [|c s']; [reflexivity|].
  cbn [split_go lines_of]. rewrite (match_here_newline prev _ Hr).
  cbn [length] in Hf.
  destruct (c =? 10)%N.
  - unfold matched_len. cbn [ms_rest ms_prev].
    rewrite eqb_sub_pos by (cbn [length]; lia). rewrite IH by lia. reflexivity.
  - destruct s' as [|d s''].
    + rewrite IH by (cbn; lia). reflexivity.
    + destruct ((c =? 13) && (d =? 10))%N.
      * unfold matched_len. cbn [ms_rest ms_prev].
        rewrite eqb_sub_pos by (cbn [length]; lia).
        rewrite IH by (cbn [length] in Hf; lia). reflexivity.
      * rewrite IH by lia. reflexivity.
Qed.

(** Splitting at line breaks gives the lines of the text. *)
Lemma split_lines (r : regex) (s : jsstring) :
  r = Seq (Opt (Chr 13%N)) (Chr 10%N) -> split false r s = lines_of [] s.
Proof.
  intros Hr. unfold split. destruct s as [|c s'].
  - rewrite (match_here_newline None _ Hr). reflexivity.
  - apply split_go_lines; [exact Hr|]. cbn [length]. lia.
Qed.

Lemma lines_of_keep (c : jschar) (cur s : jsstring) :
  not_line_end c = true -> lines_of cur (c :: s) = lines_of (c :: cur) s.
Proof.
  unfold not_line_end. intros H. apply negb_true_iff in H.
  apply orb_false_iff in H as [H1 H2]. cbn [lines_of]. rewrite H1, H2.
  cbn [andb]. now destruct s.
Qed.

Lemma lines_of_plain (t : jsstring) :
  forallb not_line_end t = true ->
  forall cur, lines_of cur t = [rev cur ++ t].
Proof.
  induction t as [|x t IH]; intros Ht cur.
  - cbn. now rewrite app_nil_r.
  - cbn [forallb] in Ht. apply andb_true_iff in Ht as [Hx Ht].
    rewrite lines_of_keep by exact Hx. rewrite (IH Ht). cbn [rev].
    now rewrite <- app_assoc.
Qed.

Lemma lines_of_line (eol t rest : jsstring) :
  eol = [10%N] \/ eol = [13%N; 10%N] ->
  forallb not_line_end t = true ->
  forall cur, lines_of cur (t ++ eol ++ rest) = (rev cur ++ t) :: lines_of [] rest.
Proof.
  intros He. induction t as [|x t IH]; intros Ht cur.
  - cbn [app]. rewrite app_nil_r. destruct He as [-> | ->]; reflexivity.
  - cbn [forallb] in Ht. apply andb_true_iff in Ht as [Hx Ht].
    cbn [app]. rewrite lines_of_keep by exact Hx. rewrite (IH Ht). cbn [rev].
    now rewrite <- app_assoc.
Qed.

Lemma lines_of_file (eol : jsstring) (l : list jsstring) :
  eol = [10%N] \/ eol = [13%N; 10%N] ->
  Forall (fun t => forallb not_line_end t = true) l ->
  lines_of [] (concat (map (fun t => t ++ eol) l)) = l ++ [[]].
Proof.
  intros He Hl. induction Hl as [|t l Ht _ IH]; [reflexivity|].
  cbn [map concat]. rewrite <- app_assoc.
  rewrite lines_of_line by assumption. cbn [rev app]. now rewrite IH.
Qed.

(** ** A file of digits *)

Lemma digit_not_space (c : jschar) : is_digit c = true -> is_space c = false.
Proof.
  unfold is_digit, is_space. intros H. apply andb_true_iff in H as [H1 H2].
  apply N.leb_le in H1. apply N.leb_le in H2.
  repeat (apply orb_false_iff; split);
    try (apply N.eqb_neq; lia).
  apply andb_false_iff. left. apply N.leb_gt. lia.
Qed.

Lemma digit_not_line_end (c : jschar) : is_digit c = true -> not_line_end c = true.
Proof.
  unfold is_digit, not_line_end. intros H. apply andb_true_iff in H as [H1 H2].
  apply N.leb_le in H1. apply N.leb_le in H2.
  apply negb_true_iff. apply orb_false_iff; split; apply N.eqb_neq; lia.
Qed.

Lemma forallb_weaken (p q : jschar -> bool) (l : jsstring) :
  (forall x, p x = true -> q x = true) -> forallb p l = true -> forallb q l = true.
Proof.
  intros H. induction l as [|x l IH]; [reflexivity|]. cbn [forallb].
  intros Hl. apply andb_true_iff in Hl as [Hx Hl]. now rewrite (H _ Hx), IH.
Qed.

Lemma digits_edge_clean (t : jsstring) :
  forallb is_digit t = true -> edge_clean t = true.
Proof.
  intros Ht. unfold edge_clean.
  assert (H : forall l, forallb is_digit l = true -> starts_clean l = true).
  { intros [|c l]; [reflexivity|]. cbn [forallb starts_clean]. intros H.
    apply andb_true_iff in H as [H _]. now rewrite digit_not_space. }
  rewrite (H _ Ht). apply H. rewrite forallb_forall in *. intros x Hx.
  apply Ht. now apply in_rev.
Qed.

Lemma filter_digits_fixed (t : jsstring) :
  forallb is_digit t = true -> filter is_digit t = t.
Proof.
  induction t as [|x t IH]; [reflexivity|]. cbn [forallb filter]. intros H.
  apply andb_true_iff in H as [Hx H]. now rewrite Hx, IH.
Qed.

(** A line of digits has one field. *)
Lemma split_fields_digits (t : jsstring) :
  forallb is_digit t = true -> t <> [] ->
  split false Main.field_sep_re t = [t].
Proof.
  intros Ht Hne.
  assert (H : forall f s prev cur, forallb is_digit s = true ->
                split_go f false Main.field_sep_re prev cur s = [rev cur ++ s]).
  { induction f as [|f IH]; intros s prev cur Hs; [reflexivity|].
    destruct s as [|c s]; [cbn; now rewrite app_nil_r|].
    cbn [forallb] in Hs. apply andb_true_iff in Hs as [Hc Hs].
    cbn [split_go].
    assert (Hm : match_here false Main.field_sep_re prev (c :: s) = None).
    { unfold match_here, Main.field_sep_re. cbn [rmatch ms_rest].
      unfold chr_eq. unfold is_digit in Hc. apply andb_true_iff in Hc as [H1 H2].
      apply N.leb_le in H1. apply N.leb_le in H2.
      destruct (N.eqb_spec 44 c); [lia|]. destruct (N.eqb_spec 9 c); [lia|].
      reflexivity. }
    rewrite Hm, IH by exact Hs. cbn [rev].
    now rewrite <- app_assoc. }
  unfold split. destruct t as [|c t]; [now elim Hne|]. now apply H.
Qed.

Lemma first_field_digits (t : jsstring) :
  forallb is_digit t = true -> t <> [] -> Main.first_field t = t.
Proof.
  intros Ht Hne. unfold Main.first_field. rewrite split_fields_digits by assumption.
  cbn [hd]. unfold or_str. destruct t as [|c t]; [now elim Hne|]. cbn [truthy].
  apply trim_fixed. now apply digits_edge_clean.
Qed.

Lemma digit_lines_read (l : list jsstring) :
  Forall (fun t => t <> [] /\ forallb is_digit t = true) l ->
  filter (fun t => test false Main.digits_re t)
         (map Main.only_digits (map Main.first_field l)) = l.
Proof.
  induction 1 as [|t l [Hne Ht] _ IH]; [reflexivity|].
  cbn [map filter]. rewrite first_field_digits by assumption.
  rewrite only_digits_filter, filter_digits_fixed by assumption.
  rewrite test_digits_re by assumption.
  destruct t as [|c t]; [now elim Hne|]. cbn [truthy]. now rewrite IH.
Qed.

Lemma digit_lines_trimmed (l : list jsstring) :
  Forall (fun t => t <> [] /\ forallb is_digit t = true) l ->
  filter truthy (map trim (l ++ [[]])) = l.
Proof.
  induction 1 as [|t l [Hne Ht] _ IH]; [reflexivity|].
  cbn [app map filter]. rewrite trim_fixed by now apply digits_edge_clean.
  destruct t as [|c t]; [now elim Hne|]. cbn [truthy]. now rewrite IH.
Qed.

(** X9.  A file that lists one SKU of digits on every line, each line ended
    by a line feed or by a carriage return and a line feed, reads back as
    exactly those SKUs, in order; so does the same file after a heading line
    that begins with one of the letters A to Z or a to z (a heading that
    begins with any other letter is not covered).  Hence writing the SKUs
    read from any file one on a line and reading them again gives the same
    SKUs. *)
Theorem readSkusCsv_reads_back (eol : jsstring) :
  eol = [10%N] \/ eol = [13%N; 10%N] ->
  (forall l,
      Forall (fun t => t <> [] /\ forallb is_digit t = true) l ->
      Main.readSkusCsv (Some (concat (map (fun t => t ++ eol) l))) = l
      /\ (forall heading,
             begins_with_ascii_letter heading = true ->
             forallb not_line_end heading = true ->
             Main.readSkusCsv
               (Some (heading ++ eol ++ concat (map (fun t => t ++ eol) l)))
             = l))
  /\ (forall file,
         Main.readSkusCsv
           (Some (concat (map (fun t => t ++ eol) (Main.readSkusCsv file))))
         = Main.readSkusCsv file).
Proof.
  intros He.
  assert (Hback : forall l,
             Forall (fun t => t <> [] /\ forallb is_digit t = true) l ->
             Main.readSkusCsv (Some (concat (map (fun t => t ++ eol) l))) = l
             /\ (forall heading,
                    begins_with_ascii_letter heading = true ->
                    forallb not_line_end heading = true ->
                    Main.readSkusCsv
                      (Some (heading ++ eol ++ concat (map (fun t => t ++ eol) l)))
                    = l)).
  { intros l Hl.
    assert (Hplain : Forall (fun t => forallb not_line_end t = true) l).
    { eapply Forall_impl; [|exact Hl]. cbn beta. intros t [_ Ht].
      revert Ht. apply forallb_weaken. exact digit_not_line_end. }
    split.
    - unfold Main.readSkusCsv, Main.file_lines. cbn zeta.
      rewrite split_lines by reflexivity. rewrite lines_of_file by assumption.
      rewrite digit_lines_trimmed by assumption.
      assert (Hh : test false Main.header_re (or_str (hd [] l) []) = false).
      { rewrite test_header. destruct Hl as [|t l' [Hne Ht] _]; [reflexivity|].
        cbn [hd]. destruct t as [|c t]; [now elim Hne|].
        cbn [or_str truthy begins_with_ascii_letter forallb] in *.
        apply andb_true_iff in Ht as [Hc _].
        unfold is_digit in Hc. apply andb_true_iff in Hc as [H1 H2].
        apply N.leb_le in H1. apply N.leb_le in H2.
        unfold is_letter, is_upper, is_lower.
        apply orb_false_iff; split; apply andb_false_iff; left; apply N.leb_gt; lia. }
      rewrite Hh. unfold Main.slice_from. cbn [skipn].
      now apply digit_lines_read.
    - intros heading Hb Hp.
      unfold Main.readSkusCsv, Main.file_lines. cbn zeta.
      rewrite split_lines by reflexivity. rewrite lines_of_line by assumption.
      rewrite lines_of_file by assumption. cbn [rev app map filter].
      destruct heading as [|c hs]; [discriminate|]. cbn [begins_with_ascii_letter] in Hb.
      destruct (@trim_keeps_head c hs (letter_not_space _ Hb)) as [t Ht]. rewrite Ht.
      cbn [truthy hd or_str]. rewrite test_header. cbn [begins_with_ascii_letter].
      rewrite Hb. unfold Main.slice_from. cbn [skipn].
      rewrite digit_lines_trimmed by assumption. now apply digit_lines_read. }
  split; [exact Hback|].
  intros file. apply Hback. apply Forall_forall. intros t Ht.
  destruct file as [raw|]; [|destruct Ht].
  rewrite readSkusCsv_data in Ht. apply in_flat_map in Ht as [l [_ Ht]].
  now apply entry_digits in Ht.
Qed.

(** ** What an accepted text looks like *)

Lemma iter_rel_suffix (R : mstate -> mstate -> Prop) :
  (forall s t, R s t -> exists pre, ms_rest s = pre ++ ms_rest t) ->
  forall n s t, iter_rel n R s t -> exists pre, ms_rest s = pre ++ ms_rest t.
Proof.
  intros HR n. induction n as [|n IH]; intros s t H; cbn [iter_rel] in H.
  - subst. now exists [].
  - destruct H as (u & Hu & H). apply HR in Hu as [p1 Hp1].
    apply IH in H as [p2 Hp2]. exists (p1 ++ p2).
    now rewrite Hp1, Hp2, app_assoc.
Qed.

(** A pattern reads a prefix of the input. *)
Lemma accepts_suffix (ci : bool) (r : regex) :
  forall s t, accepts ci r s t -> exists pre, ms_rest s = pre ++ ms_rest t.
Proof.
  induction r as [|c|neg items|a IHa b IHb|a IHa b IHb|mn g a IHa|a IHa|i a IHa| | |];
    intros s t H; cbn [accepts] in H.
  - subst. now exists [].
  - destruct H as (x & xs & E & _ & ->). exists [x]. now rewrite E.
  - destruct H as (x & xs & E & _ & ->). exists [x]. now rewrite E.
  - destruct H as (u & Ha & Hb). apply IHa in Ha as [p1 Hp1].
    apply IHb in Hb as [p2 Hp2]. exists (p1 ++ p2).
    now rewrite Hp1, Hp2, app_assoc.
  - destruct H as [H|H]; [now apply IHa|now apply IHb].
  - destruct H as (n & _ & H). revert H. apply iter_rel_suffix. exact IHa.
  - destruct H as [->|H]; [now exists []|now apply IHa].
  - destruct H as (u & Ha & ->). cbn [ms_rest]. now apply IHa.
  - destruct H as [_ ->]. now exists [].
  - destruct H as [_ ->]. now exists [].
  - destruct H as [_ ->]. now exists [].
Qed.

(** A literal reads its own letters, up to their case under the
    ignore-case flag, and leaves the captures alone. *)
Lemma accepts_lit (ci : bool) (w : jsstring) :
  forall s t, accepts ci (lit w) s t ->
              exists w', ms_rest s = w' ++ ms_rest t
                         /\ Forall2 (fun c x => chr_eq ci c x = true) w w'
                         /\ ms_caps t = ms_caps s.
Proof.
  induction w as [|c w IH]; intros s t H; cbn [lit accepts] in H.
  - subst. exists []. repeat split. constructor.
  - destruct H as (u & (x & xs & E & Hc & ->) & H).
    apply IH in H as (w' & Hr & Hw & Hcaps). cbn [advance ms_rest ms_caps] in *.
    exists (x :: w'). rewrite E, Hr. repeat split; [|exact Hcaps].
    now constructor.
Qed.

Lemma chr_eq_exact (c x : jschar) : chr_eq false c x = true -> x = c.
Proof. unfold chr_eq. intros H. apply N.eqb_eq in H. now subst. Qed.

Lemma accepts_lit_exact (w : jsstring) (s t : mstate) :
  accepts false (lit w) s t ->
  ms_rest s = w ++ ms_rest t /\ ms_caps t = ms_caps s.
Proof.
  intros H. apply accepts_lit in H as (w' & Hr & Hw & Hc).
  assert (w' = w).
  { clear Hr. induction Hw as [|c x w w' Hx _ IH]; [reflexivity|].
    apply chr_eq_exact in Hx. now subst. }
  subst. now split.
Qed.

(** A repeated class reads a run of its members, and leaves the captures
    alone. *)
Lemma accepts_rep_cls (ci : bool) (mn : nat) (g neg : bool) (items : list citem) :
  forall s t, accepts ci (Rep mn g (Cls neg items)) s t ->
              exists run, ms_rest s = run ++ ms_rest t
                          /\ mn <= length run
                          /\ forallb (cls_mem ci neg items) run = true
                          /\ ms_caps t = ms_caps s.
Proof.
  intros s t H. cbn [accepts] in H. destruct H as (n & Hn & H).
  assert (Hi : exists run, ms_rest s = run ++ ms_rest t /\ length run = n
                           /\ forallb (cls_mem ci neg items) run = true
                           /\ ms_caps t = ms_caps s).
  { clear Hn. revert s H. induction n as [|n IH]; intros s H; cbn [iter_rel] in H.
    - subst. exists []. repeat split.
    - destruct H as (u & (x & xs & E & Hc & ->) & H).
      apply IH in H as (run & Hr & Hl & Hf & Hcaps).
      cbn [advance ms_rest ms_caps] in *.
      exists (x :: run). rewrite E, Hr. cbn [length forallb]. rewrite Hc, Hf.
      repeat split; [now rewrite Hl|exact Hcaps]. }
  destruct Hi as (run & Hr & Hl & Hf & Hc). exists run. repeat split; auto. lia.
Qed.

Lemma match_here_accepts (ci : bool) (r : regex) (prev : option jschar)
      (s : jsstring) (m : mstate) :
  match_here ci r prev s = Some m -> accepts ci r (MS prev s []) m.
Proof.
  unfold match_here. intros H. apply rmatch_accepts in H as (t & Ht & E).
  now injection E as <-.
Qed.

Lemma exec_accepts (ci : bool) (r : regex) (s : jsstring)
      (m : jsstring * list (nat * jsstring)) :
  exec ci r s = Some m ->
  exists prev st t, accepts ci r (MS prev st []) t /\ snd m = ms_caps t.
Proof.
  unfold exec. destruct (search ci r None s) as [[[sk st] t]|] eqn:E; [|discriminate].
  intros H. injection H as <-. apply search_sound in E as [_ E].
  apply match_here_accepts in E. now exists (last_of None sk), st, t.
Qed.

Lemma get_cap_set (i : nat) (v : jsstring) (caps : list (nat * jsstring)) :
  get_cap i (set_cap i v caps) = Some v.
Proof. unfold set_cap. cbn [get_cap]. now rewrite Nat.eqb_refl. Qed.

Lemma firstn_prefix (a b : jsstring) :
  firstn (length (a ++ b) - length b) (a ++ b) = a.
Proof. apply firstn_sub_app. Qed.

(** ** The shape of an item id *)

Lemma ci_same_length (a b : jsstring) : ci_same a b -> length a = length b.
Proof.
  unfold ci_same. intros H. apply (f_equal (@length _)) in H.
  now rewrite !length_map in H.
Qed.

Lemma accepts_seq_inv (ci : bool) (a b : regex) (s t : mstate) :
  accepts ci (Seq a b) s t -> exists u, accepts ci a s u /\ accepts ci b u t.
Proof. intros H. exact H. Qed.

Lemma accepts_grp_inv (ci : bool) (i : nat) (a : regex) (s t : mstate) :
  accepts ci (Grp i a) s t ->
  exists u, accepts ci a s u
            /\ ms_caps t = set_cap i (firstn (length (ms_rest s) - length (ms_rest u))
                                             (ms_rest s)) (ms_caps u)
            /\ ms_rest t = ms_rest u.
Proof. intros (u & Hu & ->). exists u. now repeat split. Qed.

Lemma iter_rel_caps (R : mstate -> mstate -> Prop) :
  (forall s t, R s t -> ms_caps t = ms_caps s) ->
  forall n s t, iter_rel n R s t -> ms_caps t = ms_caps s.
Proof.
  intros HR n. induction n as [|n IH]; intros s t H; cbn [iter_rel] in H.
  - now subst.
  - destruct H as (u & Hu & H). apply HR in Hu. apply IH in H. congruence.
Qed.

(** A pattern without groups leaves the captures alone. *)
Lemma accepts_capless (ci : bool) (r : regex) :
  capless r = true -> forall s t, accepts ci r s t -> ms_caps t = ms_caps s.
Proof.
  induction r as [|c|neg items|a IHa b IHb|a IHa b IHb|mn g a IHa|a IHa|i a IHa| | |];
    intros Hc s t H; cbn [accepts capless] in *.
  - now subst.
  - now destruct H as (x & xs & _ & _ & ->).
  - now destruct H as (x & xs & _ & _ & ->).
  - apply andb_true_iff in Hc as [Ha Hb]. destruct H as (u & H1 & H2).
    apply (IHa Ha) in H1. apply (IHb Hb) in H2. congruence.
  - apply andb_true_iff in Hc as [Ha Hb]. destruct H as [H|H];
      [now apply (IHa Ha)|now apply (IHb Hb)].
  - destruct H as (n & _ & H). revert H. apply iter_rel_caps. exact (IHa Hc).
  - destruct H as [->|H]; [reflexivity|now apply (IHa Hc)].
  - discriminate.
  - now destruct H as [_ ->].
  - now destruct H as [_ ->].
  - now destruct H as [_ ->].
Qed.

(** The capture of a group that holds a literal and a repeated class. *)
Lemma accepts_grp_lit_run (ci : bool) (i : nat) (w : jsstring) (mn : nat)
      (g neg : bool) (items : list citem) (s t : mstate) :
  accepts ci (Grp i (Seq (lit w) (Rep mn g (Cls neg items)))) s t ->
  exists w' run,
    Forall2 (fun c x => chr_eq ci c x = true) w w'
    /\ mn <= length run
    /\ forallb (cls_mem ci neg items) run = true
    /\ get_cap i (ms_caps t) = Some (w' ++ run).
Proof.
  intros H. apply accepts_grp_inv in H as (u & H & Hc & _).
  apply accepts_seq_inv in H as (v & Hl & Hr).
  apply accepts_lit in Hl as (w' & E1 & Hw & _).
  apply accepts_rep_cls in Hr as (run & E2 & Hn & Hf & _).
  exists w', run. repeat split; auto.
  rewrite Hc, get_cap_set. f_equal. rewrite E1, E2, app_assoc.
  apply firstn_sub_app.
Qed.

(** The capture of a group that holds a repeated class. *)
Lemma accepts_grp_run (ci : bool) (i : nat) (mn : nat)
      (g neg : bool) (items : list citem) (s t : mstate) :
  accepts ci (Grp i (Rep mn g (Cls neg items))) s t ->
  exists run,
    mn <= length run
    /\ forallb (cls_mem ci neg items) run = true
    /\ get_cap i (ms_caps t) = Some run.
Proof.
  intros H. apply accepts_grp_inv in H as (u & H & Hc & _).
  apply accepts_rep_cls in H as (run & E2 & Hn & Hf & _).
  exists run. repeat split; auto.
  rewrite Hc, get_cap_set. f_equal. rewrite E2. apply firstn_sub_app.
Qed.

Lemma item_id_like_intro (n : nat) (w ds : jsstring) :
  Forall2 (fun c x => chr_eq true c x = true) (str "MLU") w ->
  n <= length ds -> forallb is_digit ds = true ->
  item_id_like n (w ++ ds) = true.
Proof.
  intros Hw Hn Hd. apply chr_eq_ci_same in Hw.
  assert (Hl : length w = 3) by (apply ci_same_length in Hw; exact Hw).
  unfold item_id_like.
  rewrite starts_ci_same by exact Hw.
  assert (Hs : skipn 3 (w ++ ds) = ds).
  { rewrite <- Hl. rewrite skipn_app, skipn_all, Nat.sub_diag. reflexivity. }
  rewrite Hs, Hd. cbn [andb]. rewrite andb_true_r. now apply Nat.leb_le.
Qed.

Lemma item_id_like_weaken (m n : nat) (id : jsstring) :
  m <= n -> item_id_like n id = true -> item_id_like m id = true.
Proof.
  unfold item_id_like. intros Hmn H.
  apply andb_true_iff in H as [H Hd]. apply andb_true_iff in H as [Hs Hn].
  rewrite Hs, Hd. apply Nat.leb_le in Hn.
  replace (m <=? length (skipn 3 id)) with true; [reflexivity|].
  symmetry. apply Nat.leb_le. lia.
Qed.

Lemma digits_run (ci : bool) (run : jsstring) :
  forallb (cls_mem ci false [CDigit]) run = true -> forallb is_digit run = true.
Proof.
  intros H. rewrite <- H. apply forallb_pointwise. intros x.
  symmetry. apply cls_mem_digit.
Qed.

(** What the item pattern captures. *)
Lemma item_cap_like (tail : regex) (n : nat) (prev : option jschar)
      (st : jsstring) (t : mstate) :
  capless tail = true ->
  accepts true
          (Seq (Alt (Chr 63%N) (Chr 38%N))
               (Seq (lit (str "itemId="))
                    (Seq (Grp 1 (Seq (lit (str "MLU")) (Rep n true digit))) tail)))
          (MS prev st []) t ->
  exists id, get_cap 1 (ms_caps t) = Some id /\ item_id_like n id = true.
Proof.
  intros Hc H.
  apply accepts_seq_inv in H as (u1 & _ & H).
  apply accepts_seq_inv in H as (u2 & _ & H).
  apply accepts_seq_inv in H as (u3 & Hg & H).
  apply accepts_capless in H; [|exact Hc].
  apply accepts_grp_lit_run in Hg as (w' & run & Hw & Hn & Hf & Hcap).
  exists (w' ++ run). rewrite H. split; [exact Hcap|].
  apply item_id_like_intro; auto. now apply digits_run in Hf.
Qed.

Lemma exec_item_like (s : jsstring) (m : jsstring * list (nat * jsstring)) :
  exec true item_re s = Some m -> item_id_like 6 (cap1 m) = true.
Proof.
  intros H. apply exec_accepts in H as (prev & st & t & H & Hm).
  apply item_cap_like in H as (id & Hcap & Hid); [|reflexivity].
  unfold cap1, group. now rewrite Hm, Hcap.
Qed.

Lemma exec_item0_like (s : jsstring) (m : jsstring * list (nat * jsstring)) :
  exec true ExtractHtmlOld.item_re0 s = Some m -> item_id_like 6 (cap1 m) = true.
Proof.
  intros H. apply exec_accepts in H as (prev & st & t & H & Hm).
  apply item_cap_like in H as (id & Hcap & Hid); [|reflexivity].
  unfold cap1, group. now rewrite Hm, Hcap.
Qed.

Lemma exec_json_like (key s : jsstring) (m : jsstring * list (nat * jsstring)) :
  exec true (ExtractHtmlOld.json_re key) s = Some m -> item_id_like 1 (cap1 m) = true.
Proof.
  intros H. apply exec_accepts in H as (prev & st & t & H & Hm).
  unfold ExtractHtmlOld.json_re, seqs in H. cbn [fold_right] in H.
  do 7 (apply accepts_seq_inv in H as (? & _ & H)).
  apply accepts_seq_inv in H as (u & Hg & H).
  apply accepts_capless in H; [|reflexivity].
  apply accepts_grp_lit_run in Hg as (w' & run & Hw & Hn & Hf & Hcap).
  unfold cap1, group. rewrite Hm, H, Hcap.
  apply item_id_like_intro; auto. now apply digits_run in Hf.
Qed.

Lemma exec_sku_digits (s : jsstring) (m : jsstring * list (nat * jsstring)) :
  exec true sku_re s = Some m -> digits_only (cap1 m) = true.
Proof.
  intros H. apply exec_accepts in H as (prev & st & t & H & Hm).
  unfold sku_re, seqs in H. cbn [fold_right] in H.
  do 3 (apply accepts_seq_inv in H as (? & _ & H)).
  apply accepts_seq_inv in H as (u & Hg & H).
  apply accepts_capless in H; [|reflexivity].
  apply accepts_grp_run in Hg as (run & Hn & Hf & Hcap).
  unfold cap1, group. rewrite Hm, H, Hcap. apply digits_run in Hf.
  unfold digits_only. rewrite Hf, andb_true_r.
  destruct run; [cbn in Hn; lia|reflexivity].
Qed.

Lemma parseHtmlForSku_fields (html fallbackSku : jsstring) (r : ParsedRecord) :
  ExtractHtml.parseHtmlForSku html fallbackSku = Some r ->
  exists row,
    sliceRowForSku html fallbackSku = Some row
    /\ itemId r = match exec true item_re row with
                  | Some m => cap1 m
                  | None => []
                  end
    /\ titulo r = ExtractHtml.titulo_of row
    /\ sku r = match exec true sku_re row with
               | Some m => cap1 m
               | None => fallbackSku
               end.
Proof.
  unfold ExtractHtml.parseHtmlForSku.
  destruct (sliceRowForSku html fallbackSku) as [row|]; [|discriminate].
  match goal with |- (if ?b then _ else _) = _ -> _ => destruct b end; [|discriminate].
  intros H. inversion H. exists row. repeat split; reflexivity.
Qed.

Lemma pickItemId_like (hrefs : list (option jsstring)) :
  ExtractDom.pickItemId hrefs = []
  \/ item_id_like 6 (ExtractDom.pickItemId hrefs) = true.
Proof.
  induction hrefs as [|[h|] hrefs IH]; cbn [ExtractDom.pickItemId]; auto.
  destruct (truthy h); [|exact IH].
  destruct (exec true item_re h) as [m|] eqn:E; [|exact IH].
  right. now apply exec_item_like in E.
Qed.

(** X10.  Every item id the extractors return is empty or has the shape of
    an item id: the letters MLU in any letter case and then at least six
    digits, nothing else (at least one digit in the earlier plain-HTML
    parser, which also reads ids from embedded JSON).  For the two
    plain-HTML parsers the SKU asked for is free of pattern syntax
    characters. *)
Theorem item_id_shape :
  (forall html fallbackSku r,
      plain_sku fallbackSku = true ->
      ExtractHtml.parseHtmlForSku html fallbackSku = Some r ->
      itemId r = [] \/ item_id_like 6 (itemId r) = true)
  /\ (forall hrefs,
         ExtractDom.pickItemId hrefs = []
         \/ item_id_like 6 (ExtractDom.pickItemId hrefs) = true)
  /\ (forall href,
         ExtractDomCard.pickItemIdFromHref href = []
         \/ item_id_like 6 (ExtractDomCard.pickItemIdFromHref href) = true)
  /\ (forall html fallbackSku,
         plain_sku fallbackSku = true ->
         let id := ExtractHtmlOld.itemId (ExtractHtmlOld.parseHtmlForSku html fallbackSku) in
         id = [] \/ item_id_like 1 id = true).
Proof.
  split; [|split; [|split]].
  - intros html fallbackSku r _ H.
    apply parseHtmlForSku_fields in H as (row & _ & Hid & _ & _).
    rewrite Hid. destruct (exec true item_re row) as [m|] eqn:E; [|now left].
    right. now apply exec_item_like in E.
  - exact pickItemId_like.
  - intros [h|]; cbn [ExtractDomCard.pickItemIdFromHref]; [|now left].
    destruct (truthy h); [|now left].
    destruct (exec true item_re h) as [m|] eqn:E; [|now left].
    right. now apply exec_item_like in E.
  - intros html fallbackSku _. cbn zeta.
    unfold ExtractHtmlOld.parseHtmlForSku. cbn [ExtractHtmlOld.itemId].
    set (row := match sliceRowForSku html fallbackSku with Some r => r | None => html end).
    destruct (exec true ExtractHtmlOld.item_re0 row) as [m|] eqn:E.
    { right. apply exec_item0_like in E. revert E. apply item_id_like_weaken. lia. }
    unfold or_match.
    destruct (exec true (ExtractHtmlOld.json_re (str "itemId")) html) as [m|] eqn:E1.
    { right. now apply exec_json_like in E1. }
    destruct (exec true (ExtractHtmlOld.json_re (str "item_id")) html) as [m|] eqn:E2.
    { right. now apply exec_json_like in E2. }
    now left.
Qed.

(** ** The item parameter of an address *)

(** A pattern moves the last unit read along with the input. *)
Lemma iter_rel_prev (R : mstate -> mstate -> Prop) :
  (forall s t, R s t -> exists pre, ms_rest s = pre ++ ms_rest t
                                    /\ ms_prev t = last_of (ms_prev s) pre) ->
  forall n s t, iter_rel n R s t ->
                exists pre, ms_rest s = pre ++ ms_rest t
                            /\ ms_prev t = last_of (ms_prev s) pre.
Proof.
  intros HR n. induction n as [|n IH]; intros s t H; cbn [iter_rel] in H.
  - subst. now exists [].
  - destruct H as (u & Hu & H). apply HR in Hu as (p1 & Hp1 & Hq1).
    apply IH in H as (p2 & Hp2 & Hq2). exists (p1 ++ p2).
    rewrite Hp1, Hp2, Hq2, Hq1, last_of_app, app_assoc. now split.
Qed.

Lemma accepts_prev (ci : bool) (r : regex) :
  forall s t, accepts ci r s t ->
              exists pre, ms_rest s = pre ++ ms_rest t
                          /\ ms_prev t = last_of (ms_prev s) pre.
Proof.
  induction r as [|c|neg items|a IHa b IHb|a IHa b IHb|mn g a IHa|a IHa|i a IHa| | |];
    intros s t H; cbn [accepts] in H.
  - subst. now exists [].
  - destruct H as (x & xs & E & _ & ->). exists [x]. now rewrite E.
  - destruct H as (x & xs & E & _ & ->). exists [x]. now rewrite E.
  - destruct H as (u & Ha & Hb). apply IHa in Ha as (p1 & Hp1 & Hq1).
    apply IHb in Hb as (p2 & Hp2 & Hq2). exists (p1 ++ p2).
    rewrite Hp1, Hp2, Hq2, Hq1, last_of_app, app_assoc. now split.
  - destruct H as [H|H]; [now apply IHa|now apply IHb].
  - destruct H as (n & _ & H). revert H. apply iter_rel_prev. exact IHa.
  - destruct H as [->|H]; [now exists []|now apply IHa].
  - destruct H as (u & Ha & ->). cbn [ms_rest ms_prev]. now apply IHa.
  - destruct H as [_ ->]. now exists [].
  - destruct H as [_ ->]. now exists [].
  - destruct H as [_ ->]. now exists [].
Qed.

(** The last unit read after the text [pre]. *)
Lemma accepts_prev_of (ci : bool) (r : regex) (s t : mstate) (pre : jsstring) :
  accepts ci r s t -> ms_rest s = pre ++ ms_rest t ->
  ms_prev t = last_of (ms_prev s) pre.
Proof.
  intros H E. apply accepts_prev in H as (p & Hp & Hq).
  rewrite Hp in E. apply app_inv_tail in E. now subst.
Qed.

Lemma chr_eq_not_letter (c x : jschar) :
  is_letter c = false -> chr_eq true c x = true -> x = c.
Proof.
  intros Hc H. rewrite chr_eq_caseless in H by exact Hc. now apply chr_eq_exact.
Qed.

(** What a match of the item pattern says about the text it starts at. *)
Lemma item_match_param (prev : option jschar) (st : jsstring) (m : mstate) :
  match_here true item_re prev st = Some m ->
  exists id, item_param_at [] id st /\ get_cap 1 (ms_caps m) = Some id.
Proof.
  intros H. apply match_here_accepts in H.
  unfold item_re, seqs in H. cbn [fold_right] in H.
  apply accepts_seq_inv in H as (u1 & H1 & H).
  apply accepts_seq_inv in H as (u2 & H2 & H).
  apply accepts_seq_inv in H as (u3 & H3 & H).
  apply accepts_seq_inv in H as (u4 & H4 & H).
  cbn [accepts] in H, H4. subst m. destruct H4 as [Hb ->].
  assert (Hsep : exists sep xs, st = sep :: xs /\ (sep = 63 \/ sep = 38)%N
                                /\ u1 = MS (Some sep) xs []).
  { cbn [accepts] in H1.
    destruct H1 as [(x & xs & E & Hc & ->)|(x & xs & E & Hc & ->)];
      cbn [ms_rest] in E; subst st; apply chr_eq_not_letter in Hc; try reflexivity;
      subst x; [exists 63%N, xs|exists 38%N, xs]; (split; [reflexivity|]);
      split; auto. }
  destruct Hsep as (sep & xs & -> & Hsep & ->).
  pose proof (fun pre => @accepts_prev_of _ _ _ _ pre H2) as P2.
  apply accepts_lit in H2 as (key & E2 & K2 & C2). cbn [ms_rest ms_caps] in *.
  destruct H3 as (v & H3 & ->).
  apply accepts_seq_inv in H3 as (w & H3 & H5).
  pose proof (fun pre => @accepts_prev_of _ _ _ _ pre H3) as P3.
  pose proof (fun pre => @accepts_prev_of _ _ _ _ pre H5) as P5.
  apply accepts_lit in H3 as (mlu & E3 & K3 & C3).
  apply accepts_rep_cls in H5 as (ds & E5 & L5 & F5 & C5).
  apply digits_run in F5.
  exists (mlu ++ ds). split.
  - exists sep, key, mlu, ds, (ms_rest v). cbn [app].
    repeat split; auto.
    + now rewrite E2, E3, E5.
    + now apply chr_eq_ci_same.
    + now apply chr_eq_ci_same.
    + unfold at_boundary in Hb. cbn [ms_prev ms_rest] in Hb.
      rewrite (P5 _ E5) in Hb.
      destruct (@last_of_forall is_digit ds (ms_prev w) F5) as (d & Hd1 & Hd2).
      { destruct ds; [cbn in L5; lia|discriminate]. }
      rewrite Hd1 in Hb. cbn [is_word_opt] in Hb.
      rewrite (is_digit_word _ Hd2) in Hb.
      now destruct (is_word_opt (hd_error (ms_rest v))).
  - cbn [ms_caps]. rewrite get_cap_set. f_equal.
    rewrite E3, E5, app_assoc. apply firstn_sub_app.
Qed.

(** The item pattern at a parameter, whatever the case of its letters: the
    capture is MLU and the digits as written. *)
Lemma item_match_at_ci (prev : option jschar) (sep : jschar)
      (key mlu ds post : jsstring) :
  (sep = 63 \/ sep = 38)%N ->
  ci_same key (str "itemId=") -> ci_same mlu (str "MLU") ->
  6 <= length ds -> forallb is_digit ds = true ->
  is_word_opt (hd_error post) = false ->
  exists m,
    match_here true item_re prev (sep :: key ++ mlu ++ ds ++ post) = Some m
    /\ get_cap 1 (ms_caps m) = Some (mlu ++ ds).
Proof.
  intros Hsep Hkey Hmlu Hlen Hds Hpost.
  set (input := key ++ mlu ++ ds ++ post).
  assert (HK : exists m,
             rmatch true
               (Seq (lit (str "itemId="))
                    (Seq (Grp 1 (Seq (lit (str "MLU")) (Rep 6 true digit))) (Seq WordB Eps)))
               (fun m => Some m) (MS (Some sep) input []) = Some m
             /\ get_cap 1 (ms_caps m) = Some (mlu ++ ds)).
  { unfold input. rewrite rmatch_seq_lit, eat_lit_ci by exact Hkey.
    cbn [rmatch ms_rest ms_prev ms_caps]. rewrite rmatch_lit, eat_lit_ci by exact Hmlu.
    rewrite (@rep_need_unit (rmatch true digit) (cls_mem true false [CDigit]));
      [|intros k s; reflexivity|exact Hlen
       |rewrite <- Hds; apply forallb_pointwise; intros x; apply cls_mem_digit].
    unfold star. cbn [ms_rest]. unfold digit.
    rewrite (@star_loop_unit (rmatch true (Cls false [CDigit]))
                             (cls_mem true false [CDigit]))
      by (intros k s; reflexivity).
    eexists. split.
    - apply star_unit_greedy_run.
      + rewrite <- (firstn_skipn 6 ds) in Hds. rewrite forallb_app in Hds.
        apply andb_prop in Hds as [_ Hds]. rewrite <- Hds.
        apply forallb_pointwise. intros x. apply cls_mem_digit.
      + destruct post as [|y post]; [exact I|]. rewrite cls_mem_digit.
        simpl in Hpost. destruct (is_digit y) eqn:Ey; [|reflexivity].
        apply is_digit_word in Ey. congruence.
      + cbn [ms_prev ms_rest ms_caps]. unfold at_boundary. cbn [ms_prev ms_rest].
        match goal with
        | |- context [is_word_opt (last_of (last_of ?p (firstn 6 ds)) (skipn 6 ds))] =>
            assert (Hw : is_word_opt (last_of (last_of p (firstn 6 ds)) (skipn 6 ds)) = true)
        end.
        { rewrite <- last_of_app, firstn_skipn.
          match goal with
          | |- is_word_opt (last_of ?p ds) = true =>
              destruct (@last_of_forall is_digit ds p Hds
                          ltac:(destruct ds; [simpl in Hlen; lia|congruence]))
                as [d [Hd1 Hd2]]
          end.
          rewrite Hd1. simpl. now apply is_digit_word. }
        rewrite Hw, Hpost. reflexivity.
    - cbn [ms_caps set_cap filter get_cap Nat.eqb].
      rewrite (app_assoc mlu ds post), firstn_sub_app. reflexivity. }
  destruct HK as [m [HK Hcap]]. exists m. split; [|exact Hcap].
  unfold match_here, item_re, seqs. cbn [fold_right].
  change (rmatch true
            (Seq (Alt (Chr 63%N) (Chr 38%N))
               (Seq (lit (str "itemId="))
                  (Seq (Grp 1 (Seq (lit (str "MLU")) (Rep 6 true digit))) (Seq WordB Eps))))
            (fun m0 => Some m0) (MS prev (sep :: input) []))
    with (orelse
            (if chr_eq true 63%N sep
             then rmatch true
                    (Seq (lit (str "itemId="))
                       (Seq (Grp 1 (Seq (lit (str "MLU")) (Rep 6 true digit))) (Seq WordB Eps)))
                    (fun m0 => Some m0) (MS (Some sep) input [])
             else None)
            (if chr_eq true 38%N sep
             then rmatch true
                    (Seq (lit (str "itemId="))
                       (Seq (Grp 1 (Seq (lit (str "MLU")) (Rep 6 true digit))) (Seq WordB Eps)))
                    (fun m0 => Some m0) (MS (Some sep) input [])
             else None)).
  rewrite HK. destruct Hsep as [->| ->]; reflexivity.
Qed.

(** A search stops at the first place where the pattern matches. *)
Lemma search_first (ci : bool) (r : regex) (st : jsstring) (m : mstate) :
  forall pre prev,
    (forall a b, pre = a ++ b -> b <> [] ->
                 match_here ci r (last_of prev a) (b ++ st) = None) ->
    match_here ci r (last_of prev pre) st = Some m ->
    search ci r prev (pre ++ st) = Some (pre, st, m).
Proof.
  induction pre as [|c pre IH]; intros prev Hno Hm.
  - cbn [app]. now apply search_here.
  - cbn [app]. rewrite search_next.
    + rewrite last_of_cons in Hm. rewrite (IH (Some c)); [reflexivity| |exact Hm].
      intros a b E Hb. rewrite <- (last_of_cons prev).
      apply Hno; [|exact Hb]. cbn [app]. now rewrite E.
    + apply (Hno [] (c :: pre)); [reflexivity|discriminate].
Qed.

Lemma item_param_shift (a b id st : jsstring) :
  item_param_at [] id (b ++ st) -> item_param_at a id (a ++ b ++ st).
Proof.
  intros (sep & key & mlu & ds & post & E & H). exists sep, key, mlu, ds, post.
  split; [|exact H]. cbn [app] in E. now rewrite E.
Qed.

(** An item parameter begins with its first eleven units. *)
Lemma item_param_starts (pre id h : jsstring) :
  item_param_at pre id h ->
  starts_ci (str "?itemId=MLU") (skipn (length pre) h)
  || starts_ci (str "&itemId=MLU") (skipn (length pre) h) = true.
Proof.
  intros (sep & key & mlu & ds & post & -> & Hsep & Hk & Hm & _).
  rewrite skipn_app, skipn_all, Nat.sub_diag. cbn [skipn app].
  assert (Hst : starts_ci (str "itemId=" ++ str "MLU") (key ++ mlu ++ ds ++ post) = true).
  { apply ci_same_length in Hk as Hlk.
    revert Hk Hlk. generalize (str "itemId="). intros w Hk Hlk.
    revert w Hk Hlk. induction key as [|x key IH]; intros w Hk Hlk;
      destruct w as [|c w]; try discriminate.
    - cbn [app]. now apply starts_ci_same.
    - unfold ci_same in Hk. cbn [map] in Hk. injection Hk as Hx Hk.
      cbn [app starts_ci]. unfold chr_eq. rewrite Hx, N.eqb_refl. cbn [andb].
      apply IH; [exact Hk|]. cbn in Hlk. lia. }
  change (str "?itemId=MLU") with (63%N :: str "itemId=" ++ str "MLU").
  change (str "&itemId=MLU") with (38%N :: str "itemId=" ++ str "MLU").
  cbn [starts_ci]. rewrite Hst.
  destruct Hsep as [->| ->]; reflexivity.
Qed.

(** The search of the item pattern finds the first item parameter. *)
Lemma exec_first_item_param (id h : jsstring) :
  first_item_param id h ->
  exists m, exec true item_re h = Some m /\ cap1 m = id.
Proof.
  intros (pre & (sep & key & mlu & ds & post & E & Hsep & Hk & Hm & Hl & Hd & Hp & ->)
              & Hfirst).
  destruct (@item_match_at_ci (last_of None pre) sep key mlu ds post
                              Hsep Hk Hm Hl Hd Hp) as (m & Hmatch & Hcap).
  unfold exec. subst h.
  rewrite (@search_first true item_re _ m pre None); [|clear Hmatch|exact Hmatch].
  - eexists. split; [reflexivity|]. unfold cap1, group. cbn [snd]. now rewrite Hcap.
  - intros a b Epre Hb.
    destruct (match_here true item_re (last_of None a)
                         (b ++ sep :: key ++ mlu ++ ds ++ post)) as [m'|] eqn:E';
      [exfalso|reflexivity].
    apply item_match_param in E' as (id' & Hpar & _).
    apply (item_param_shift a) in Hpar.
    rewrite app_assoc, <- Epre in Hpar. apply Hfirst in Hpar.
    rewrite Epre, length_app in Hpar. destruct b; [now elim Hb|cbn in Hpar; lia].
Qed.

Lemma exec_no_item_param (h : jsstring) :
  ~ has_item_param h -> exec true item_re h = None.
Proof.
  intros Hno. unfold exec.
  destruct (search true item_re None h) as [[[sk st] m]|] eqn:E; [|reflexivity].
  exfalso. apply Hno. apply search_sound in E as [-> Hm].
  apply item_match_param in Hm as (id & Hpar & _).
  exists sk, id. rewrite <- (app_nil_l st) in Hpar.
  apply (item_param_shift sk) in Hpar. exact Hpar.
Qed.

Lemma pickItemId_skip (before rest : list (option jsstring)) :
  (forall h, In (Some h) before -> ~ has_item_param h) ->
  ExtractDom.pickItemId (before ++ rest) = ExtractDom.pickItemId rest.
Proof.
  induction before as [|h before IH]; intros Hb; [reflexivity|].
  cbn [app ExtractDom.pickItemId].
  assert (IH' : ExtractDom.pickItemId (before ++ rest) = ExtractDom.pickItemId rest).
  { apply IH. intros h' Hin. apply Hb. now right. }
  destruct h as [h|]; [|exact IH'].
  destruct (truthy h); [|exact IH'].
  rewrite exec_no_item_param; [exact IH'|]. apply Hb. now left.
Qed.

(** No match starts before the place a search stops at. *)
Lemma search_minimal (ci : bool) (r : regex) :
  forall s prev sk st m,
    search ci r prev s = Some (sk, st, m) ->
    forall a b, sk = a ++ b -> b <> [] ->
                match_here ci r (last_of prev a) (b ++ st) = None.
Proof.
  induction s as [|c s IH]; intros prev sk st m; cbn [search].
  - destruct (match_here ci r prev []) eqn:E; intros H; inversion H; subst.
    intros a b Hab Hb. symmetry in Hab. apply app_eq_nil in Hab as [_ ->]. now elim Hb.
  - destruct (match_here ci r prev (c :: s)) eqn:E.
    + intros H; inversion H; subst.
      intros a b Hab Hb. symmetry in Hab. apply app_eq_nil in Hab as [_ ->]. now elim Hb.
    + destruct (search ci r (Some c) s) as [[[sk' st'] m']|] eqn:Es; [|discriminate].
      intros H; inversion H; subst. intros a b Hab Hb.
      destruct a as [|x a]; cbn [app] in Hab.
      * subst b. apply search_sound in Es as [-> _]. exact E.
      * injection Hab as <- ->. rewrite last_of_cons. now apply (@IH _ _ _ _ Es).
Qed.

Lemma item_param_match (pre id h : jsstring) :
  item_param_at pre id h ->
  exists st m, h = pre ++ st /\ match_here true item_re (last_of None pre) st = Some m.
Proof.
  intros (sep & key & mlu & ds & post & -> & Hsep & Hk & Hm & Hl & Hd & Hp & _).
  destruct (@item_match_at_ci (last_of None pre) sep key mlu ds post
                              Hsep Hk Hm Hl Hd Hp) as (m & Hmatch & _).
  now exists (sep :: key ++ mlu ++ ds ++ post), m.
Qed.

(** An address with an item parameter has a first one. *)
Lemma first_item_param_exists (h : jsstring) :
  has_item_param h -> exists id, first_item_param id h.
Proof.
  intros (pre & id & Hp).
  destruct (item_param_match Hp) as (st & m & -> & Hm).
  pose proof (@search_finds true item_re pre None st m Hm) as Hs.
  destruct (search true item_re None (pre ++ st)) as [[[sk st'] m']|] eqn:E;
    [clear Hs|now elim Hs].
  pose proof (fun a b => @search_minimal true item_re _ _ _ _ _ E a b) as Hmin.
  apply search_sound in E as [Eh Hm'].
  apply item_match_param in Hm' as (id' & Hpar & _).
  exists id', sk. split.
  - rewrite Eh. rewrite <- (app_nil_l st') in Hpar.
    apply (item_param_shift sk) in Hpar. exact Hpar.
  - intros pre' id'' Hp'.
    destruct (le_lt_dec (length sk) (length pre')) as [Hle|Hlt]; [exact Hle|exfalso].
    destruct (item_param_match Hp') as (st'' & m'' & E'' & Hm'').
    rewrite Eh in E''. apply app_eq_app in E'' as (l & [[E1 E2]|[E1 E2]]).
    + specialize (Hmin pre' l E1).
      assert (Hl : l <> []).
      { intros ->. rewrite app_nil_r in E1. subst sk. lia. }
      rewrite E2, (Hmin Hl) in Hm''. discriminate Hm''.
    + subst pre'. rewrite length_app in Hlt. lia.
Qed.

(** C3 (as amended). Take, in an address, the first place at which a
    question mark or an ampersand is followed by itemId= and MLU, letters in
    any case, and by six or more digits that end at the end of the text or
    before a unit that is no word character.  [pickItemIdFromHref] of
    part_001, lines 159-163, returns the text MLU with the digits found
    there, as the address writes them, and so does [pickItemId] on every
    list in which no address before this one has such a place; an address
    with such a place has a first one.  On a null
    address, on an address without such a place, and on a list without such
    an address, they return the empty string. *)
Theorem item_id_extracted :
  (forall h, has_item_param h -> exists id, first_item_param id h)
  /\ (forall h id,
      first_item_param id h ->
      ExtractDomCard.pickItemIdFromHref (Some h) = id
      /\ (forall before after,
             (forall h', In (Some h') before -> ~ has_item_param h') ->
             ExtractDom.pickItemId (before ++ Some h :: after) = id))
  /\ (forall href,
         (forall h, href = Some h -> ~ has_item_param h) ->
         ExtractDomCard.pickItemIdFromHref href = [])
  /\ (forall hrefs,
         (forall h, In (Some h) hrefs -> ~ has_item_param h) ->
         ExtractDom.pickItemId hrefs = []).
Proof.
  split; [|split; [|split]].
  - intros h Hh. now apply first_item_param_exists.
  - intros h id Hf.
    destruct (exec_first_item_param Hf) as (m & Hm & Hcap).
    assert (Ht : truthy h = true).
    { destruct Hf as (pre & (sep & key & mlu & ds & post & -> & _) & _).
      now destruct pre. }
    split.
    + unfold ExtractDomCard.pickItemIdFromHref. now rewrite Ht, Hm.
    + intros before after Hb. rewrite pickItemId_skip by exact Hb.
      cbn [ExtractDom.pickItemId]. now rewrite Ht, Hm.
  - intros [h|] Hno; [|reflexivity]. unfold ExtractDomCard.pickItemIdFromHref.
    destruct (truthy h); [|reflexivity].
    rewrite exec_no_item_param; [reflexivity|]. now apply Hno.
  - intros hrefs Hno. rewrite <- (app_nil_r hrefs).
    now rewrite pickItemId_skip.
Qed.

(** ** Encoding an item id *)

Lemma encode_unreserved (s : jsstring) :
  forallb uri_unreserved s = true -> encodeURIComponent s = Some s.
Proof.
  induction s as [|c s IH]; [reflexivity|]. cbn [forallb encodeURIComponent].
  intros H. apply andb_true_iff in H as [Hc H]. now rewrite Hc, IH.
Qed.

Lemma unreserved_not_surrogate (c : jschar) :
  uri_unreserved c = true -> low_surrogate c = false /\ high_surrogate c = false.
Proof.
  intros H. unfold low_surrogate, high_surrogate.
  destruct (N.leb_spec 55296 c) as [Hc|Hc].
  - exfalso. unfold uri_unreserved, is_letter, is_upper, is_lower, is_digit in H.
    cbn [existsb str map String.list_ascii_of_string Ascii.N_of_ascii] in H.
    repeat (apply orb_true_iff in H; destruct H as [H|H]);
      try (apply andb_true_iff in H as [_ H]; apply N.leb_le in H; lia);
      try (apply N.eqb_eq in H; subst c; vm_compute in Hc; now elim Hc).
    discriminate.
  - split; [|reflexivity]. destruct (N.leb_spec 56320 c); [lia|reflexivity].
Qed.

Lemma encode_well_formed :
  forall n s, length s <= n ->
              (match encodeURIComponent s with Some _ => true | None => false end)
              = well_formed s.
Proof.
  induction n as [|n IH]; intros s Hn.
  - destruct s; [reflexivity|cbn in Hn; lia].
  - destruct s as [|c s]; [reflexivity|]. cbn [length] in Hn.
    cbn [encodeURIComponent well_formed].
    destruct (uri_unreserved c) eqn:Eu.
    { destruct (unreserved_not_surrogate _ Eu) as [-> ->].
      rewrite <- (IH s) by lia. now destruct (encodeURIComponent s). }
    destruct (low_surrogate c); [reflexivity|].
    destruct (high_surrogate c).
    + destruct s as [|d s]; [reflexivity|]. cbn [length] in Hn.
      destruct (low_surrogate d); [|reflexivity]. cbn [andb].
      rewrite <- (IH s) by lia. now destruct (encodeURIComponent s).
    + rewrite <- (IH s) by lia. now destruct (encodeURIComponent s).
Qed.

Lemma chr_eq_letter (c x : jschar) :
  is_letter c = true -> chr_eq true c x = true -> is_letter x = true.
Proof.
  unfold chr_eq, upcase. intros Hc H. apply N.eqb_eq in H.
  unfold is_letter, is_upper, is_lower in *.
  destruct (N.leb_spec 97 x), (N.leb_spec x 122), (N.leb_spec 97 c),
    (N.leb_spec c 122), (N.leb_spec 65 c), (N.leb_spec c 90),
    (N.leb_spec 65 x), (N.leb_spec x 90);
    cbn [andb orb] in *; try reflexivity; try discriminate; lia.
Qed.

Lemma starts_ci_letters (w : jsstring) :
  forallb is_letter w = true ->
  forall s, starts_ci w s = true -> forallb is_letter (firstn (length w) s) = true.
Proof.
  induction w as [|c w IH]; intros Hw s H; [reflexivity|].
  destruct s as [|x s]; [discriminate|].
  cbn [forallb starts_ci length firstn] in *.
  apply andb_true_iff in Hw as [Hc Hw]. apply andb_true_iff in H as [Hx H].
  now rewrite (chr_eq_letter _ _ Hc Hx), (IH Hw s H).
Qed.

Lemma item_id_unreserved (n : nat) (id : jsstring) :
  item_id_like n id = true -> forallb uri_unreserved id = true.
Proof.
  unfold item_id_like. intros H.
  apply andb_true_iff in H as [H Hd]. apply andb_true_iff in H as [Hs _].
  rewrite <- (firstn_skipn 3 id), forallb_app. apply andb_true_iff. split.
  - apply (starts_ci_letters (str "MLU") eq_refl) in Hs.
    revert Hs. apply forallb_weaken. intros x Hx. unfold uri_unreserved.
    now rewrite Hx.
  - revert Hd. apply forallb_weaken. intros x Hx. unfold uri_unreserved.
    rewrite Hx. now rewrite orb_true_r.
Qed.

Lemma itemUrl_plain (id : jsstring) :
  forallb uri_unreserved id = true ->
  Main.itemUrl id = Some (if truthy id then editor_url id else [])
  /\ Report.itemUrl id = Some (if truthy id then editor_url id else str "#").
Proof.
  intros H. unfold Main.itemUrl, Report.itemUrl.
  rewrite (encode_unreserved _ H). now destruct (truthy id).
Qed.

Lemma map_opt_some (A B : Type) (f : A -> option B) (l : list A) :
  Forall (fun x => f x <> None) l ->
  exists l', map_opt f l = Some l' /\ length l' = length l.
Proof.
  induction 1 as [|x l Hx _ (l' & E & Hl)]; [now exists []|].
  cbn [map_opt]. destruct (f x) as [y|]; [|now elim Hx].
  rewrite E. exists (y :: l'). cbn [option_map length]. now rewrite Hl.
Qed.

Lemma map_opt_none (A B : Type) (f : A -> option B) (l : list A) :
  Exists (fun x => f x = None) l -> map_opt f l = None.
Proof.
  induction 1 as [x l Hx|x l _ IH]; cbn [map_opt].
  - now rewrite Hx.
  - rewrite IH. now destruct (f x).
Qed.

Lemma csvLine_none (r : Main.RowWithTs) :
  Main.csvLine r = None <-> well_formed (itemId (Main.rec r)) = false.
Proof.
  unfold Main.csvLine, Main.itemUrl.
  rewrite <- (@encode_well_formed _ _ (le_n (length (itemId (Main.rec r))))).
  destruct (itemId (Main.rec r)) as [|c id] eqn:E; cbn [truthy].
  - cbn. split; discriminate.
  - destruct (encodeURIComponent (c :: id)); cbn [option_map]; split;
      congruence.
Qed.

(** X12.  The editor address of an item id made of the letters MLU and six
    or more digits is the fixed address followed by the id itself, the same
    in the main script and in the report module, and the extractors read
    the id back from it. *)
Theorem itemUrl_reads_back (ds : jsstring) :
  6 <= length ds -> forallb is_digit ds = true ->
  let id := str "MLU" ++ ds in
  Main.itemUrl id = Some (editor_url id)
  /\ Report.itemUrl id = Some (editor_url id)
  /\ ExtractDomCard.pickItemIdFromHref (Some (editor_url id)) = id
  /\ ExtractDom.pickItemId [Some (editor_url id)] = id.
Proof.
  intros Hn Hd id.
  assert (Hu : forallb uri_unreserved id = true).
  { unfold id. rewrite forallb_app. apply andb_true_iff. split; [reflexivity|].
    revert Hd. apply forallb_weaken. intros x Hx. unfold uri_unreserved.
    rewrite Hx. now rewrite orb_true_r. }
  destruct (itemUrl_plain _ Hu) as [H1 H2]. split; [|split]; [exact H1|exact H2|].
  assert (He : exists m, exec true item_re (editor_url id) = Some m /\ cap1 m = id).
  { destruct (@exec_item_found (str "https://www.mercadolibre.com.uy/syi/core/modify")
                               63%N ds [])
      as (m & Hm & Hc); auto.
    exists m. split; [|exact Hc]. rewrite <- Hm. f_equal.
    unfold editor_url, id. now rewrite app_nil_r. }
  destruct He as (m & Hm & Hc).
  cbn [ExtractDomCard.pickItemIdFromHref ExtractDom.pickItemId].
  rewrite Hm, Hc. now split.
Qed.

(** X13.  The records of the plain-HTML parser (for SKUs free of pattern
    syntax characters) can always be written: for each of them the address
    column is empty or the editor address followed by the item id as it
    stands, and [recordsToCsv] returns a text for any list of such
    records. *)
Theorem parsed_rows_write :
  (forall html fallbackSku r,
      plain_sku fallbackSku = true ->
      ExtractHtml.parseHtmlForSku html fallbackSku = Some r ->
      Main.itemUrl (itemId r)
      = Some (if truthy (itemId r) then editor_url (itemId r) else []))
  /\ (forall rows,
         Forall (fun row => exists html fallbackSku,
                     plain_sku fallbackSku = true
                     /\ ExtractHtml.parseHtmlForSku html fallbackSku = Some (Main.rec row))
                rows ->
         exists csv, Main.recordsToCsv rows = Some csv).
Proof.
  assert (Hu : forall html fallbackSku r,
             plain_sku fallbackSku = true ->
             ExtractHtml.parseHtmlForSku html fallbackSku = Some r ->
             forallb uri_unreserved (itemId r) = true).
  { intros html fallbackSku r _ H.
    apply parseHtmlForSku_fields in H as (row & _ & Hid & _ & _). rewrite Hid.
    destruct (exec true item_re row) as [m|] eqn:E; [|reflexivity].
    apply exec_item_like in E. now apply item_id_unreserved in E. }
  split.
  - intros html fallbackSku r Hp H. now apply itemUrl_plain, (Hu html fallbackSku).
  - intros rows Hrows. unfold Main.recordsToCsv.
    destruct (@map_opt_some _ _ Main.csvLine rows) as (lines & E & _).
    { eapply Forall_impl; [|exact Hrows]. cbn beta.
      intros row (html & fallbackSku & Hp & H). apply Hu in H; [|exact Hp].
      unfold Main.csvLine. destruct (itemUrl_plain _ H) as [-> _]. discriminate. }
    rewrite E. eexists. reflexivity.
Qed.


(** ** The matches of a global search *)

Lemma match_here_text (ci : bool) (r : regex) (prev : option jschar)
      (st : jsstring) (m : mstate) :
  match_here ci r prev st = Some m -> st = matched_text st m ++ ms_rest m.
Proof.
  intros H. apply match_here_accepts in H. apply accepts_suffix in H as [pre E].
  cbn [ms_rest] in E. unfold matched_text, matched_len. rewrite E.
  now rewrite firstn_sub_app.
Qed.

(** Every match of a global search is a slice of the text, accepted by the
    pattern where it stands. *)
Lemma match_all_go_slices (ci : bool) (r : regex) (row : jsstring) :
  forall f s prev,
    In row (match_all_go f ci r prev s) ->
    exists before after prev' m,
      s = before ++ row ++ after
      /\ match_here ci r prev' (row ++ after) = Some m
      /\ ms_rest m = after.
Proof.
  induction f as [|f IH]; intros s prev H; [contradiction|].
  cbn [match_all_go] in H.
  destruct (search ci r prev s) as [[[sk st] m]|] eqn:E; [|contradiction].
  apply search_sound in E as [-> Hm].
  pose proof (match_here_text _ _ _ _ Hm) as Ht.
  destruct H as [H|H].
  - exists sk, (ms_rest m), (last_of prev sk), m. subst row.
    rewrite <- Ht. now repeat split.
  - destruct (Nat.eqb (matched_len st m) 0).
    + destruct st as [|c st']; [contradiction|].
      apply IH in H as (b & a & p & m' & -> & H1 & H2).
      exists (sk ++ c :: b), a, p, m'. rewrite <- app_assoc. now repeat split.
    + apply IH in H as (b & a & p & m' & E' & H1 & H2).
      exists (sk ++ matched_text st m ++ b), a, p, m'.
      split; [|now split]. rewrite Ht at 1. rewrite E'.
      now rewrite <- !app_assoc.
Qed.

Lemma spaces_run (ci : bool) (run : jsstring) :
  forallb (cls_mem ci false [CSpace]) run = true -> forallb is_space run = true.
Proof.
  intros H. rewrite <- H. apply forallb_pointwise. intros x.
  symmetry. apply cls_mem_ws.
Qed.

(** What the row pattern accepts. *)
Lemma row_re_accepts (prev : option jschar) (st : jsstring) (m : mstate) :
  match_here false row_re prev st = Some m ->
  exists inner w1 w2,
    st = row_open ++ inner ++ div_close ++ w1 ++ div_close ++ w2 ++ div_close
         ++ ms_rest m
    /\ forallb is_space w1 = true /\ forallb is_space w2 = true.
Proof.
  intros H. apply match_here_accepts in H.
  unfold row_re, seqs in H. cbn [fold_right] in H.
  apply accepts_seq_inv in H as (u1 & H1 & H).
  apply accepts_seq_inv in H as (u2 & H2 & H).
  apply accepts_seq_inv in H as (u3 & H3 & H).
  apply accepts_seq_inv in H as (u4 & H4 & H).
  apply accepts_seq_inv in H as (u5 & H5 & H).
  apply accepts_seq_inv in H as (u6 & H6 & H).
  apply accepts_seq_inv in H as (u7 & H7 & H).
  cbn [accepts] in H. subst u7.
  apply accepts_lit_exact in H1 as [E1 _]. cbn [ms_rest] in E1.
  apply accepts_suffix in H2 as [inner E2].
  apply accepts_lit_exact in H3 as [E3 _].
  apply accepts_rep_cls in H4 as (w1 & E4 & _ & S1 & _).
  apply accepts_lit_exact in H5 as [E5 _].
  apply accepts_rep_cls in H6 as (w2 & E6 & _ & S2 & _).
  apply accepts_lit_exact in H7 as [E7 _].
  exists inner, w1, w2. split; [|split; eapply spaces_run; eassumption].
  rewrite E1, E2, E3, E4, E5, E6, E7. reflexivity.
Qed.

Lemma find_first (A : Type) (f : A -> bool) (l : list A) (x : A) :
  find f l = Some x ->
  exists l1 l2, l = l1 ++ x :: l2 /\ f x = true /\ forallb (fun y => negb (f y)) l1 = true.
Proof.
  induction l as [|y l IH]; [discriminate|]. cbn [find].
  destruct (f y) eqn:E.
  - intros H. injection H as <-. exists [], l. now repeat split.
  - intros H. apply IH in H as (l1 & l2 & -> & Hx & Hl).
    exists (y :: l1), l2. cbn [forallb app]. rewrite E, Hl. now repeat split.
Qed.

(** ** Normal form of the parsed title *)

Lemma clean_fixed (t : jsstring) :
  tidy false t = true -> edge_clean t = true -> clean (Some t) = t.
Proof.
  intros Ht He. rewrite clean_squeeze.
  rewrite (tidy_squeeze_fixed _ _ Ht). now apply trim_fixed.
Qed.

Lemma tidy_no_line_end (l : jsstring) :
  forall b, tidy b l = true -> forallb not_line_end l = true.
Proof.
  induction l as [|c l IH]; intros b H; [reflexivity|].
  cbn [tidy forallb] in *. destruct (is_space c) eqn:Es.
  - apply andb_true_iff in H as [H Ht]. apply andb_true_iff in H as [_ Hc].
    apply N.eqb_eq in Hc. subst c. rewrite (IH _ Ht). reflexivity.
  - rewrite (IH _ H), andb_true_r. unfold not_line_end.
    destruct (N.eqb_spec c 10) as [->|]; [discriminate|].
    destruct (N.eqb_spec c 13) as [->|]; [discriminate|]. reflexivity.
Qed.

(** ** The SKU text of a row *)

(** A repeated class can stop after any run of members after which the
    rest of the pattern succeeds. *)
Lemma star_unit_complete (p : jschar -> bool) (greedy : bool) (k : cont) :
  forall run prev tail caps,
    forallb p run = true ->
    k (MS (last_of prev run) tail caps) <> None ->
    star_unit p greedy k prev (run ++ tail) caps <> None.
Proof.
  assert (Hor : forall x y : option mstate, x <> None \/ y <> None -> orelse x y <> None).
  { intros [x|] y H; cbn; [discriminate|]. destruct H as [H|H]; [now elim H|exact H]. }
  induction run as [|x run IH]; intros prev tail caps Hp Hk.
  - cbn [app]. destruct tail as [|y tail]; cbn [star_unit]; [exact Hk|].
    destruct (p y); [|exact Hk].
    destruct greedy; apply Hor; auto.
  - cbn [app star_unit forallb] in *. apply andb_prop in Hp as [Hx Hp]. rewrite Hx.
    rewrite last_of_cons in Hk. specialize (IH (Some x) tail caps Hp Hk).
    destruct greedy; apply Hor; auto.
Qed.

(** The needle finds the SKU text wherever it stands. *)
Lemma needle_complete (sku : jsstring) (prev : option jschar)
      (w gap sku' post : jsstring) :
  ci_same w (str "SKU") -> forallb is_space gap = true -> ci_same sku' sku ->
  boundary prev (hd_error (w ++ gap ++ sku' ++ post)) = true ->
  boundary (last_of prev (w ++ gap ++ sku')) (hd_error post) = true ->
  match_here true (needle sku) prev (w ++ gap ++ sku' ++ post) <> None.
Proof.
  intros Hw Hg Hs Hb1 Hb2.
  unfold match_here, needle, seqs. cbn [fold_right].
  cbn [rmatch]. unfold at_boundary at 1. cbn [ms_prev ms_rest].
  fold (boundary prev (hd_error (w ++ gap ++ sku' ++ post))). rewrite Hb1.
  rewrite rmatch_lit, eat_lit_ci by exact Hw.
  cbn [rep_need]. unfold ws. rewrite star_cls.
  apply star_unit_complete.
  - rewrite <- Hg. apply forallb_pointwise. intros x. apply cls_mem_ws.
  - rewrite rmatch_lit, eat_lit_ci by exact Hs.
    unfold at_boundary. cbn [ms_prev ms_rest].
    rewrite !last_of_app in Hb2. unfold boundary in Hb2. rewrite Hb2. discriminate.
Qed.

Lemma sku_text_test (sku row : jsstring) :
  sku_text_in sku row -> test true (needle sku) row = true.
Proof.
  intros (pre & w & gap & sku' & post & -> & Hw & Hg & Hs & Hb1 & Hb2).
  rewrite last_of_app in Hb2.
  pose proof (@needle_complete sku (last_of None pre) w gap sku' post Hw Hg Hs Hb1 Hb2)
    as Hm.
  destruct (match_here true (needle sku) (last_of None pre) (w ++ gap ++ sku' ++ post))
    as [m|] eqn:E; [|now elim Hm].
  now apply test_finds in E.
Qed.

(** The needle and the SKU text say the same of a row. *)
Lemma test_needle_iff (sku row : jsstring) :
  test true (needle sku) row = true <-> sku_text_in sku row.
Proof. split; [apply test_needle_text|apply sku_text_test]. Qed.

(** What a match of the pattern for the SKU of a row says. *)
Lemma sku_re_sound (prev : option jschar) (s : jsstring) (m : mstate) :
  match_here true sku_re prev s = Some m ->
  exists w gap ds post,
    s = w ++ gap ++ ds ++ post
    /\ ci_same w (str "SKU")
    /\ gap <> [] /\ forallb is_space gap = true
    /\ ds <> [] /\ forallb is_digit ds = true
    /\ get_cap 1 (ms_caps m) = Some ds
    /\ boundary prev (hd_error s) = true
    /\ boundary (last_of prev (w ++ gap ++ ds)) (hd_error post) = true.
Proof.
  intros H. apply match_here_accepts in H.
  unfold sku_re, seqs in H. cbn [fold_right] in H.
  apply accepts_seq_inv in H as (u1 & H1 & H).
  apply accepts_seq_inv in H as (u2 & H2 & H).
  apply accepts_seq_inv in H as (u3 & H3 & H).
  apply accepts_seq_inv in H as (u4 & H4 & H).
  apply accepts_seq_inv in H as (u5 & H5 & H).
  cbn [accepts] in H, H1, H5. subst m. destruct H1 as [Hb1 ->]. destruct H5 as [Hb2 ->].
  pose proof (fun pre => @accepts_prev_of _ _ _ _ pre H2) as P2.
  pose proof (fun pre => @accepts_prev_of _ _ _ _ pre H3) as P3.
  apply accepts_lit in H2 as (w & E2 & K2 & C2).
  apply accepts_rep_cls in H3 as (gap & E3 & L3 & F3 & C3).
  destruct H4 as (v & H4 & ->).
  pose proof (fun pre => @accepts_prev_of _ _ _ _ pre H4) as P4.
  apply accepts_rep_cls in H4 as (ds & E4 & L4 & F4 & C4).
  cbn [ms_rest ms_prev ms_caps] in *.
  exists w, gap, ds, (ms_rest v). repeat split.
  - now rewrite E2, E3, E4.
  - now apply chr_eq_ci_same.
  - destruct gap; [cbn in L3; lia|discriminate].
  - now apply spaces_run in F3.
  - destruct ds; [cbn in L4; lia|discriminate].
  - now apply digits_run in F4.
  - rewrite get_cap_set. f_equal. rewrite E4. apply firstn_sub_app.
  - exact Hb1.
  - unfold at_boundary in Hb2. cbn [ms_prev ms_rest] in Hb2.
    rewrite (P4 _ E4), (P3 _ E3), (P2 _ E2) in Hb2.
    now rewrite !last_of_app.
Qed.

Lemma ci_same_refl (a : jsstring) : ci_same a a.
Proof. reflexivity. Qed.

(** The SKU read off a row stands in the row. *)
Lemma exec_sku_text (row : jsstring) (m : jsstring * list (nat * jsstring)) :
  exec true sku_re row = Some m ->
  digits_only (cap1 m) = true /\ sku_text_spaced (cap1 m) row.
Proof.
  intros H. split; [now apply exec_sku_digits in H|].
  unfold exec in H.
  destruct (search true sku_re None row) as [[[sk st] t]|] eqn:E; [|discriminate].
  apply some_eq in H. subst m. apply search_sound in E as [-> Hm].
  apply sku_re_sound in Hm as (w & gap & ds & post & -> & Hw & Hg1 & Hg2 & _ & _ & Hcap
                               & Hb1 & Hb2).
  unfold cap1, group. cbn [snd]. rewrite Hcap.
  exists sk, w, gap, ds, post. repeat split; auto.
  now rewrite last_of_app.
Qed.

(** X11.  The SKU of a parsed record, in both plain-HTML parsers and for a
    SKU asked for that is free of pattern syntax characters, is the SKU
    asked for or a non-empty run of digits read off the row: the digits
    stand in the row, between word boundaries, after the letters SKU in any
    letter case and at least one whitespace unit.  (The row of the earlier
    parser is the whole page when the page has no row for the SKU.) *)
Theorem parsed_sku_shape (html fallbackSku : jsstring) :
  plain_sku fallbackSku = true ->
  (forall r, ExtractHtml.parseHtmlForSku html fallbackSku = Some r ->
             sku r = fallbackSku
             \/ (digits_only (sku r) = true
                 /\ exists row, sliceRowForSku html fallbackSku = Some row
                                /\ sku_text_spaced (sku r) row))
  /\ (let s := ExtractHtmlOld.sku (ExtractHtmlOld.parseHtmlForSku html fallbackSku) in
      s = fallbackSku
      \/ (digits_only s = true
          /\ sku_text_spaced s (match sliceRowForSku html fallbackSku with
                                | Some row => row
                                | None => html
                                end))).
Proof.
  intros _. split.
  - intros r H. apply parseHtmlForSku_fields in H as (row & Hrow & _ & _ & Hs).
    rewrite Hs. destruct (exec true sku_re row) as [m|] eqn:E; [|now left].
    right. apply exec_sku_text in E as [Hd Ht]. split; [exact Hd|].
    exists row. now split.
  - cbn zeta. unfold ExtractHtmlOld.parseHtmlForSku. cbn [ExtractHtmlOld.sku].
    set (row := match sliceRowForSku html fallbackSku with Some r => r | None => html end).
    destruct (exec true sku_re row) as [m|] eqn:E; [|now left].
    right. now apply exec_sku_text in E.
Qed.

(** X15.  For a SKU free of pattern syntax characters, the row
    [sliceRowForSku] returns is a slice of the page: it begins with the
    opening text of a listing row and ends with three closing div tags that
    only whitespace separates.  It holds the SKU text (the letters SKU in
    any letter case, whitespace or none, and the SKU, between word
    boundaries), and it is the first of the row slices of the page, in page
    order, that does. *)
Theorem sliceRowForSku_slice (html sku row : jsstring) :
  plain_sku sku = true ->
  sliceRowForSku html sku = Some row ->
  (exists before after inner w1 w2,
      html = before ++ row ++ after
      /\ row = row_open ++ inner ++ div_close ++ w1 ++ div_close ++ w2 ++ div_close
      /\ forallb is_space w1 = true /\ forallb is_space w2 = true)
  /\ sku_text_in sku row
  /\ (exists earlier later,
         match_all false row_re html = earlier ++ row :: later
         /\ Forall (fun r => ~ sku_text_in sku r) earlier).
Proof.
  intros _ H. split; [|split].
  - apply sliceRowForSku_found in H as [Hin _].
    unfold match_all in Hin.
    apply match_all_go_slices in Hin as (before & after & prev & m & Eh & Hm & Er).
    apply row_re_accepts in Hm as (inner & w1 & w2 & E & S1 & S2).
    exists before, after, inner, w1, w2. split; [exact Eh|]. split; [|now split].
    rewrite Er in E.
    replace (row_open ++ inner ++ div_close ++ w1 ++ div_close ++ w2 ++ div_close ++ after)
      with ((row_open ++ inner ++ div_close ++ w1 ++ div_close ++ w2 ++ div_close) ++ after)
      in E by now rewrite <- !app_assoc.
    now apply app_inv_tail in E.
  - apply sliceRowForSku_found in H as [_ Ht]. now apply test_needle_text.
  - unfold sliceRowForSku in H.
    destruct (find _ _) as [r|] eqn:E; [|discriminate].
    destruct (truthy r); [|discriminate]. injection H as <-.
    apply find_first in E as (l1 & l2 & E & _ & Hl). exists l1, l2.
    split; [exact E|]. apply Forall_forall. intros x Hx Ht.
    rewrite forallb_forall in Hl. specialize (Hl x Hx).
    apply sku_text_test in Ht. rewrite Ht in Hl. discriminate.
Qed.

(** X16.  The title of a parsed record is in normal form, in both
    plain-HTML parsers and for every SKU free of pattern syntax characters:
    no whitespace at its ends, no two whitespace units in a row, and no
    whitespace unit other than the space; cleaning it again changes
    nothing. *)
Theorem parsed_titulo_clean (html fallbackSku : jsstring) :
  plain_sku fallbackSku = true ->
  (forall r, ExtractHtml.parseHtmlForSku html fallbackSku = Some r ->
             tidy false (titulo r) = true /\ edge_clean (titulo r) = true
             /\ clean (Some (titulo r)) = titulo r)
  /\ (let t := ExtractHtmlOld.titulo (ExtractHtmlOld.parseHtmlForSku html fallbackSku) in
      tidy false t = true /\ edge_clean t = true /\ clean (Some t) = t).
Proof.
  assert (Hc : forall s, tidy false (clean s) = true /\ edge_clean (clean s) = true
                         /\ clean (Some (clean s)) = clean s).
  { intros s. destruct (clean_tidy s) as [H1 H2]. repeat split; auto.
    now apply clean_fixed. }
  intros _. split.
  - intros r H. apply parseHtmlForSku_fields in H as (row & _ & _ & Ht & _).
    rewrite Ht. unfold ExtractHtml.titulo_of.
    destruct (or_match _ _); [apply Hc|now repeat split].
  - cbn zeta. unfold ExtractHtmlOld.parseHtmlForSku. cbn [ExtractHtmlOld.titulo].
    destruct (or_match _ _); [apply Hc|now repeat split].
Qed.

(** X17.  The card text is cleaned before it is cut into lines, so it is
    never cut: the longest-line step of the title search sees one line, the
    whole text of the card, and returns it or nothing. *)
Theorem titleFromLines_one_line (toLowerCase : jsstring -> jsstring)
        (raw : option jsstring) :
  let text := clean raw in
  split false CardTitle.line_re text = [text]
  /\ CardTitle.titleFromLines toLowerCase text
     = if negb (CardTitle.blacklisted toLowerCase text) && (5 <? length text)
       then text else [].
Proof.
  cbn zeta. destruct (clean_tidy raw) as [Ht He].
  assert (Hs : split false CardTitle.line_re (clean raw) = [clean raw]).
  { rewrite split_lines by reflexivity.
    rewrite lines_of_plain by (eapply tidy_no_line_end; exact Ht). reflexivity. }
  split; [exact Hs|]. unfold CardTitle.titleFromLines. cbn zeta.
  rewrite Hs. cbn [map]. rewrite clean_fixed by assumption.
  destruct (clean raw) as [|c t] eqn:E; [cbn; now rewrite andb_false_r|].
  cbn [filter truthy].
  destruct (CardTitle.blacklisted toLowerCase (c :: t)); cbn [negb filter andb];
    [reflexivity|].
  destruct (5 <? length (c :: t)); reflexivity.
Qed.

(** ** The pattern with doubled backslashes *)

Lemma chr_eq_backslash (x : jschar) :
  chr_eq true ExtractDomRoles.backslash x = true -> x = 92%N.
Proof.
  unfold chr_eq, upcase, ExtractDomRoles.backslash, is_lower.
  change ((97 <=? 92) && (92 <=? 122))%N with false. cbn iota.
  intros H. apply N.eqb_eq in H.
  destruct (N.leb_spec 97 x), (N.leb_spec x 122); cbn [andb] in H; lia.
Qed.

Lemma escaped_match_backslash (prev : option jschar) (st : jsstring) (m : mstate) :
  match_here true ExtractDomRoles.item_re_escaped prev st = Some m ->
  existsb (N.eqb 92) st = true.
Proof.
  intros H. apply match_here_accepts in H.
  unfold ExtractDomRoles.item_re_escaped in H.
  unfold seqs at 1 in H. cbn [fold_right] in H.
  apply accepts_seq_inv in H as (u1 & H1 & H).
  apply accepts_seq_inv in H as (u2 & H2 & H).
  apply accepts_seq_inv in H as (u3 & H3 & H).
  apply accepts_seq_inv in H as (u4 & H4 & _).
  apply accepts_suffix in H1 as [p1 E1]. apply accepts_suffix in H2 as [p2 E2].
  apply accepts_suffix in H3 as [p3 E3]. cbn [ms_rest] in *.
  cbn [accepts] in H4. destruct H4 as (x & xs & E4 & Hx & _).
  apply chr_eq_backslash in Hx. subst x.
  rewrite E1, E2, E3, E4. rewrite !existsb_app. cbn [existsb N.eqb Pos.eqb].
  now rewrite !orb_true_r.
Qed.

Lemma existsb_app_false (f : jschar -> bool) (a b : jsstring) :
  existsb f (a ++ b) = false -> existsb f b = false.
Proof. rewrite existsb_app. intros H. now apply orb_false_iff in H as [_ H]. Qed.

(** ** The fields of the earlier parser *)

Lemma squeeze_units (c : jschar) (s : jsstring) :
  forall b, In c (squeeze b s) -> c = 32%N \/ In c s.
Proof.
  induction s as [|x s IH]; intros b H; [contradiction|]. cbn [squeeze] in H.
  destruct (is_space x).
  - destruct b.
    + apply IH in H as [H|H]; [now left|right; now right].
    + destruct H as [H|H]; [now left|].
      apply IH in H as [H|H]; [now left|right; now right].
  - destruct H as [H|H]; [right; now left|].
    apply IH in H as [H|H]; [now left|right; now right].
Qed.

(** Cleaning adds no unit but the space. *)
Lemma clean_units (c : jschar) (s : option jsstring) :
  In c (clean s) -> c = 32%N \/ In c (match s with Some t => t | None => [] end).
Proof.
  rewrite clean_squeeze. intros H. apply trim_incl in H.
  now apply squeeze_units in H.
Qed.

Lemma notc_run (ci : bool) (c : jschar) (run : jsstring) :
  forallb (cls_mem ci true [CChar c]) run = true -> ~ In c run.
Proof.
  intros H Hin. rewrite forallb_forall in H. apply H in Hin.
  unfold cls_mem in Hin. cbn [existsb citem_mem] in Hin.
  now rewrite chr_eq_refl in Hin.
Qed.

Lemma exec_old_title_cap (s : jsstring) (m : jsstring * list (nat * jsstring)) :
  exec true ExtractHtmlOld.title_re1 s = Some m
  \/ exec true ExtractHtmlOld.title_re2 s = Some m ->
  cap1 m <> [] /\ ~ In 60%N (cap1 m).
Proof.
  assert (Hg : forall u t tail,
             capless tail = true ->
             accepts true (Seq (Grp 1 (Rep 1 true (notc 60%N))) tail) u t ->
             exists run, get_cap 1 (ms_caps t) = Some run
                         /\ run <> [] /\ ~ In 60%N run).
  { intros u t tail Hc H. apply accepts_seq_inv in H as (v & Hg & H).
    apply accepts_capless in H; [|exact Hc].
    apply accepts_grp_run in Hg as (run & Hn & Hf & Hcap).
    exists run. rewrite H. split; [exact Hcap|]. split.
    - intros ->. cbn in Hn. lia.
    - now apply notc_run in Hf. }
  intros [H|H]; apply exec_accepts in H as (prev & st & t & H & Hm).
  - unfold ExtractHtmlOld.title_re1, seqs in H. cbn [fold_right] in H.
    do 5 (apply accepts_seq_inv in H as (? & _ & H)).
    apply Hg in H as (run & Hcap & Hne & Hno); [|reflexivity].
    unfold cap1, group. now rewrite Hm, Hcap.
  - unfold ExtractHtmlOld.title_re2, seqs in H. cbn [fold_right] in H.
    do 9 (apply accepts_seq_inv in H as (? & _ & H)).
    apply Hg in H as (run & Hcap & Hne & Hno); [|reflexivity].
    unfold cap1, group. now rewrite Hm, Hcap.
Qed.

Lemma exec_old_href_cap (s : jsstring) (m : jsstring * list (nat * jsstring)) :
  exec true ExtractHtmlOld.href_re1 s = Some m
  \/ exec true ExtractHtmlOld.href_re2 s = Some m ->
  cap1 m <> [] /\ ~ In dq (cap1 m).
Proof.
  assert (Hg : forall u t tail,
             capless tail = true ->
             accepts true (Seq (Grp 1 (Rep 1 true (notc dq))) tail) u t ->
             exists run, get_cap 1 (ms_caps t) = Some run
                         /\ run <> [] /\ ~ In dq run).
  { intros u t tail Hc H. apply accepts_seq_inv in H as (v & Hg & H).
    apply accepts_capless in H; [|exact Hc].
    apply accepts_grp_run in Hg as (run & Hn & Hf & Hcap).
    exists run. rewrite H. split; [exact Hcap|]. split.
    - intros ->. cbn in Hn. lia.
    - now apply notc_run in Hf. }
  intros [H|H]; apply exec_accepts in H as (prev & st & t & H & Hm).
  - unfold ExtractHtmlOld.href_re1, seqs in H. cbn [fold_right] in H.
    do 5 (apply accepts_seq_inv in H as (? & _ & H)).
    apply Hg in H as (run & Hcap & Hne & Hno); [|reflexivity].
    unfold cap1, group. now rewrite Hm, Hcap.
  - unfold ExtractHtmlOld.href_re2, seqs in H. cbn [fold_right] in H.
    do 9 (apply accepts_seq_inv in H as (? & _ & H)).
    apply Hg in H as (run & Hcap & Hne & Hno); [|reflexivity].
    unfold cap1, group. now rewrite Hm, Hcap.
Qed.

Lemma or_match_some (A : Type) (a b : option A) (m : A) :
  or_match a b = Some m -> a = Some m \/ b = Some m.
Proof. unfold or_match. destruct a; auto. Qed.

(** X18.  The item-id reader of the first DOM copy (src/unnamed/part_001,
    lines 33-37) finds nothing in an address without a backslash: its
    pattern, written with doubled backslashes, asks for a backslash in the
    text.  The editor address of an item has none. *)
Theorem escaped_pattern_needs_backslash :
  (forall href, existsb (N.eqb 92%N) href = false ->
                ExtractDomRoles.pickItemIdFromHref (Some href) = [])
  /\ ExtractDomRoles.pickItemIdFromHref None = []
  /\ (forall ds, forallb is_digit ds = true ->
                 ExtractDomRoles.pickItemIdFromHref
                   (Some (editor_url (str "MLU" ++ ds))) = []).
Proof.
  assert (H1 : forall href, existsb (N.eqb 92%N) href = false ->
                            ExtractDomRoles.pickItemIdFromHref (Some href) = []).
  { intros href Hb. cbn [ExtractDomRoles.pickItemIdFromHref].
    destruct (truthy href); [|reflexivity].
    unfold exec.
    destruct (search true ExtractDomRoles.item_re_escaped None href)
      as [[[sk st] m]|] eqn:E; [|reflexivity].
    apply search_sound in E as [-> Hm].
    apply escaped_match_backslash in Hm. apply existsb_app_false in Hb.
    exfalso. revert Hm. unfold jschar in *. rewrite Hb. discriminate. }
  split; [exact H1|]. split; [reflexivity|].
  intros ds Hd. apply H1. unfold editor_url. rewrite !existsb_app.
  cbn [orb]. change (existsb (N.eqb 92%N) (str "MLU")) with false. cbn [orb].
  apply not_true_is_false. intros H. apply existsb_exists in H as (x & Hx & E).
  apply N.eqb_eq in E. subst x. rewrite forallb_forall in Hd. apply Hd in Hx.
  discriminate.
Qed.

(** X19.  In the earlier plain-HTML parser, for every SKU free of pattern
    syntax characters, the title never holds an opening angle bracket and
    the address of the title link never holds a double quote. *)
Theorem old_parser_fields (html fallbackSku : jsstring) :
  plain_sku fallbackSku = true ->
  let r := ExtractHtmlOld.parseHtmlForSku html fallbackSku in
  ~ In 60%N (ExtractHtmlOld.titulo r) /\ ~ In dq (ExtractHtmlOld.url_item r).
Proof.
  intros _. cbn zeta. unfold ExtractHtmlOld.parseHtmlForSku.
  cbn [ExtractHtmlOld.titulo ExtractHtmlOld.url_item].
  set (row := match sliceRowForSku html fallbackSku with Some r => r | None => html end).
  split.
  - destruct (or_match (exec true ExtractHtmlOld.title_re1 row) _) as [m|] eqn:E;
      [|intros []].
    apply or_match_some in E. apply exec_old_title_cap in E as [_ Hno].
    intros Hin. apply clean_units in Hin as [Hin|Hin]; [discriminate|].
    now apply Hno.
  - destruct (or_match (exec true ExtractHtmlOld.href_re1 row) _) as [m|] eqn:E;
      [|intros []].
    apply or_match_some in E. now apply exec_old_href_cap in E as [_ Hno].
Qed.

(** ** Tags *)

Lemma rmatch_chr (ci : bool) (c : jschar) (k : cont) (s : mstate) :
  rmatch ci (Chr c) k s =
  match ms_rest s with
  | x :: xs => if chr_eq ci c x then k (advance s x xs) else None
  | [] => None
  end.
Proof. reflexivity. Qed.

(** A greedy run followed by something the run cannot start with never
    gives units back. *)
Lemma star_unit_then_stop (p : jschar -> bool) (k : cont) :
  (forall prev y ys caps, p y = true -> k (MS prev (y :: ys) caps) = None) ->
  forall s prev caps,
    star_unit p true k prev s caps
    = k (MS (last_run p prev s) (drop_run p s) caps).
Proof.
  intros Hk. induction s as [|y ys IH]; intros prev caps; [reflexivity|].
  cbn [star_unit last_run drop_run]. destruct (p y) eqn:E; [|reflexivity].
  rewrite (Hk _ _ _ _ E), orelse_none_r. apply IH.
Qed.

Lemma drop_run_gt (s : jsstring) :
  match drop_run not_gt s with
  | y :: _ => y = 62%N /\ existsb (N.eqb 62%N) s = true
  | [] => existsb (N.eqb 62%N) s = false
  end.
Proof.
  induction s as [|x s IH]; [reflexivity|]. cbn [drop_run existsb].
  unfold not_gt at 1. destruct (N.eqb_spec 62 x) as [E|E]; cbn [negb orb].
  - now split.
  - destruct (drop_run not_gt s); exact IH.
Qed.

Lemma match_here_tag (prev : option jschar) (s : jsstring) :
  match_here false ExtractHtml.tag_re prev s =
  match s with
  | c :: x :: xs =>
      if (60 =? c)%N && not_gt x
      then match drop_run not_gt xs with
           | y :: tail => Some (MS (Some y) tail [])
           | [] => None
           end
      else None
  | _ => None
  end.
Proof.
  unfold match_here, ExtractHtml.tag_re, seqs. cbn [fold_right].
  rewrite rmatch_seq, rmatch_chr. cbn [ms_rest].
  destruct s as [|c s]; [reflexivity|]. unfold chr_eq.
  destruct (60 =? c)%N; [|now destruct s]. cbn [andb].
  rewrite rmatch_seq. unfold notc. rewrite rmatch_plus_cls.
  unfold advance. cbn [ms_rest ms_caps].
  destruct s as [|x xs]; [reflexivity|].
  assert (Hp : forall y, cls_mem false true [CChar 62%N] y = not_gt y).
  { intros y. unfold cls_mem, not_gt. cbn [existsb citem_mem]. unfold chr_eq.
    now rewrite orb_false_r. }
  rewrite Hp. destruct (not_gt x); [|reflexivity].
  rewrite (star_unit_ext _ not_gt true _ Hp).
  rewrite star_unit_then_stop.
  - rewrite rmatch_seq, rmatch_chr. cbn [ms_rest].
    pose proof (drop_run_gt xs) as Hd.
    destruct (drop_run not_gt xs) as [|y tail]; [reflexivity|].
    destruct Hd as [-> _]. reflexivity.
  - intros p y ys caps Hy. rewrite rmatch_seq, rmatch_chr. cbn [ms_rest].
    unfold chr_eq. unfold not_gt in Hy. apply negb_true_iff in Hy. now rewrite Hy.
Qed.

Lemma match_here_tag_some (prev : option jschar) (s : jsstring) :
  (match match_here false ExtractHtml.tag_re prev s with
   | Some _ => true | None => false end) = tag_here s.
Proof.
  rewrite match_here_tag. destruct s as [|c [|x xs]]; try reflexivity.
  cbn [tag_here]. destruct ((60 =? c)%N && not_gt x); [|reflexivity].
  cbn [andb]. pose proof (drop_run_gt xs) as Hd.
  destruct (drop_run not_gt xs); [now rewrite Hd|now destruct Hd as [_ ->]].
Qed.

Lemma search_tag (s : jsstring) :
  forall prev,
    (match search false ExtractHtml.tag_re prev s with
     | Some _ => true | None => false end) = has_tag s.
Proof.
  induction s as [|c s IH]; intros prev; cbn [search has_tag];
    rewrite <- (match_here_tag_some prev).
  - now destruct (match_here false ExtractHtml.tag_re prev []).
  - destruct (match_here false ExtractHtml.tag_re prev (c :: s)); [reflexivity|].
    rewrite <- (IH (Some c)). cbn [orb].
    now destruct (search false ExtractHtml.tag_re (Some c) s) as [[[? ?] ?]|].
Qed.

(** The pattern finds a tag exactly where one begins. *)
Lemma test_tag (s : jsstring) : test false ExtractHtml.tag_re s = has_tag s.
Proof.
  unfold test. rewrite <- (search_tag s None).
  now destruct (search false ExtractHtml.tag_re None s) as [[[? ?] ?]|].
Qed.

Lemma match_here_tag_rest (prev : option jschar) (s : jsstring) (m : mstate) :
  match_here false ExtractHtml.tag_re prev s = Some m ->
  length (ms_rest m) < length s
  /\ (forall c, In c (ms_rest m) -> In c s).
Proof.
  intros H. pose proof (match_here_text _ _ _ _ H) as Ht.
  rewrite match_here_tag in H. destruct s as [|c [|x xs]]; try discriminate.
  destruct ((60 =? c)%N && not_gt x); [|discriminate].
  pose proof (drop_run_length not_gt xs) as Hl.
  destruct (drop_run not_gt xs) as [|y tail] eqn:E; [discriminate|].
  injection H as <-. cbn [ms_rest length] in *. split; [lia|].
  intros d Hd. rewrite Ht. apply in_or_app. now right.
Qed.

Lemma tag_here_no_gt (c : jschar) (s : jsstring) :
  existsb (N.eqb 62%N) s = false -> tag_here (c :: s) = false.
Proof.
  destruct s as [|x xs]; [reflexivity|]. cbn [tag_here existsb]. intros H.
  apply orb_false_iff in H as [_ H]. now rewrite H, andb_false_r.
Qed.

Lemma existsb_gt_units (a b : jsstring) :
  (forall c, In c a -> c = 32%N \/ In c b) ->
  existsb (N.eqb 62%N) b = false -> existsb (N.eqb 62%N) a = false.
Proof.
  intros Hab Hb. apply not_true_is_false. intros Ha.
  apply existsb_exists in Ha as (x & Hx & E). apply N.eqb_eq in E. subst x.
  apply Hab in Hx as [Hx|Hx]; [discriminate|].
  assert (existsb (N.eqb 62%N) b = true)
    by (apply existsb_exists; exists 62%N; now split).
  congruence.
Qed.

(** A text that begins no tag still begins none when what follows its first
    unit is rewritten without new closing brackets and with the same first
    unit when that is a closing bracket. *)
Lemma tag_here_rewritten (c : jschar) (s o : jsstring) :
  tag_here (c :: s) = false ->
  (forall d, In d o -> d = 32%N \/ In d s) ->
  (forall s', s = 62%N :: s' -> exists o', o = 62%N :: o') ->
  tag_here (c :: o) = false.
Proof.
  intros Ht Hu Hh. destruct s as [|x xs].
  - destruct o as [|d o]; [reflexivity|].
    apply tag_here_no_gt. apply existsb_gt_units with (b := []); [exact Hu|reflexivity].
  - cbn [tag_here] in Ht. destruct (N.eqb_spec 60 c) as [Ec|Ec].
    2:{ destruct o as [|o1 o2]; [reflexivity|]. cbn [tag_here].
        destruct (N.eqb_spec 60 c); [contradiction|reflexivity]. }
    cbn [andb] in Ht. unfold not_gt in Ht.
    destruct (N.eqb_spec 62 x) as [Ex|Ex].
    + subst x. destruct (Hh xs eq_refl) as [o' ->]. cbn [tag_here].
      unfold not_gt. rewrite N.eqb_refl. cbn [negb]. now rewrite andb_false_r.
    + cbn [negb andb] in Ht. apply tag_here_no_gt.
      apply existsb_gt_units with (b := x :: xs); [exact Hu|].
      cbn [existsb]. rewrite Ht. destruct (N.eqb_spec 62 x); [contradiction|reflexivity].
Qed.

Lemma has_tag_cons (c : jschar) (s : jsstring) :
  has_tag (c :: s) = tag_here (c :: s) || has_tag s.
Proof. reflexivity. Qed.

(** Replacing every tag by a space leaves no tag, adds no unit but the
    space, and keeps a closing bracket at the head. *)
Lemma strip_tags_go :
  forall n s, length s <= n ->
    forall f prev, length s < f ->
      has_tag (replace_go f false ExtractHtml.tag_re (str " ") prev s) = false
      /\ (forall d, In d (replace_go f false ExtractHtml.tag_re (str " ") prev s) ->
                    d = 32%N \/ In d s)
      /\ (forall s', s = 62%N :: s' ->
                     exists o', replace_go f false ExtractHtml.tag_re (str " ") prev s
                                = 62%N :: o').
Proof.
  induction n as [|n IH]; intros s Hn f prev Hf; (destruct f as [|f]; [lia|]).
  - destruct s; [|cbn in Hn; lia]. cbn [replace_go search].
    rewrite match_here_tag. repeat split; [intros d []|discriminate].
  - destruct s as [|c s].
    { cbn [replace_go search]. rewrite match_here_tag.
      repeat split; [intros d []|discriminate]. }
    cbn [length] in Hn, Hf.
    pose proof (match_here_tag_some prev (c :: s)) as Ht.
    destruct (match_here false ExtractHtml.tag_re prev (c :: s)) as [m|] eqn:Em.
    + destruct (match_here_tag_rest _ _ Em) as [Hl Hu]. cbn [length] in Hl.
      rewrite (replace_go_hit _ _ _ f _ _ Em) by exact Hl.
      destruct (IH (ms_rest m) ltac:(lia) f (ms_prev m) ltac:(lia)) as (I1 & I2 & _).
      change (str " " ++ ?x) with (32%N :: x).
      split; [|split].
      * rewrite has_tag_cons, I1, orb_false_r.
        now destruct (replace_go f false ExtractHtml.tag_re (str " ") (ms_prev m) (ms_rest m)).
      * intros d [<-|Hd]; [now left|].
        apply I2 in Hd as [Hd|Hd]; [now left|right; now apply Hu].
      * intros s' E. injection E as -> _. destruct s; discriminate Ht.
    + rewrite (replace_go_keep _ _ _ f _ _ _ Em).
      destruct (IH s ltac:(lia) (S f) (Some c) ltac:(lia)) as (I1 & I2 & I3).
      split; [|split].
      * rewrite has_tag_cons, I1, orb_false_r.
        apply tag_here_rewritten with (s := s); auto.
      * intros d [<-|Hd]; [right; now left|].
        apply I2 in Hd as [Hd|Hd]; [now left|right; now right].
      * intros s' E. injection E as -> _. eexists. reflexivity.
Qed.

Lemma strip_tags_tagless (s : jsstring) :
  has_tag (replace_all false ExtractHtml.tag_re (str " ") s) = false.
Proof.
  unfold replace_all.
  apply strip_tags_go with (n := length s); lia.
Qed.

Lemma has_tag_suffix (a b : jsstring) : has_tag (a ++ b) = false -> has_tag b = false.
Proof.
  induction a as [|x a IH]; [auto|]. cbn [app]. rewrite has_tag_cons.
  intros H. apply orb_false_iff in H as [_ H]. now apply IH.
Qed.

Lemma has_tag_prefix (a b : jsstring) : has_tag (a ++ b) = false -> has_tag a = false.
Proof.
  induction a as [|x a IH]; [reflexivity|]. cbn [app]. rewrite !has_tag_cons.
  intros H. apply orb_false_iff in H as [Ht H]. rewrite (IH H), orb_false_r.
  destruct a as [|y ys]; [reflexivity|]. cbn [app tag_here] in *.
  rewrite existsb_app in Ht.
  destruct ((60 =? x)%N && not_gt y); [|reflexivity]. cbn [andb] in *.
  now apply orb_false_iff in Ht as [Ht _].
Qed.

Lemma squeeze_tagless (s : jsstring) :
  forall b, has_tag s = false -> has_tag (squeeze b s) = false.
Proof.
  induction s as [|c s IH]; intros b H; [reflexivity|].
  rewrite has_tag_cons in H. apply orb_false_iff in H as [Ht H].
  cbn [squeeze]. destruct (is_space c) eqn:Es.
  - destruct b; [now apply IH|].
    rewrite has_tag_cons, (IH true H), orb_false_r.
    destruct (squeeze true s) as [|y ys]; reflexivity.
  - rewrite has_tag_cons, (IH false H), orb_false_r.
    apply tag_here_rewritten with (s := s); [exact Ht| |].
    + intros d Hd. now apply squeeze_units in Hd.
    + intros s' ->. cbn [squeeze]. change (is_space 62%N) with false.
      eexists. reflexivity.
Qed.

Lemma clean_tagless (s : jsstring) :
  has_tag s = false -> has_tag (clean (Some s)) = false.
Proof.
  intros H. rewrite clean_squeeze.
  apply squeeze_tagless with (b := false) in H.
  destruct (trim_split (squeeze false s)) as (w1 & w2 & E).
  rewrite E in H. apply has_tag_suffix in H. now apply has_tag_prefix in H.
Qed.

(** X20.  The title of a record of the plain-HTML parser (for a SKU free of
    pattern syntax characters) holds no tag: the tag pattern of the parser
    finds nothing in it, that is, no opening angle bracket of the title is
    followed by a unit other than the closing bracket and, further on, by a
    closing bracket. *)
Theorem parsed_titulo_no_tag (html fallbackSku : jsstring) (r : ParsedRecord) :
  plain_sku fallbackSku = true ->
  ExtractHtml.parseHtmlForSku html fallbackSku = Some r ->
  test false ExtractHtml.tag_re (titulo r) = false
  /\ has_tag (titulo r) = false.
Proof.
  intros _ H. rewrite test_tag.
  assert (Ht : has_tag (titulo r) = false); [|now split].
  apply parseHtmlForSku_fields in H as (row & _ & _ & Ht & _).
  rewrite Ht. unfold ExtractHtml.titulo_of.
  destruct (or_match _ _) as [m|]; [|reflexivity].
  apply clean_tagless, strip_tags_tagless.
Qed.

(** ** buildHtmlReport *)

Lemma report_tableFor_run (localeCompare : jsstring -> jsstring -> Z)
      (a : addr) (h : store Report.Row) :
  Report.tableFor localeCompare a h
  = (option_map (fun cells => Report.table_open ++ join [] cells ++ Report.table_close)
                (map_opt Report.rowHtml
                         (sort_by (Report.rowCmp localeCompare) (nth a h []))),
     h ++ [sort_by (Report.rowCmp localeCompare) (nth a h [])]).
Proof.
  unfold Report.tableFor.
  pose proof (sort_copy_run (Report.rowCmp localeCompare) a h) as Hrun.
  unfold bind in *.
  destruct (spread a h) as [copy h1].
  destruct (sort_in_place (Report.rowCmp localeCompare) copy h1) as [ordered h2].
  rewrite Hrun. reflexivity.
Qed.

Lemma section_for_run (localeCompare : jsstring -> jsstring -> Z)
      (st : Report.Competencia) (g : list Report.Row) (h : store Report.Row) :
  fst (Report.section_for localeCompare st g h)
  = section_text st (sort_by (Report.rowCmp localeCompare) g).
Proof.
  unfold Report.section_for, bind, new_array.
  rewrite report_tableFor_run, nth_last. unfold ret, section_text. cbn [fst].
  rewrite <- (Permutation_length (sort_by_perm (Report.rowCmp localeCompare) g)).
  now destruct (map_opt Report.rowHtml (sort_by (Report.rowCmp localeCompare) g)).
Qed.

Lemma sections_for_run (localeCompare : jsstring -> jsstring -> Z)
      (groups : Report.Groups) (sts : list Report.Competencia) :
  forall h,
    fst (Report.sections_for localeCompare sts groups h)
    = map_opt (fun st => section_text st (sort_by (Report.rowCmp localeCompare)
                                                  (Report.group_of groups st)))
              sts.
Proof.
  induction sts as [|st sts IH]; intros h; [reflexivity|].
  cbn [Report.sections_for map_opt]. unfold bind at 1.
  pose proof (section_for_run localeCompare st (Report.group_of groups st) h) as Hs.
  destruct (Report.section_for localeCompare st (Report.group_of groups st) h)
    as [s h1]. cbn [fst] in Hs. rewrite <- Hs.
  destruct s as [x|]; [|reflexivity].
  unfold bind. specialize (IH h1).
  destruct (Report.sections_for localeCompare sts groups h1) as [rest h2].
  cbn [fst] in IH. rewrite <- IH. reflexivity.
Qed.

Lemma summarize_groups (rows : list Report.Row) (st : Report.Competencia) :
  Report.group_of (Report.groups (Report.summarize rows)) st
  = rows_with_competencia st rows.
Proof.
  unfold Report.summarize. cbn [Report.groups]. rewrite group_of_fold.
  now destruct st.
Qed.

Lemma rows_with_competencia_some (st : Report.Competencia) (rows : list Report.Row) :
  (0 <? length (rows_with_competencia st rows))
  = existsb (fun r => Report.Competencia_eqb (Report.estado_competencia r) st) rows.
Proof.
  unfold rows_with_competencia. induction rows as [|r rows IH]; [reflexivity|].
  cbn [filter existsb].
  destruct (Report.Competencia_eqb (Report.estado_competencia r) st); [reflexivity|].
  exact IH.
Qed.

Lemma map_opt_map (A B C : Type) (g : A -> B) (f : B -> option C) (l : list A) :
  map_opt f (map g l) = map_opt (fun x => f (g x)) l.
Proof.
  induction l as [|x l IH]; [reflexivity|]. cbn [map map_opt]. now rewrite IH.
Qed.

Lemma map_opt_pointwise (A B : Type) (f g : A -> option B) (l : list A) :
  (forall x, f x = g x) -> map_opt f l = map_opt g l.
Proof.
  intros H. induction l as [|x l IH]; [reflexivity|]. cbn [map_opt].
  now rewrite H, IH.
Qed.

Lemma map_opt_length (A B : Type) (f : A -> option B) (l : list A) (l' : list B) :
  map_opt f l = Some l' -> length l' = length l.
Proof.
  revert l'. induction l as [|x l IH]; intros l' H; cbn [map_opt] in H.
  - now injection H as <-.
  - destruct (f x) as [y|]; [|discriminate].
    destruct (map_opt f l) as [t|]; [|discriminate].
    injection H as <-. cbn [length]. now rewrite (IH t eq_refl).
Qed.

Lemma map_opt_all (A B : Type) (f : A -> option B) (P : B -> Prop) (l : list A) :
  (forall x y, f x = Some y -> P y) ->
  forall l', map_opt f l = Some l' -> Forall P l'.
Proof.
  intros HP. induction l as [|x l IH]; intros l' H; cbn [map_opt] in H.
  - injection H as <-. constructor.
  - destruct (f x) as [y|] eqn:E; [|discriminate].
    destruct (map_opt f l) as [t|]; [|discriminate].
    injection H as <-. constructor; [now apply (HP x)|now apply IH].
Qed.

Lemma section_text_not_empty (st : Report.Competencia) (ordered : list Report.Row)
      (x : jsstring) :
  section_text st ordered = Some x -> x <> [].
Proof.
  unfold section_text. destruct (map_opt Report.rowHtml ordered); [|discriminate].
  cbn [option_map]. intros H. injection H as <-. discriminate.
Qed.

Lemma join_not_empty (x : jsstring) (l : list jsstring) :
  x <> [] -> join [] (x :: l) <> [].
Proof.
  intros Hx. destruct l as [|y l]; [exact Hx|].
  change (join [] (x :: y :: l)) with (x ++ [] ++ join [] (y :: l)).
  destruct x; [now elim Hx|discriminate].
Qed.

Lemma statuses_with_rows_some (r : Report.Row) (rows : list Report.Row) :
  statuses_with_rows (r :: rows) <> [].
Proof.
  assert (H : In (Report.estado_competencia r) (statuses_with_rows (r :: rows))).
  { apply filter_In. split.
    - unfold Report.STATUS_ORDER. destruct (Report.estado_competencia r); cbn; auto.
    - cbn [existsb]. now destruct (Report.estado_competencia r). }
  intros E. rewrite E in H. exact H.
Qed.

(** Every row has one of the four statuses. *)
Lemma rows_by_status (rows : list Report.Row) :
  Permutation rows
    (concat (map (fun st => rows_with_competencia st rows) Report.STATUS_ORDER)).
Proof.
  unfold Report.STATUS_ORDER, rows_with_competencia. cbn [map concat].
  rewrite app_nil_r.
  induction rows as [|r rows IH]; [constructor|]. cbn [filter].
  destruct (Report.estado_competencia r); cbn [Report.Competencia_eqb].
  - cbn [app]. now constructor.
  - rewrite app_assoc. apply Permutation_cons_app. now rewrite <- app_assoc.
  - apply Permutation_cons_app. exact IH.
  - rewrite !app_assoc. apply Permutation_cons_app. now rewrite <- !app_assoc.
Qed.

Lemma concat_skip_empty (A B : Type) (f : A -> list B) (p : A -> bool) (l : list A) :
  (forall x, p x = false -> f x = []) ->
  concat (map f (filter p l)) = concat (map f l).
Proof.
  intros H. induction l as [|x l IH]; [reflexivity|]. cbn [filter map concat].
  destruct (p x) eqn:E; cbn [map concat]; [now rewrite IH|].
  now rewrite (H _ E), IH.
Qed.

Lemma Permutation_concat_map (A B : Type) (f g : A -> list B) (l : list A) :
  (forall x, Permutation (f x) (g x)) ->
  Permutation (concat (map f l)) (concat (map g l)).
Proof.
  intros H. induction l as [|x l IH]; [constructor|]. cbn [map concat].
  now apply Permutation_app.
Qed.

(** The text of the report of [buildHtmlReport]: its body is one section
    for each status that has rows, in the order of the report, each with
    the number of its rows in the heading and its rows in table order; the
    rows of all sections together are the rows given.  Without rows the body
    is the paragraph that says there were no results. *)
Lemma buildHtmlReport_text
        (localeCompare : jsstring -> jsstring -> Z) (tsLocal : jsstring)
        (rows : list Report.Row) (h : store Report.Row) :
  consistent localeCompare ->
  exists listing : list (Report.Competencia * list Report.Row),
    map fst listing = statuses_with_rows rows
    /\ Forall (fun p => Permutation (rows_with_competencia (fst p) rows) (snd p)
                        /\ StronglySorted (report_row_le localeCompare) (snd p))
              listing
    /\ Permutation rows (concat (map snd listing))
    /\ fst (Report.buildHtmlReport localeCompare tsLocal rows h)
       = option_map
           (fun secs =>
              Report.page tsLocal (Report.summarize rows)
                          (match rows with
                           | [] => Report.no_results
                           | _ :: _ => join [] secs
                           end))
           (map_opt (fun p => section_text (fst p) (snd p)) listing).
Proof.
  intros Hc.
  set (cmp := Report.rowCmp localeCompare).
  exists (map (fun st => (st, sort_by cmp (rows_with_competencia st rows)))
              (statuses_with_rows rows)).
  split; [|split; [|split]].
  - rewrite map_map. cbn [fst]. apply map_id.
  - apply Forall_forall. intros p Hp. apply in_map_iff in Hp as (st & <- & _).
    cbn [fst snd]. split; [apply sort_by_perm|].
    eapply StronglySorted_impl; [intros a b; apply report_rowCmp_le|].
    apply sort_by_sorted; [apply report_le_total|apply report_le_trans]; exact Hc.
  - rewrite map_map. cbn [snd].
    eapply perm_trans; [apply rows_by_status|].
    rewrite <- concat_skip_empty
      with (f := fun st => rows_with_competencia st rows)
           (p := fun st => existsb (fun r => Report.Competencia_eqb
                                               (Report.estado_competencia r) st) rows).
    + apply Permutation_concat_map. intros st. apply sort_by_perm.
    + intros st E. rewrite <- rows_with_competencia_some in E.
      apply Nat.ltb_ge in E. now destruct (rows_with_competencia st rows); [|cbn in E; lia].
  - unfold Report.buildHtmlReport. cbn zeta. unfold bind.
    pose proof (sections_for_run localeCompare (Report.groups (Report.summarize rows))
                  (filter (fun st => 0 <? length (Report.group_of
                                                    (Report.groups (Report.summarize rows)) st))
                          Report.STATUS_ORDER) h) as Hrun.
    destruct (Report.sections_for _ _ _ h) as [secs h1]. cbn [fst] in Hrun.
    unfold ret. cbn [fst]. rewrite Hrun. clear Hrun.
    rewrite map_opt_map. cbn [fst snd].
    assert (Hf : filter (fun st => 0 <? length (Report.group_of
                                                  (Report.groups (Report.summarize rows)) st))
                        Report.STATUS_ORDER
                 = statuses_with_rows rows).
    { unfold statuses_with_rows. apply filter_ext. intros st.
      now rewrite summarize_groups, rows_with_competencia_some. }
    rewrite Hf.
    rewrite map_opt_pointwise
      with (g := fun st => section_text st (sort_by cmp (rows_with_competencia st rows)))
      by (intros st; now rewrite summarize_groups).
    destruct (map_opt _ (statuses_with_rows rows)) as [l|] eqn:E; [|reflexivity].
    cbn [option_map]. f_equal. f_equal.
    destruct rows as [|r rows].
    + cbn in E. injection E as <-. reflexivity.
    + pose proof (map_opt_length _ _ E) as Hl.
      assert (Hall : Forall (fun x => x <> []) l).
      { revert E. apply map_opt_all. intros st x. apply section_text_not_empty. }
      destruct l as [|x l].
      { exfalso. apply (@statuses_with_rows_some r rows).
        now destruct (statuses_with_rows (r :: rows)). }
      inversion Hall as [|? ? Hx _]; subst.
      unfold or_str. pose proof (@join_not_empty x l Hx) as Hj.
      now destruct (join [] (x :: l)).
Qed.

(** ** htmlReport *)

Section MainReport.
Variable localeCompare : jsstring -> jsstring -> Z.
Variable localFmt : jsstring -> option jsstring.

Lemma main_tableFor_run (a : addr) (h : store Main.RowWithTs) :
  Main.tableFor localeCompare localFmt a h
  = (option_map (fun cells => Main.table_open ++ join [] cells ++ Main.table_close)
                (map_opt (Main.rowHtml localFmt)
                         (sort_by (Main.rowCmp localeCompare) (nth a h []))),
     h ++ [sort_by (Main.rowCmp localeCompare) (nth a h [])]).
Proof.
  unfold Main.tableFor.
  pose proof (sort_copy_run (Main.rowCmp localeCompare) a h) as Hrun.
  unfold bind in *.
  destruct (spread a h) as [copy h1].
  destruct (sort_in_place (Main.rowCmp localeCompare) copy h1) as [ordered h2].
  rewrite Hrun. reflexivity.
Qed.

Lemma main_section_for_run (rows : list Main.RowWithTs) (st : jsstring)
      (h : store Main.RowWithTs) :
  fst (Main.section_for localeCompare localFmt rows st h)
  = main_section_text localFmt st
      (sort_by (Main.rowCmp localeCompare) (rows_with_competencia_text st rows)).
Proof.
  unfold Main.section_for, bind, new_array. cbn zeta.
  rewrite main_tableFor_run, nth_last. unfold ret, main_section_text. cbn [fst].
  fold (rows_with_competencia_text st rows).
  rewrite <- (Permutation_length
                (sort_by_perm (Main.rowCmp localeCompare)
                              (rows_with_competencia_text st rows))).
  now destruct (map_opt _ _).
Qed.

Lemma main_sections_for_run (rows : list Main.RowWithTs) (sts : list jsstring) :
  forall h,
    fst (Main.sections_for localeCompare localFmt rows sts h)
    = map_opt (fun st => main_section_text localFmt st
                           (sort_by (Main.rowCmp localeCompare)
                                    (rows_with_competencia_text st rows)))
              sts.
Proof.
  induction sts as [|st sts IH]; intros h; [reflexivity|].
  cbn [Main.sections_for map_opt]. unfold bind at 1.
  pose proof (main_section_for_run rows st h) as Hs.
  destruct (Main.section_for localeCompare localFmt rows st h) as [s h1].
  cbn [fst] in Hs. rewrite <- Hs.
  destruct s as [x|]; [|reflexivity].
  unfold bind. specialize (IH h1).
  destruct (Main.sections_for localeCompare localFmt rows sts h1) as [rest h2].
  cbn [fst] in IH. rewrite <- IH. reflexivity.
Qed.

Lemma main_section_text_not_empty (st : jsstring) (ordered : list Main.RowWithTs)
      (x : jsstring) :
  main_section_text localFmt st ordered = Some x -> x <> [].
Proof.
  unfold main_section_text.
  destruct (map_opt (Main.rowHtml localFmt) ordered); [|discriminate].
  cbn [option_map]. intros H. injection H as <-. discriminate.
Qed.
End MainReport.

Lemma rows_with_text_none (st : jsstring) (rows : list Main.RowWithTs) :
  existsb (fun r => jsstring_eqb (estado_competencia (Main.rec r)) st) rows = false ->
  rows_with_competencia_text st rows = [].
Proof.
  unfold rows_with_competencia_text. induction rows as [|r rows IH]; [reflexivity|].
  cbn [existsb filter]. intros H. apply orb_false_iff in H as [H1 H2].
  now rewrite H1, IH.
Qed.

(** The rows with a listed status, status by status. *)
Lemma main_rows_by_status (rows : list Main.RowWithTs) :
  Permutation (filter known_status rows)
    (concat (map (fun st => rows_with_competencia_text st rows) Main.STATUS_ORDER)).
Proof.
  unfold Main.STATUS_ORDER, rows_with_competencia_text, known_status, competencia_names.
  cbn [map concat]. rewrite app_nil_r.
  induction rows as [|r rows IH]; [constructor|]. cbn [filter existsb].
  destruct (jsstring_eqb (estado_competencia (Main.rec r)) (str "Ganando")) eqn:E1.
  { apply jsstring_eqb_eq in E1. rewrite E1.
    change (jsstring_eqb (str "Ganando") (str "Compartiendo primer lugar")) with false.
    change (jsstring_eqb (str "Ganando") (str "Perdiendo")) with false.
    change (jsstring_eqb (str "Ganando") (str "SIN_ESTADO")) with false.
    cbn [orb app]. now constructor. }
  destruct (jsstring_eqb (estado_competencia (Main.rec r))
                         (str "Compartiendo primer lugar")) eqn:E2.
  { apply jsstring_eqb_eq in E2. rewrite E2.
    change (jsstring_eqb (str "Compartiendo primer lugar") (str "Perdiendo")) with false.
    change (jsstring_eqb (str "Compartiendo primer lugar") (str "SIN_ESTADO")) with false.
    cbn [orb]. apply Permutation_cons_app. exact IH. }
  destruct (jsstring_eqb (estado_competencia (Main.rec r)) (str "Perdiendo")) eqn:E3.
  { apply jsstring_eqb_eq in E3. rewrite E3.
    change (jsstring_eqb (str "Perdiendo") (str "SIN_ESTADO")) with false.
    cbn [orb]. rewrite app_assoc. apply Permutation_cons_app.
    now rewrite <- app_assoc. }
  destruct (jsstring_eqb (estado_competencia (Main.rec r)) (str "SIN_ESTADO")) eqn:E4.
  { cbn [orb]. rewrite !app_assoc. apply Permutation_cons_app.
    now rewrite <- !app_assoc. }
  cbn [orb]. exact IH.
Qed.

Lemma parsed_known_status (html fallbackSku : jsstring) (row : Main.RowWithTs) :
  ExtractHtml.parseHtmlForSku html fallbackSku = Some (Main.rec row) ->
  known_status row = true.
Proof.
  intros H. apply parseHtmlForSku_row in H as (r & _ & Hc & _).
  unfold known_status. rewrite Hc.
  pose proof (competencia_of_values r) as Hv.
  unfold competencia_names. cbn [existsb In] in *.
  destruct Hv as [<-|[<-|[<-|[<-|[]]]]]; rewrite jsstring_eqb_refl;
    now rewrite ?orb_true_r.
Qed.

Lemma filter_all (A : Type) (p : A -> bool) (l : list A) :
  Forall (fun x => p x = true) l -> filter p l = l.
Proof.
  induction 1 as [|x l Hx _ IH]; [reflexivity|]. cbn [filter]. now rewrite Hx, IH.
Qed.

(** The text of the report of the main script's [htmlReport]: its body is
    one section for each of the four statuses it knows that has rows, in
    the order of the report, each with the number of its rows in the
    heading and its rows in table order.  When no row has such a status the
    body is the paragraph that says there were no results. *)
Lemma htmlReport_text
        (localeCompare : jsstring -> jsstring -> Z) (localFmt : jsstring -> option jsstring)
        (when : jsstring) (rows : list Main.RowWithTs) (h : store Main.RowWithTs) :
  consistent localeCompare ->
  exists listing : list (jsstring * list Main.RowWithTs),
    map fst listing = main_statuses_with_rows rows
    /\ Forall (fun p => Permutation (rows_with_competencia_text (fst p) rows) (snd p)
                        /\ StronglySorted (main_row_le localeCompare) (snd p))
              listing
    /\ Permutation (filter known_status rows) (concat (map snd listing))
    /\ fst (Main.htmlReport localeCompare localFmt when rows h)
       = option_map
           (fun secs =>
              Main.page when (Main.summarize rows)
                (join Main.dot_sep
                      (map (Main.count_label (Main.byComp (Main.summarize rows)))
                           Main.STATUS_ORDER))
                (join Main.dot_sep
                      (map (Main.count_label (Main.byOp (Main.summarize rows)))
                           Main.OP_NAMES))
                (match listing with
                 | [] => Main.no_results
                 | _ :: _ => join [] secs
                 end))
           (map_opt (fun p => main_section_text localFmt (fst p) (snd p)) listing).
Proof.
  intros Hc.
  set (cmp := Main.rowCmp localeCompare).
  exists (map (fun st => (st, sort_by cmp (rows_with_competencia_text st rows)))
              (main_statuses_with_rows rows)).
  assert (Hperm : Permutation (filter known_status rows)
                    (concat (map snd
                       (map (fun st => (st, sort_by cmp (rows_with_competencia_text st rows)))
                            (main_statuses_with_rows rows))))).
  { rewrite map_map. cbn [snd].
    eapply perm_trans; [apply main_rows_by_status|].
    unfold main_statuses_with_rows.
    rewrite <- concat_skip_empty
      with (f := fun st => rows_with_competencia_text st rows)
           (p := fun st => existsb (fun r => jsstring_eqb
                                               (estado_competencia (Main.rec r)) st) rows).
    + apply Permutation_concat_map. intros st. apply sort_by_perm.
    + intros st E. now apply rows_with_text_none. }
  split; [|split; [|split; [exact Hperm|]]].
  - rewrite map_map. cbn [fst]. apply map_id.
  - apply Forall_forall. intros p Hp. apply in_map_iff in Hp as (st & <- & _).
    cbn [fst snd]. split; [apply sort_by_perm|].
    eapply StronglySorted_impl; [intros a b; apply main_rowCmp_le|].
    apply sort_by_sorted; [apply main_le_total|apply main_le_trans]; exact Hc.
  - unfold Main.htmlReport. cbn zeta. unfold bind.
    fold (main_statuses_with_rows rows).
    pose proof (main_sections_for_run localeCompare localFmt rows
                  (main_statuses_with_rows rows) h) as Hrun.
    destruct (Main.sections_for _ _ _ _ h) as [secs h1]. cbn [fst] in Hrun.
    unfold ret. cbn [fst]. rewrite Hrun. clear Hrun.
    rewrite map_opt_map. cbn [fst snd]. fold cmp.
    destruct (map_opt _ (main_statuses_with_rows rows)) as [l|] eqn:E; [|reflexivity].
    cbn [option_map]. f_equal. f_equal.
    pose proof (map_opt_length _ _ E) as Hl.
    assert (Hall : Forall (fun x => x <> []) l).
    { revert E. apply map_opt_all. intros st x. apply main_section_text_not_empty. }
    destruct (main_statuses_with_rows rows) as [|st sts].
    + destruct l; [reflexivity|discriminate].
    + destruct l as [|x l]; [discriminate|]. cbn [map].
      inversion Hall as [|? ? Hx _]; subst.
      unfold or_str. pose proof (@join_not_empty x l Hx) as Hj.
      now destruct (join [] (x :: l)).
Qed.

(** ** The rows of a table *)

Lemma shown_title_escape (t : jsstring) : escape_angle t = shown_title t.
Proof.
  rewrite escape_angle_flat. unfold shown_title. apply flat_map_ext.
  intros c. now rewrite (N.eqb_sym 60 c), (N.eqb_sym 62 c).
Qed.

Lemma or_str_nil (t : jsstring) : or_str t [] = t.
Proof. now destruct t. Qed.

Lemma or_str_dash (id : jsstring) : or_str id (str "-") = shown_id id.
Proof. now destruct id. Qed.

Lemma join_nil_concat (l : list jsstring) : join [] l = concat l.
Proof.
  induction l as [|x l IH]; [reflexivity|].
  destruct l as [|y l]; [cbn; now rewrite app_nil_r|].
  change (join [] (x :: y :: l)) with (x ++ [] ++ join [] (y :: l)).
  now rewrite IH.
Qed.

Lemma report_itemUrl_none (id : jsstring) :
  Report.itemUrl id = None <-> well_formed id = false.
Proof.
  unfold Report.itemUrl.
  rewrite <- (@encode_well_formed _ _ (le_n (length id))).
  destruct id as [|c id]; cbn [truthy].
  - cbn. split; discriminate.
  - destruct (encodeURIComponent (c :: id)); cbn [option_map]; split; intros H;
      try discriminate H; reflexivity.
Qed.

Lemma main_itemUrl_none (id : jsstring) :
  Main.itemUrl id = None <-> well_formed id = false.
Proof.
  unfold Main.itemUrl.
  rewrite <- (@encode_well_formed _ _ (le_n (length id))).
  destruct id as [|c id]; cbn [truthy].
  - cbn. split; discriminate.
  - destruct (encodeURIComponent (c :: id)); cbn [option_map]; split; intros H;
      try discriminate H; reflexivity.
Qed.

(** A row of the report module's table lists its row. *)
Lemma report_rowHtml_listed (r : Report.Row) (text : jsstring) :
  Report.rowHtml r = Some text -> report_row_listed r text.
Proof.
  unfold Report.rowHtml. destruct (Report.itemUrl (Report.itemId r)) as [url|];
    [|discriminate].
  intros H. injection H as <-.
  exists [indent 6; indent 8; indent 8; indent 8; indent 8;
          indent 8 ++ strq "<td><a href='" ++ url
            ++ strq "' target='_blank' rel='noopener'>Abrir</a></td>" ++ indent 6;
          []].
  split; [reflexivity|].
  rewrite shown_title_escape, or_str_nil, or_str_dash.
  cbn [weave]. unfold td.
  replace (Report.Operativo_text (Report.estado_operativo r))
    with (operativo_name (Report.estado_operativo r))
    by now destruct (Report.estado_operativo r).
  rewrite <- !app_assoc. reflexivity.
Qed.

Lemma report_rowHtml_none (r : Report.Row) :
  Report.rowHtml r = None <-> well_formed (Report.itemId r) = false.
Proof.
  rewrite <- report_itemUrl_none. unfold Report.rowHtml.
  destruct (Report.itemUrl (Report.itemId r)); split; congruence.
Qed.

Section MainRows.
Variable localFmt : jsstring -> option jsstring.

(** A row of the main script's table lists its row. *)
Lemma main_rowHtml_listed (r : Main.RowWithTs) (text : jsstring) :
  Main.rowHtml localFmt r = Some text -> main_row_listed localFmt r text.
Proof.
  unfold Main.rowHtml, main_row_listed.
  destruct (if truthy (itemId (Main.rec r)) then _ else _) as [link|]; [|discriminate].
  destruct (localFmt (Main.timestamp r)) as [hora|]; [|discriminate].
  intros H. injection H as <-. exists hora. split; [reflexivity|].
  exists [indent 4; indent 6; indent 6; indent 6; indent 6;
          indent 6 ++ str "<td>" ++ link ++ str "</td>" ++ indent 6;
          indent 4; indent 2].
  split; [reflexivity|].
  rewrite shown_title_escape, or_str_nil, or_str_dash.
  cbn [weave]. unfold td. rewrite <- !app_assoc. reflexivity.
Qed.

Lemma main_rowHtml_none (r : Main.RowWithTs) :
  Main.rowHtml localFmt r = None
  <-> well_formed (itemId (Main.rec r)) = false \/ localFmt (Main.timestamp r) = None.
Proof.
  unfold Main.rowHtml.
  pose proof (main_itemUrl_none (itemId (Main.rec r))) as Hu.
  destruct (itemId (Main.rec r)) as [|c id] eqn:E; cbn [truthy].
  - destruct (localFmt (Main.timestamp r)); split; auto.
    + discriminate.
    + intros [H|H]; discriminate H.
  - destruct (Main.itemUrl (c :: id)) as [u|]; cbn [option_map].
    + assert (Hw : well_formed (c :: id) = true).
      { destruct (well_formed (c :: id)); [reflexivity|].
        destruct Hu as [_ Hu]. discriminate (Hu eq_refl). }
      rewrite Hw. destruct (localFmt (Main.timestamp r)); split; auto.
      * discriminate.
      * intros [H|H]; discriminate H.
    + split; [|reflexivity]. intros _. left. now apply Hu.
Qed.
End MainRows.

Lemma map_opt_listed (A : Type) (f : A -> option jsstring)
      (P : A -> jsstring -> Prop) (l : list A) :
  (forall x y, f x = Some y -> P x y) ->
  forall cells, map_opt f l = Some cells -> Forall2 P l cells.
Proof.
  intros HP. induction l as [|x l IH]; intros cells H; cbn [map_opt] in H.
  - injection H as <-. constructor.
  - destruct (f x) as [y|] eqn:E; [|discriminate].
    destruct (map_opt f l) as [t|]; [|discriminate].
    injection H as <-. constructor; [now apply HP|now apply IH].
Qed.

Lemma Forall_not_none (A B : Type) (f : A -> option B) (P : A -> Prop) (l : list A) :
  (forall x, f x = None -> ~ P x) -> Forall P l -> Forall (fun x => f x <> None) l.
Proof.
  intros H HP. eapply Forall_impl; [|exact HP]. cbn beta.
  intros x Hx Hn. exact (H x Hn Hx).
Qed.

Lemma Exists_perm (A : Type) (P : A -> Prop) (l l' : list A) :
  Permutation l l' -> Exists P l -> Exists P l'.
Proof.
  intros Hp H. apply Exists_exists in H as (x & Hin & Hx).
  apply Exists_exists. exists x. split; [|exact Hx].
  eapply Permutation_in; eassumption.
Qed.


(** ** The sections of the reports *)

Lemma weave_later (a g : jsstring) (gaps parts : list jsstring) :
  weave ((a ++ g) :: gaps) parts = a ++ weave (g :: gaps) parts.
Proof. destruct parts as [|p parts]; cbn [weave]; [reflexivity|symmetry; apply app_assoc]. Qed.

Lemma holds_in_order_later (parts : list jsstring) (a text : jsstring) :
  holds_in_order parts text -> holds_in_order parts (a ++ text).
Proof.
  intros (gaps & Hl & ->). destruct gaps as [|g gaps]; [discriminate|].
  exists ((a ++ g) :: gaps). split; [exact Hl|]. symmetry. apply weave_later.
Qed.

Lemma holds_in_order_here (p rest : jsstring) : holds_in_order [p] (p ++ rest).
Proof. exists [[]; rest]. split; reflexivity. Qed.

(** Looks for a part along a text written as a chain of pieces. *)
Ltac find_part :=
  repeat first [apply holds_in_order_here | apply holds_in_order_later].

(** The body of a page stands in the page. *)
Lemma report_page_body (tsLocal : jsstring) (s : Report.Summary) (body : jsstring) :
  holds_in_order [body] (Report.page tsLocal s body).
Proof. unfold Report.page. find_part. Qed.

Lemma main_page_body (when : jsstring) (s : Main.Summary)
      (compStr opStr body : jsstring) :
  holds_in_order [body] (Main.page when s compStr opStr body).
Proof. unfold Main.page. find_part. Qed.

Lemma map_opt_Forall2 (A B : Type) (f : A -> option B) (l : list A) :
  forall l', map_opt f l = Some l' -> Forall2 (fun x y => f x = Some y) l l'.
Proof.
  induction l as [|x l IH]; intros l' H; cbn [map_opt] in H.
  - injection H as <-. constructor.
  - destruct (f x) as [y|] eqn:E; [|discriminate].
    destruct (map_opt f l) as [t|]; [|discriminate].
    injection H as <-. constructor; [exact E|now apply IH].
Qed.

Lemma Forall2_impl (A B : Type) (P Q : A -> B -> Prop) (l : list A) (l' : list B) :
  (forall x y, In x l -> P x y -> Q x y) -> Forall2 P l l' -> Forall2 Q l l'.
Proof.
  intros H F. induction F as [|x y l l' Hxy _ IH]; constructor.
  - apply H; [now left|exact Hxy].
  - apply IH. intros a b Hin. apply H. now right.
Qed.

(** A section of the report module lists its rows. *)
Lemma report_section_lists (st : Report.Competencia) (ordered : list Report.Row)
      (sec : jsstring) :
  section_text st ordered = Some sec ->
  section_lists report_row_listed (competencia_name st) ordered sec.
Proof.
  unfold section_text.
  destruct (map_opt Report.rowHtml ordered) as [cells|] eqn:E; [|discriminate].
  cbn [option_map]. intros H. apply some_eq in H. subst sec.
  exists cells. split.
  { revert E. apply map_opt_listed. exact report_rowHtml_listed. }
  exists [indent 6; strq " style='margin:24px 0 8px'>";
          indent 6 ++ Report.table_open; Report.table_close ++ indent 4].
  split; [reflexivity|].
  unfold Report.section_html, heading_end. cbn [weave].
  rewrite join_nil_concat.
  replace (Report.Competencia_text st) with (competencia_name st) by now destruct st.
  generalize Report.table_open, Report.table_close. intros topen tclose.
  rewrite <- !app_assoc. reflexivity.
Qed.

Lemma section_text_some (st : Report.Competencia) (ordered : list Report.Row) :
  Forall (fun r => well_formed (Report.itemId r) = true) ordered ->
  section_text st ordered <> None.
Proof.
  intros Hok. unfold section_text.
  destruct (@map_opt_some _ _ Report.rowHtml ordered) as (cells & E & _).
  { eapply Forall_not_none; [|exact Hok]. cbn beta.
    intros r Hn. apply report_rowHtml_none in Hn. congruence. }
  rewrite E. discriminate.
Qed.

Lemma Forall_filter (A : Type) (P : A -> Prop) (p : A -> bool) (l : list A) :
  Forall P l -> Forall P (filter p l).
Proof.
  intros H. apply Forall_forall. intros x Hx. apply filter_In in Hx as [Hx _].
  rewrite Forall_forall in H. now apply H.
Qed.

Section MainSections.
Variable localFmt : jsstring -> option jsstring.

(** A section of the main script's report lists its rows. *)
Lemma main_section_lists (st : jsstring) (ordered : list Main.RowWithTs)
      (sec : jsstring) :
  main_section_text localFmt st ordered = Some sec ->
  section_lists (main_row_listed localFmt) st ordered sec.
Proof.
  unfold main_section_text.
  destruct (map_opt (Main.rowHtml localFmt) ordered) as [cells|] eqn:E; [|discriminate].
  cbn [option_map]. intros H. apply some_eq in H. subst sec.
  exists cells. split.
  { revert E. apply map_opt_listed. apply main_rowHtml_listed. }
  exists [[]; str ">"; Main.table_open; Main.table_close].
  split; [reflexivity|].
  unfold Main.section_html, heading_end. cbn [weave].
  rewrite join_nil_concat.
  generalize Main.table_open, Main.table_close. intros topen tclose.
  rewrite <- !app_assoc. reflexivity.
Qed.

Lemma main_section_text_some (st : jsstring) (ordered : list Main.RowWithTs) :
  Forall (fun r => well_formed (itemId (Main.rec r)) = true
                   /\ localFmt (Main.timestamp r) <> None) ordered ->
  main_section_text localFmt st ordered <> None.
Proof.
  intros Hok. unfold main_section_text.
  destruct (@map_opt_some _ _ (Main.rowHtml localFmt) ordered) as (cells & E & _).
  { eapply Forall_not_none; [|exact Hok]. cbn beta.
    intros r Hn [H1 H2]. apply main_rowHtml_none in Hn as [Hn|Hn]; congruence. }
  rewrite E. discriminate.
Qed.
End MainSections.




(** ** What clean keeps *)

Lemma content_app (a b : jsstring) : content (a ++ b) = content a ++ content b.
Proof. unfold content. apply filter_app. Qed.

Lemma content_spaces (w : jsstring) : forallb is_space w = true -> content w = [].
Proof.
  unfold content. induction w as [|c w IH]; [reflexivity|]. cbn [forallb filter].
  intros H. apply andb_true_iff in H as [Hc H]. now rewrite Hc, IH.
Qed.

Lemma content_squeeze (s : jsstring) : forall b, content (squeeze b s) = content s.
Proof.
  unfold content. induction s as [|c s IH]; intros b; [reflexivity|].
  cbn [squeeze filter]. destruct (is_space c) eqn:E; cbn [negb].
  - destruct b; [apply IH|]. cbn [filter]. change (is_space 32%N) with true.
    cbn [negb]. apply IH.
  - cbn [filter]. rewrite E. cbn [negb]. now rewrite IH.
Qed.

Lemma content_trim_start (l : jsstring) : content (trim_start l) = content l.
Proof.
  destruct (trim_start_split l) as (w & E & Hw). rewrite E at 2.
  now rewrite content_app, (content_spaces _ Hw).
Qed.

Lemma content_rev (l : jsstring) : content (rev l) = rev (content l).
Proof.
  unfold content. induction l as [|c l IH]; [reflexivity|]. cbn [rev filter].
  rewrite filter_app, IH. cbn [filter].
  destruct (negb (is_space c)); [reflexivity|]. now rewrite app_nil_r.
Qed.

Lemma content_trim (l : jsstring) : content (trim l) = content l.
Proof.
  unfold trim. rewrite content_rev, content_trim_start, content_rev.
  rewrite content_trim_start. apply rev_involutive.
Qed.

Lemma squeeze_length (s : jsstring) : forall b, length (squeeze b s) <= length s.
Proof.
  induction s as [|c s IH]; intros b; [reflexivity|]. cbn [squeeze].
  destruct (is_space c); [destruct b|]; cbn [length].
  - specialize (IH true). lia.
  - specialize (IH true). lia.
  - specialize (IH false). lia.
Qed.

Lemma trim_length (l : jsstring) : length (trim l) <= length l.
Proof.
  destruct (trim_split l) as (w1 & w2 & E). rewrite E at 2.
  rewrite !length_app. lia.
Qed.

(** X23.  [clean] keeps the content of a text: the units that are not
    whitespace are the same, in the same order, before and after, and the
    result is never longer than the text. *)
Theorem clean_keeps_content (s : option jsstring) :
  let text := match s with Some t => t | None => [] end in
  content (clean s) = content text
  /\ length (clean s) <= length text.
Proof.
  cbn zeta. rewrite clean_squeeze. split.
  - now rewrite content_trim, content_squeeze.
  - eapply Nat.le_trans; [apply trim_length|apply squeeze_length].
Qed.

(** * Instances *)

Lemma summarize_example :
  Report.comp_count (Report.compCounts (Report.summarize [row_mate; row_termo; row_mate]))
                    Report.Ganando = Some 2.
Proof. reflexivity. Qed.



Lemma item_id_extracted_witness :
  first_item_param (str "mlu123456") (str "/x?noitemId=1&ITEMID=mlu123456&page=2")
  /\ ExtractDomCard.pickItemIdFromHref (Some (str "/x?noitemId=1&ITEMID=mlu123456&page=2"))
     = str "mlu123456".
Proof.
  assert (H : first_item_param (str "mlu123456")
                               (str "/x?noitemId=1&ITEMID=mlu123456&page=2")).
  { exists (str "/x?noitemId=1"). split.
    - exists 38%N, (str "ITEMID="), (str "mlu"), (str "123456"), (str "&page=2").
      split; [reflexivity|]. split; [now right|].
      split; [reflexivity|]. split; [reflexivity|].
      split; [cbn; lia|]. repeat split.
    - intros pre' id' Hp. apply item_param_starts in Hp.
      destruct (le_lt_dec (length (str "/x?noitemId=1")) (length pre')) as [Hl|Hl];
        [exact Hl|exfalso].
      remember (length pre') as n eqn:En. clear En. cbn in Hl.
      do 13 (destruct n as [|n]; [vm_compute in Hp; discriminate Hp|]). lia. }
  split; [exact H|].
  exact (proj1 (proj1 (proj2 item_id_extracted) _ _ H)).
Defined.



Lemma readSkusCsv_entries_example :
  In (str "456") (Main.readSkusCsv (Some skus_file))
  /\ str "456" <> [] /\ forallb is_digit (str "456") = true.
Proof.
  assert (H : In (str "456") (Main.readSkusCsv (Some skus_file)))
    by (vm_compute; right; left; reflexivity).
  split; [exact H|].
  exact (proj1 readSkusCsv_entries (Some skus_file) (str "456") H).
Defined.


Lemma clean_idempotent_witness :
  clean (Some (str "  Mate   de calabaza ")) = str "Mate de calabaza"
  /\ is_space 77%N = false.
Proof.
  assert (H : clean (Some (str "  Mate   de calabaza ")) = 77%N :: str "ate de calabaza")
    by (vm_compute; reflexivity).
  split; [exact H|].
  exact (proj1 (proj2 (clean_idempotent (Some (str "  Mate   de calabaza "))))
               77%N (str "ate de calabaza") H).
Defined.

Lemma inferOperativo_never_inactiva_witness :
  occurs_ci (str "inactiva") (str "Publicacion inactiva") = true
  /\ ExtractDom.inferOperativo (str "Publicacion inactiva") None = str "Activa".
Proof.
  assert (H : occurs_ci (str "inactiva") (str "Publicacion inactiva") = true)
    by reflexivity.
  split; [exact H|].
  exact (proj1 (proj2 (proj2 inferOperativo_never_inactiva))
               (str "Publicacion inactiva") None H).
Defined.

Lemma inferCompetencia_precedence_witness :
  occurs_ci (str "ganando") (str "Ganando, antes perdiendo") = true
  /\ ExtractDom.inferCompetencia (str "Ganando, antes perdiendo") = str "Ganando".
Proof.
  assert (H : occurs_ci (str "ganando") (str "Ganando, antes perdiendo") = true)
    by reflexivity.
  split; [exact H|].
  exact (proj1 (inferCompetencia_precedence (str "Ganando, antes perdiendo")) H).
Defined.

Lemma pickTitle_first_longest_witness :
  title_candidates sample_links <> []
  /\ exists pre post,
       title_candidates sample_links = pre ++ DomText.pickTitle sample_links :: post
       /\ Forall (fun t => length t < length (DomText.pickTitle sample_links)) pre
       /\ Forall (fun t => length t <= length (DomText.pickTitle sample_links)) post.
Proof.
  assert (H : title_candidates sample_links <> []) by (vm_compute; discriminate).
  split; [exact H|].
  exact (proj1 (proj2 (pickTitle_first_longest sample_links)) H).
Defined.

Lemma escape_angle_no_brackets_witness :
  forallb (fun c => negb (is_angle c)) (str "Mate & termo") = true
  /\ escape_angle (str "Mate & termo") = str "Mate & termo".
Proof.
  assert (H : forallb (fun c => negb (is_angle c)) (str "Mate & termo") = true)
    by reflexivity.
  split; [exact H|].
  exact (proj2 (escape_angle_no_brackets (str "Mate & termo")) H).
Defined.

Lemma itemUrl_keeps_field_witness :
  exists url,
    Main.itemUrl (str "MLU 1,2") = Some url
    /\ forallb (fun c => negb (breaks_field c)) url = true.
Proof.
  eexists. split; [vm_compute; reflexivity|].
  apply (proj1 (@itemUrl_keeps_field (str "MLU 1,2") _)).
  vm_compute; reflexivity.
Defined.

Lemma esc_reads_back_witness :
  44%N <> dq
  /\ read_quoted (Main.esc (dq :: str "Mate, grande") ++ str ",u")
     = Some (dq :: str "Mate, grande", str ",u").
Proof.
  assert (H : 44%N <> dq) by discriminate.
  split; [exact H|].
  exact (@esc_reads_back (dq :: str "Mate, grande") (str ",u") H).
Defined.

Lemma address_list_entries_witness :
  Forall (fun a => a <> [] /\ edge_clean a = true /\ ~ In 44%N a)
         [str "ana@x.uy"; str "luis@x.uy"]
  /\ Report.address_list (Some (join (str ",") [str "ana@x.uy"; str "luis@x.uy"]))
     = [str "ana@x.uy"; str "luis@x.uy"].
Proof.
  assert (H : Forall (fun a => a <> [] /\ edge_clean a = true /\ ~ In 44%N a)
                     [str "ana@x.uy"; str "luis@x.uy"]).
  { repeat constructor; try discriminate;
      intros Hin; cbn in Hin;
      repeat (destruct Hin as [Hin|Hin]; [discriminate Hin|]); exact Hin. }
  split; [exact H|].
  exact (proj2 (proj2 (proj2 address_list_entries)) _ H).
Defined.

Lemma readSkusCsv_reads_back_witness :
  ([10%N] = [10%N] \/ [10%N] = [13%N; 10%N])
  /\ Forall (fun t => t <> [] /\ forallb is_digit t = true) sample_skus
  /\ Main.readSkusCsv (Some (concat (map (fun t => t ++ [10%N]) sample_skus)))
     = sample_skus.
Proof.
  assert (H1 : [10%N] = [10%N] \/ [10%N] = [13%N; 10%N]) by (left; reflexivity).
  assert (H2 : Forall (fun t => t <> [] /\ forallb is_digit t = true) sample_skus)
    by (repeat constructor; discriminate).
  split; [exact H1|]. split; [exact H2|].
  exact (proj1 (proj1 (@readSkusCsv_reads_back [10%N] H1) sample_skus H2)).
Defined.

Lemma item_id_shape_witness :
  plain_sku (str "123") = true
  /\ exists r,
       ExtractHtml.parseHtmlForSku page_full (str "123") = Some r
       /\ (itemId r = [] \/ item_id_like 6 (itemId r) = true).
Proof.
  assert (H : plain_sku (str "123") = true) by reflexivity.
  split; [exact H|].
  eexists. split; [vm_compute; reflexivity|].
  apply (proj1 item_id_shape page_full (str "123") _ H).
  vm_compute; reflexivity.
Defined.

Lemma parsed_sku_shape_witness :
  plain_sku (str "123") = true
  /\ exists r,
       ExtractHtml.parseHtmlForSku page_full (str "123") = Some r
       /\ (sku r = str "123"
           \/ (digits_only (sku r) = true
               /\ exists row, sliceRowForSku page_full (str "123") = Some row
                              /\ sku_text_spaced (sku r) row)).
Proof.
  assert (H : plain_sku (str "123") = true) by reflexivity.
  split; [exact H|].
  eexists. split; [vm_compute; reflexivity|].
  apply (proj1 (@parsed_sku_shape page_full (str "123") H)).
  vm_compute; reflexivity.
Defined.

Lemma itemUrl_reads_back_witness :
  6 <= length (str "123456")
  /\ forallb is_digit (str "123456") = true
  /\ Main.itemUrl (str "MLU" ++ str "123456")
     = Some (editor_url (str "MLU" ++ str "123456"))
  /\ ExtractDomCard.pickItemIdFromHref
       (Some (editor_url (str "MLU" ++ str "123456")))
     = str "MLU" ++ str "123456".
Proof.
  assert (H1 : 6 <= length (str "123456")) by (cbn; lia).
  assert (H2 : forallb is_digit (str "123456") = true) by reflexivity.
  split; [exact H1|]. split; [exact H2|].
  destruct (@itemUrl_reads_back (str "123456") H1 H2) as (A & _ & B & _).
  split; [exact A|exact B].
Defined.

Lemma parsed_rows_write_witness :
  plain_sku (str "123") = true
  /\ exists r,
       ExtractHtml.parseHtmlForSku page_full (str "123") = Some r
       /\ Main.itemUrl (itemId r)
          = Some (if truthy (itemId r) then editor_url (itemId r) else []).
Proof.
  assert (H : plain_sku (str "123") = true) by reflexivity.
  split; [exact H|].
  eexists. split; [vm_compute; reflexivity|].
  apply (proj1 parsed_rows_write page_full (str "123") _ H).
  vm_compute; reflexivity.
Defined.


Lemma sliceRowForSku_slice_witness :
  plain_sku (str "123") = true
  /\ sliceRowForSku page_full (str "123") = Some page_full
  /\ sku_text_in (str "123") page_full
  /\ exists earlier later,
       match_all false row_re page_full = earlier ++ page_full :: later
       /\ Forall (fun r => ~ sku_text_in (str "123") r) earlier.
Proof.
  assert (Hp : plain_sku (str "123") = true) by reflexivity.
  assert (H : sliceRowForSku page_full (str "123") = Some page_full)
    by (vm_compute; reflexivity).
  split; [exact Hp|]. split; [exact H|].
  exact (proj2 (@sliceRowForSku_slice page_full (str "123") page_full Hp H)).
Defined.

Lemma parsed_titulo_clean_witness :
  plain_sku (str "123") = true
  /\ exists r,
       ExtractHtml.parseHtmlForSku page_full (str "123") = Some r
       /\ tidy false (titulo r) = true /\ edge_clean (titulo r) = true
       /\ clean (Some (titulo r)) = titulo r.
Proof.
  assert (H : plain_sku (str "123") = true) by reflexivity.
  split; [exact H|].
  eexists. split; [vm_compute; reflexivity|].
  apply (proj1 (@parsed_titulo_clean page_full (str "123") H)).
  vm_compute; reflexivity.
Defined.

Lemma escaped_pattern_needs_backslash_witness :
  existsb (N.eqb 92%N) (str "/syi/core/modify?itemId=MLU123456") = false
  /\ ExtractDomRoles.pickItemIdFromHref (Some (str "/syi/core/modify?itemId=MLU123456"))
     = [].
Proof.
  assert (H : existsb (N.eqb 92%N) (str "/syi/core/modify?itemId=MLU123456") = false)
    by reflexivity.
  split; [exact H|].
  exact (proj1 escaped_pattern_needs_backslash _ H).
Defined.

Lemma parsed_titulo_no_tag_witness :
  plain_sku (str "123") = true
  /\ exists r,
       ExtractHtml.parseHtmlForSku page_variant (str "123") = Some r
       /\ test false ExtractHtml.tag_re (titulo r) = false
       /\ has_tag (titulo r) = false.
Proof.
  assert (H : plain_sku (str "123") = true) by reflexivity.
  split; [exact H|].
  eexists. split; [vm_compute; reflexivity|].
  apply (@parsed_titulo_no_tag page_variant (str "123") _ H).
  vm_compute; reflexivity.
Defined.

Lemma old_parser_fields_witness :
  plain_sku (str "123") = true
  /\ ~ In 60%N (ExtractHtmlOld.titulo (ExtractHtmlOld.parseHtmlForSku page_full (str "123")))
  /\ ~ In dq (ExtractHtmlOld.url_item (ExtractHtmlOld.parseHtmlForSku page_full (str "123"))).
Proof.
  assert (H : plain_sku (str "123") = true) by reflexivity.
  split; [exact H|].
  exact (@old_parser_fields page_full (str "123") H).
Defined.


